(** * ophyd pseudo positioners: a shallow embedding of [ophyd/pseudopos.py]

    The development follows the source file top to bottom: the position
    tuple parser [to_position_tuple], the single pseudo axis
    [PseudoSingle], and the orchestrator [PseudoPositioner] with its
    position cache, validation, and the sequential / concurrent move
    scheduling.  All definitions come first, the theorems follow. *)

From Stdlib Require Import ZArith Lia Ascii.
From stdpp Require Import base option list strings gmap fin_maps.

Open Scope Z_scope.

(** ** Exceptions and results *)

(** The exceptions the module raises itself, one constructor per [raise]
    statement, the [ValueError] of [collections.namedtuple] about a name,
    and [Foreign] for whatever a collaborator (a real positioner, a
    subclass transform) raises. *)
Inductive exn : Type :=
| TypeError_invalid_position_tuple
| TypeError_new (expected got : nat)
| ValueError_more_than_one_positional
| ValueError_wrong_number_of_arguments (got expected : nat)
| ValueError_usage
| ValueError_missing_keywords (missing : list string)
| ValueError_not_all_required_values
| ValueError_must_have_positioners
| ValueError_namedtuple (name : string)
| ValueError_outside_pseudo_limits (name : string) (low pos high : Z)
| KeyError (key : string)
| IndexError
| DisconnectedError
| NotImplementedError
| Foreign (what : string).

Inductive result (A : Type) : Type :=
| Ok (a : A)
| Err (e : exn).
Arguments Ok {A} a.
Arguments Err {A} e.

#[global] Instance result_ret : MRet result := fun A a => Ok a.
#[global] Instance result_bind : MBind result :=
  fun A B f m => match m with Ok a => f a | Err e => Err e end.
#[global] Instance result_fmap : FMap result :=
  fun A B f m => match m with Ok a => Ok (f a) | Err e => Err e end.

#[global] Instance exn_eq_dec : EqDecision exn.
Proof. solve_decision. Defined.

Definition is_ok {A} (r : result A) : bool :=
  match r with Ok _ => true | Err _ => false end.

(** ** Position tuples *)

(** A namedtuple class: its name and its [_fields]. *)
Record ntclass : Type := mk_ntclass {
  cls_name : string;
  _fields : list string
}.

#[global] Instance ntclass_eq_dec : EqDecision ntclass.
Proof. solve_decision. Defined.

(** The values a caller can pass: a number, a plain sequence (list,
    tuple, string), or an instance of some namedtuple class. *)
#[warnings="-register-all"]
Inductive pyval : Type :=
| PyNone
| PyNum (z : Z)
| PySeq (items : list pyval)
| PyRecord (cls : ntclass) (items : list pyval).

(** [isinstance(v, cls)] *)
Definition isinstance_cls (v : pyval) (cls : ntclass) : bool :=
  match v with
  | PyRecord c _ => bool_decide (c = cls)
  | _ => false
  end.

(** [isinstance(v, Sequence)]: a namedtuple instance is a tuple. *)
Definition isinstance_Sequence (v : pyval) : bool :=
  match v with
  | PySeq _ | PyRecord _ _ => true
  | PyNone | PyNum _ => false
  end.

(** Iterating a sequence value, as [cls( *position)] does. *)
Definition items_of (v : pyval) : list pyval :=
  match v with
  | PySeq l | PyRecord _ l => l
  | PyNone | PyNum _ => []
  end.

(** [cls( *items)]: the namedtuple constructor checks the arity. *)
Definition new_positional (cls : ntclass) (items : list pyval) : result pyval :=
  if bool_decide (length items = length (_fields cls))
  then Ok (PyRecord cls items)
  else Err (TypeError_new (length (_fields cls)) (length items)).

(** [cls( **position_kw)] with [position_kw = {field: kwargs[field] ...}]. *)
Fixpoint position_kw (fields : list string) (kwargs : gmap string pyval)
  : result (list pyval) :=
  match fields with
  | [] => Ok []
  | field :: rest =>
      match kwargs !! field with
      | None => Err (KeyError field)
      | Some v => vs ← position_kw rest kwargs; Ok (v :: vs)
      end
  end.

Definition to_position_tuple (cls : ntclass) (args : list pyval)
    (kwargs : gmap string pyval) : result (pyval * gmap string pyval) :=
  let fields := _fields cls in
  if bool_decide (fields = []) then Err TypeError_invalid_position_tuple
  else
    match args with
    | arg0 :: _ =>
        if isinstance_cls arg0 cls || isinstance_Sequence arg0 then
          (* Position is in the first positional argument *)
          if bool_decide (1 < length args)%nat
          then Err ValueError_more_than_one_positional
          else
            position ← (if isinstance_cls arg0 cls then Ok arg0
                        else new_positional cls (items_of arg0));
            Ok (position, kwargs)
        else if bool_decide (length args = length fields) then
          position ← new_positional cls args; Ok (position, kwargs)
        else
          Err (ValueError_wrong_number_of_arguments (length args) (length fields))
    | [] =>
        if bool_decide (kwargs = ∅) then Err ValueError_usage
        else
          let missing_fields :=
            filter (fun field => kwargs !! field = None) fields in
          if bool_decide (missing_fields = []) then
            vs ← position_kw fields kwargs;
            let other_kw := filter (fun kv => kv.1 ∉ fields) kwargs in
            Ok (PyRecord cls vs, other_kw)
          else Err (ValueError_missing_keywords missing_fields)
    end.

(** ** The orchestrator: data *)

(** Positioner objects are told apart by identity; a name stands for it. *)
Definition axis : Type := string.

(** One [PseudoSingle]: its configuration and the two attributes the
    module mutates, [_target] and [_idx]. *)
Record PseudoSingle : Type := mk_PseudoSingle {
  name : string;
  limits : Z * Z;
  _target : option Z;
  _idx : nat
}.

(** What the subclass and the real positioners supply. *)
Record collaborators : Type := mk_collaborators {
  forward : list Z -> result (list Z);
  inverse : list (option Z) -> result (list Z);
  real_check_value : axis -> Z -> result unit;
  real_stop : axis -> result unit
}.

(** The two callbacks handed to [real.move] as [moved_cb]: the closure
    [move_next] of one call of [_sequential_move], told apart by the
    number of that call, and the bound method [_real_finished]. *)
Inductive callback : Type := cb_move_next (cl : nat) | cb_real_finished.

(** Calls that leave the module, in the order they are made. *)
Inductive event : Type :=
| ev_move (position : list Z)
| ev_real_move (real : axis) (position : Z) (timeout : option Z)
    (moved_cb : callback)
| ev_real_stop (real : axis)
| ev_logger_error (msg : string)
| ev_super_stop
| ev_super_done_moving (success : bool)
| ev_set_position (pseudo_pos : list Z).

#[global] Instance callback_eq_dec : EqDecision callback.
Proof. solve_decision. Defined.
#[global] Instance event_eq_dec : EqDecision event.
Proof. solve_decision. Defined.

(** The status object [real.move] returns: whose move it is, the callback
    bound to it, and the two attributes the real positioner sets when the
    motion ends. *)
Record status : Type := mk_status {
  st_obj : axis;
  st_moved_cb : callback;
  st_done : bool;
  success : bool
}.

(** The local variables of one call of [_sequential_move] that its
    closure [move_next] captures: the list [pending_status], which the
    closure appends to, and [t0] and [timeout], which it only reads. *)
Record closure : Type := mk_closure {
  pending_status : list nat;
  t0 : Z;
  timeout : option Z
}.

(** The attributes of a [PseudoPositioner] instance, the closures of the
    calls of [_sequential_move] made so far (every call makes its own),
    the status objects handed out so far, the wall clock, and the trace
    of outgoing calls.  The wall clock is the sequence [clock] of the
    readings that the calls of [time.time()] in this module return, one
    after the other, of which [ticks] have been taken. *)
Record PseudoPositioner : Type := mk_PseudoPositioner {
  _concurrent : bool;
  _real : list axis;
  _pseudo : list PseudoSingle;
  _real_cur_pos : list (axis * option Z);
  _real_waiting : list axis;
  _move_queue : list (axis * Z);
  closures : list closure;
  statuses : list status;
  clock : nat -> Z;
  ticks : nat;
  trace : list event
}.

Definition set_pseudo (v : list PseudoSingle) (self : PseudoPositioner) :=
  mk_PseudoPositioner (_concurrent self) (_real self) v (_real_cur_pos self)
    (_real_waiting self) (_move_queue self) (closures self) (statuses self)
    (clock self) (ticks self) (trace self).

Definition set_real_cur_pos (v : list (axis * option Z)) (self : PseudoPositioner) :=
  mk_PseudoPositioner (_concurrent self) (_real self) (_pseudo self) v
    (_real_waiting self) (_move_queue self) (closures self) (statuses self)
    (clock self) (ticks self) (trace self).

Definition set_real_waiting (v : list axis) (self : PseudoPositioner) :=
  mk_PseudoPositioner (_concurrent self) (_real self) (_pseudo self)
    (_real_cur_pos self) v (_move_queue self) (closures self) (statuses self)
    (clock self) (ticks self) (trace self).

Definition set_move_queue (v : list (axis * Z)) (self : PseudoPositioner) :=
  mk_PseudoPositioner (_concurrent self) (_real self) (_pseudo self)
    (_real_cur_pos self) (_real_waiting self) v (closures self) (statuses self)
    (clock self) (ticks self) (trace self).

Definition set_closures (v : list closure) (self : PseudoPositioner) :=
  mk_PseudoPositioner (_concurrent self) (_real self) (_pseudo self)
    (_real_cur_pos self) (_real_waiting self) (_move_queue self) v
    (statuses self) (clock self) (ticks self) (trace self).

Definition set_statuses (v : list status) (self : PseudoPositioner) :=
  mk_PseudoPositioner (_concurrent self) (_real self) (_pseudo self)
    (_real_cur_pos self) (_real_waiting self) (_move_queue self)
    (closures self) v (clock self) (ticks self) (trace self).

Definition set_ticks (v : nat) (self : PseudoPositioner) :=
  mk_PseudoPositioner (_concurrent self) (_real self) (_pseudo self)
    (_real_cur_pos self) (_real_waiting self) (_move_queue self)
    (closures self) (statuses self) (clock self) v (trace self).

Definition emit (e : event) (self : PseudoPositioner) :=
  mk_PseudoPositioner (_concurrent self) (_real self) (_pseudo self)
    (_real_cur_pos self) (_real_waiting self) (_move_queue self)
    (closures self) (statuses self) (clock self) (ticks self)
    (trace self ++ [e]).

(** [time.time()]: the next reading of the wall clock. *)
Definition time_time (self : PseudoPositioner) : Z * PseudoPositioner :=
  (clock self (ticks self), set_ticks (S (ticks self)) self).

(** ** The orchestrator: what the constructor uses *)

(** [d[key] = value] on an [OrderedDict]: an existing key keeps its
    place, a new key goes to the end. *)
Fixpoint dict_set {V} (key : axis) (value : V) (d : list (axis * V))
  : list (axis * V) :=
  match d with
  | [] => [(key, value)]
  | (k, v) :: rest =>
      if bool_decide (k = key) then (k, value) :: rest
      else (k, v) :: dict_set key value rest
  end.

(** [OrderedDict((real, None) for real in self._real)] *)
Definition fresh_cache (real : list axis) : list (axis * option Z) :=
  foldl (fun d r => dict_set r None d) [] real.

(** [for idx, pseudo in enumerate(self._pseudo): pseudo._idx = idx] *)
Definition assign_idx (pseudo : list PseudoSingle) : list PseudoSingle :=
  imap (fun idx p => mk_PseudoSingle (name p) (limits p) (_target p) idx) pseudo.

Definition sequential (self : PseudoPositioner) : bool := negb (_concurrent self).

(** ** The orchestrator: position cache *)

(** [RealPosition( *self._real_cur_pos.values())] *)
Definition real_position (self : PseudoPositioner) : result (list (option Z)) :=
  let values := (_real_cur_pos self).*2 in
  if bool_decide (length values = length (_real self)) then Ok values
  else Err (TypeError_new (length (_real self)) (length values)).

(** The [position] property. *)
Definition position (c : collaborators) (self : PseudoPositioner)
  : result (list Z) :=
  real_cur_pos ← real_position self; inverse c real_cur_pos.

(** Modelled from the spec: [PositionerBase._set_position], which is not
    part of the source at hand; it publishes the new position as a
    readback-changed event. *)
Definition _set_position (pseudo_pos : list Z) (self : PseudoPositioner)
  : PseudoPositioner :=
  emit (ev_set_position pseudo_pos) self.

Definition _update_position (c : collaborators) (self : PseudoPositioner)
  : result (list Z) * PseudoPositioner :=
  match real_position self with
  | Err e => (Err e, self)
  | Ok real_cur_pos =>
      if bool_decide (None ∈ real_cur_pos) then (Err DisconnectedError, self)
      else
        match inverse c real_cur_pos with
        | Err e => (Err e, self)
        | Ok calc_pseudo_pos =>
            (Ok calc_pseudo_pos, _set_position calc_pseudo_pos self)
        end
  end.

Definition _real_pos_update (c : collaborators) (obj : axis) (value : option Z)
    (self : PseudoPositioner) : result unit * PseudoPositioner :=
  let self := set_real_cur_pos (dict_set obj value (_real_cur_pos self)) self in
  match _update_position c self with
  | (Ok _, self) => (Ok (), self)
  | (Err DisconnectedError, self) => (Ok (), self)
  | (Err e, self) => (Err e, self)
  end.

(** ** The orchestrator: the constructor *)

(** [name.startswith('_')] *)
Definition starts_with_underscore (name : string) : bool :=
  match name with
  | String a _ => bool_decide (a = "_"%char)
  | EmptyString => false
  end.

(** The second loop of [collections.namedtuple]: no field name starts
    with an underscore or repeats an earlier one. *)
Fixpoint check_field_names (seen : list string) (field_names : list string)
  : result unit :=
  match field_names with
  | [] => Ok ()
  | name :: rest =>
      if starts_with_underscore name || bool_decide (name ∈ seen)
      then Err (ValueError_namedtuple name)
      else check_field_names (name :: seen) rest
  end.

(** [collections.namedtuple(typename, field_names)] of the Python
    library, as far as it can fail on strings.  Its first loop wants the
    type name and every field name to be an identifier and no keyword;
    [legal] stands for these two tests of the language.  Its second loop
    is [check_field_names].  Each [ValueError] names the string it is
    about. *)
Definition namedtuple (legal : string -> bool) (typename : string)
    (field_names : list string) : result ntclass :=
  match filter (fun name => legal name = false) (typename :: field_names) with
  | name :: _ => Err (ValueError_namedtuple name)
  | [] =>
      _ ← check_field_names [] field_names;
      Ok (mk_ntclass typename field_names)
  end.

(** Modelled from the spec: the real axis's [subscribe] with [run=True]
    ("requesting an immediate initial callback"); its class is not part
    of the source at hand.  An axis that has a readback to report, the
    value [cached real], calls [_real_pos_update] with it before
    [subscribe] returns, and what the callback raises reaches the caller;
    an axis with nothing to report yet makes no call. *)
Definition subscribe (c : collaborators) (cached : axis -> option (option Z))
    (real : axis) (self : PseudoPositioner) : result PseudoPositioner :=
  match cached real with
  | None => Ok self
  | Some value =>
      match _real_pos_update c real value self with
      | (Ok _, self) => Ok self
      | (Err e, _) => Err e
      end
  end.

(** [for real in self._real: real.subscribe(self._real_pos_update, ...)] *)
Fixpoint subscribe_all (c : collaborators) (cached : axis -> option (option Z))
    (reals : list axis) (self : PseudoPositioner) : result PseudoPositioner :=
  match reals with
  | [] => Ok self
  | real :: rest =>
      self ← subscribe c cached real self; subscribe_all c cached rest self
  end.

(** [PseudoPositioner.__init__] of a subclass named [cls_name], from the
    point where the base class has built the components: [real] holds
    the attribute names that [_get_real_positioners] yields (a real
    positioner is told apart by it) and [pseudo] for each one that
    [_get_pseudo_positioners] yields its attribute name, the name of the
    [PseudoSingle] and its limits.  [cached] is what the real
    positioners have to report when they are subscribed to, and [clock]
    the wall clock the instance will read. *)
Definition init (legal : string -> bool) (c : collaborators)
    (cls_name : string) (concurrent : bool) (real : list axis)
    (pseudo : list (string * (string * (Z * Z))))
    (cached : axis -> option (option Z)) (clock : nat -> Z)
  : result PseudoPositioner :=
  if bool_decide (pseudo = []) || bool_decide (real = [])
  then Err ValueError_must_have_positioners
  else
    _ ← namedtuple legal (cls_name +:+ "RealPos") real;
    _ ← namedtuple legal (cls_name +:+ "PseudoPos") pseudo.*1;
    subscribe_all c cached real {|
      _concurrent := concurrent;
      _real := real;
      _pseudo := assign_idx
                   (map (fun p => mk_PseudoSingle p.2.1 p.2.2 None 0%nat) pseudo);
      _real_cur_pos := fresh_cache real;
      _real_waiting := [];
      _move_queue := [];
      closures := [];
      statuses := [];
      clock := clock;
      ticks := 0;
      trace := []
    |}.

(** ** The single pseudo axis *)

(** [PseudoSingle.position]: [self._parent.position[self._idx]] *)
Definition PseudoSingle_position (c : collaborators) (self : PseudoPositioner)
    (pseudo : PseudoSingle) : result Z :=
  pos ← position c self;
  match pos !! _idx pseudo with
  | Some v => Ok v
  | None => Err IndexError
  end.

(** [PseudoSingle.target] *)
Definition PseudoSingle_target (c : collaborators) (self : PseudoPositioner)
    (pseudo : PseudoSingle) : result Z :=
  match _target pseudo with
  | None => PseudoSingle_position c self pseudo
  | Some tgt => Ok tgt
  end.

(** Assigning [self._target] on the [i]-th pseudo axis of the parent. *)
Definition assign_target (i : nat) (v : option Z) (self : PseudoPositioner)
  : PseudoPositioner :=
  set_pseudo
    (alter (fun p => mk_PseudoSingle (name p) (limits p) v (_idx p)) i
       (_pseudo self))
    self.

(** [PseudoSingle.sync] *)
Definition PseudoSingle_sync (i : nat) (self : PseudoPositioner)
  : PseudoPositioner :=
  assign_target i None self.

(** [PseudoPositioner.target] *)
Definition target (c : collaborators) (self : PseudoPositioner)
  : result (list Z) :=
  mapM (PseudoSingle_target c self) (_pseudo self).

(** ** The orchestrator: validation *)

(** The first loop of [check_value], over [zip(self._pseudo, pseudo_pos)]. *)
Fixpoint check_pseudo_limits (pairs : list (PseudoSingle * Z)) : result unit :=
  match pairs with
  | [] => Ok ()
  | (pseudo, pos) :: rest =>
      let '(low, high) := limits pseudo in
      if (high >? low) && negb ((low <=? pos) && (pos <=? high))
      then Err (ValueError_outside_pseudo_limits (name pseudo) low pos high)
      else check_pseudo_limits rest
  end.

(** The second loop, over [zip(self._real, real_pos)]. *)
Fixpoint check_real_values (c : collaborators) (pairs : list (axis * Z))
  : result unit :=
  match pairs with
  | [] => Ok ()
  | (real, pos) :: rest =>
      _ ← real_check_value c real pos; check_real_values c rest
  end.

(** [self.PseudoPosition( *pseudo_pos)] inside [check_value], with the
    [TypeError] of a wrong arity turned into a [ValueError]. *)
Definition coerce_pseudo (self : PseudoPositioner) (pseudo_pos : list Z)
  : result (list Z) :=
  if bool_decide (length pseudo_pos = length (_pseudo self)) then Ok pseudo_pos
  else Err ValueError_not_all_required_values.

Definition check_value (c : collaborators) (self : PseudoPositioner)
    (pseudo_pos : list Z) : result unit :=
  pseudo_pos ← coerce_pseudo self pseudo_pos;
  _ ← check_pseudo_limits (zip (_pseudo self) pseudo_pos);
  real_pos ← forward c pseudo_pos;
  check_real_values c (zip (_real self) real_pos).

(** ** The orchestrator: stop *)

(** One round of the loop in [stop]: the [try] around [pos.stop()]. *)
Definition stop_one (c : collaborators) (self : PseudoPositioner) (pos : axis)
  : PseudoPositioner :=
  let self := emit (ev_real_stop pos) self in
  match real_stop c pos with
  | Ok _ => self
  | Err _ => emit (ev_logger_error "failed to stop positioner") self
  end.

(** [PseudoPositioner.stop]; [super().stop()] is the base positioner's
    bookkeeping and shows in the trace as [ev_super_stop].  *)
Definition stop (c : collaborators) (self : PseudoPositioner)
  : PseudoPositioner :=
  let self := set_move_queue [] self in
  let self := foldl (stop_one c) self (_real self) in
  emit ev_super_stop self.

(** ** The orchestrator: moving *)

(** Modelled from the spec: the real positioner's [move] (the class is not
    part of the source at hand): it takes the request and hands back a
    fresh, unfinished status object; the completion callback comes later. *)
Definition real_move (real : axis) (position : Z) (tmo : option Z)
    (moved_cb : callback) (self : PseudoPositioner) : nat * PseudoPositioner :=
  let sid := length (statuses self) in
  let self := emit (ev_real_move real position tmo moved_cb) self in
  (sid, set_statuses (statuses self ++ [mk_status real moved_cb false false]) self).

(** [PseudoPositioner._done_moving]; [super()._done_moving(success)]
    resolves the group's status and shows as [ev_super_done_moving]. *)
Definition _done_moving (ok : bool) (self : PseudoPositioner) : PseudoPositioner :=
  emit (ev_super_done_moving ok) (set_real_waiting [] self).

(** [list.remove(x)]: drops the first occurrence. *)
Fixpoint remove_first (x : axis) (l : list axis) : list axis :=
  match l with
  | [] => []
  | y :: rest => if bool_decide (y = x) then rest else y :: remove_first x rest
  end.

(** [PseudoPositioner._real_finished]; the callback receives [obj] only. *)
Definition _real_finished (obj : axis) (self : PseudoPositioner)
  : PseudoPositioner :=
  let real := obj in
  if bool_decide (real ∈ _real_waiting self) then
    let self := set_real_waiting (remove_first real (_real_waiting self)) self in
    if bool_decide (_real_waiting self = []) then _done_moving true self
    else self
  else self.

(** [status.success] of a status object. *)
Definition status_success (self : PseudoPositioner) (sid : nat) : bool :=
  match statuses self !! sid with
  | Some st => success st
  | None => false
  end.

(** [pending_status and not pending_status[-1].success], on the closure's
    own list. *)
Definition last_failed (self : PseudoPositioner) (cl : closure) : bool :=
  match last (pending_status cl) with
  | Some last_status => negb (status_success self last_status)
  | None => false
  end.

(** [sub_timeout]: what is left of [timeout] when [time.time()] reads
    [now], for a closure made at [t0]. *)
Definition sub_timeout (timeout : option Z) (t0 now : Z) : option Z :=
  let elapsed := now - t0 in
  match timeout with
  | None => None
  | Some tmo => Some (tmo - elapsed)
  end.

(** [sub_timeout is not None and sub_timeout < 0] *)
Definition exhausted (sub : option Z) : bool :=
  match sub with
  | Some r => r <? 0
  | None => false
  end.

(** [pending_status.append(status)] on the list of closure [cid]. *)
Definition append_pending (cid : nat) (st : nat) (self : PseudoPositioner)
  : PseudoPositioner :=
  set_closures
    (alter (fun cl => mk_closure (pending_status cl ++ [st]) (t0 cl) (timeout cl))
       cid (closures self))
    self.

(** The closure [move_next] made by the [cid]-th call of
    [_sequential_move].  It reads [pending_status], [t0] and [timeout]
    of its own call and pops from the one [_move_queue] of the
    orchestrator, whichever call filled it.  (A callback exists only for
    a call that was made, so the first branch is never taken.) *)
Definition move_next (cid : nat) (self : PseudoPositioner) : PseudoPositioner :=
  match closures self !! cid with
  | None => self
  | Some cl =>
      if last_failed self cl then
        _done_moving false
          (emit (ev_logger_error "Failing due to last motion") self)
      else
        match _move_queue self with
        | [] => _done_moving true self
        | (real, pos) :: rest =>
            let self := set_move_queue rest self in
            let '(now, self) := time_time self in
            let sub := sub_timeout (timeout cl) (t0 cl) now in
            if exhausted sub then
              _done_moving false (emit (ev_logger_error "Motion timeout") self)
            else
              let '(st, self) :=
                real_move real pos sub (cb_move_next cid) self in
              append_pending cid st self
        end
  end.

(** [_sequential_move]: the queue is overwritten, a new closure is made
    with an empty [pending_status], [t0] read from the clock and the
    [timeout] of this call, and [move_next()] is called once. *)
Definition _sequential_move (real_pos : list Z) (tmo : option Z)
    (self : PseudoPositioner) : PseudoPositioner :=
  let self := set_move_queue (zip (_real self) real_pos) self in
  let cid := length (closures self) in
  let '(start, self) := time_time self in
  let self := set_closures (closures self ++ [mk_closure [] start tmo]) self in
  move_next cid self.

Definition _concurrent_move (real_pos : list Z) (tmo : option Z)
    (self : PseudoPositioner) : PseudoPositioner :=
  let self := set_real_waiting (_real_waiting self ++ _real self) self in
  foldl (fun self rv => (real_move rv.1 rv.2 tmo cb_real_finished self).2)
    self (zip (_real self) real_pos).

Definition _setup_move (c : collaborators) (pos : list Z) (tmo : option Z)
    (self : PseudoPositioner) : result unit * PseudoPositioner :=
  let self := set_real_waiting [] self in
  match forward c pos with
  | Err e => (Err e, self)
  | Ok real_pos =>
      (Ok (), if sequential self then _sequential_move real_pos tmo self
              else _concurrent_move real_pos tmo self)
  end.

(** Modelled from the spec: [SoftPositioner.move], reached through
    [super().move(...)] and not part of the source at hand: it validates
    the position with [check_value] and then calls [_setup_move].  The call
    itself is noted in the trace as [ev_move]. *)
Definition move (c : collaborators) (pos : list Z) (tmo : option Z)
    (self : PseudoPositioner) : result unit * PseudoPositioner :=
  let self := emit (ev_move pos) self in
  match check_value c self pos with
  | Err e => (Err e, self)
  | Ok _ => _setup_move c pos tmo self
  end.

(** [PseudoPositioner.move_single]; [target[idx] = position] raises an
    [IndexError] out of range. *)
Definition move_single (c : collaborators) (pseudo : PseudoSingle)
    (pos : Z) (tmo : option Z) (self : PseudoPositioner)
  : result unit * PseudoPositioner :=
  let idx := _idx pseudo in
  match target c self with
  | Err e => (Err e, self)
  | Ok tgt =>
      if bool_decide (idx < length tgt)%nat
      then move c (<[idx := pos]> tgt) tmo self
      else (Err IndexError, self)
  end.

(** [PseudoSingle.move], called on the [i]-th pseudo axis of the parent. *)
Definition PseudoSingle_move (c : collaborators) (i : nat) (pos : Z)
    (tmo : option Z) (self : PseudoPositioner)
  : result unit * PseudoPositioner :=
  let self := assign_target i (Some pos) self in
  match _pseudo self !! i with
  | Some pseudo => move_single c pseudo pos tmo self
  | None => (Err IndexError, self)
  end.

(** ** The environment *)

(** What reaches the orchestrator from outside while a move is under way:
    a real positioner resolving one of the status objects it handed out,
    a readback notification, and a call of [stop()].  Time passes by
    itself: see [clock]. *)
Inductive input : Type :=
| in_finished (sid : nat) (ok : bool)
| in_readback (real : axis) (value : option Z)
| in_stop.

(** Modelled from the spec: the status object of a real positioner (the
    class is not part of the source at hand): it is resolved once, with
    success or failure, and then runs the callback bound to it with
    [obj] set to the positioner; resolving it again does nothing. *)
Definition finished (sid : nat) (ok : bool) (self : PseudoPositioner)
  : PseudoPositioner :=
  match statuses self !! sid with
  | None => self
  | Some st =>
      if st_done st then self
      else
        let st' := mk_status (st_obj st) (st_moved_cb st) true ok in
        let self := set_statuses (<[sid := st']> (statuses self)) self in
        match st_moved_cb st with
        | cb_move_next cid => move_next cid self
        | cb_real_finished => _real_finished (st_obj st) self
        end
  end.

(** One input; an exception that escapes a readback callback stays with
    the notifier. *)
Definition step (c : collaborators) (self : PseudoPositioner) (i : input)
  : PseudoPositioner :=
  match i with
  | in_finished sid ok => finished sid ok self
  | in_readback real value => (_real_pos_update c real value self).2
  | in_stop => stop c self
  end.

Definition run (c : collaborators) (self : PseudoPositioner)
    (inputs : list input) : PseudoPositioner :=
  foldl (step c) self inputs.

(** A run of readback notifications, each an axis with its new value. *)
Definition readbacks (ns : list (axis * option Z)) : list input :=
  map (fun n => in_readback n.1 n.2) ns.

(** ** Reading a trace *)

(** The real-axis moves dispatched, oldest first. *)
Definition dispatched (tr : list event) : list (axis * Z) :=
  omap (fun e => match e with
                 | ev_real_move real pos _ _ => Some (real, pos)
                 | _ => None
                 end) tr.

(** The terminal completions of the group, oldest first. *)
Definition terminal (tr : list event) : list bool :=
  omap (fun e => match e with
                 | ev_super_done_moving ok => Some ok
                 | _ => None
                 end) tr.

(** The readback-changed events published, oldest first. *)
Definition published (tr : list event) : list (list Z) :=
  omap (fun e => match e with
                 | ev_set_position p => Some p
                 | _ => None
                 end) tr.

(** Several events at once. *)
Definition emits (evs : list event) (self : PseudoPositioner) :=
  mk_PseudoPositioner (_concurrent self) (_real self) (_pseudo self)
    (_real_cur_pos self) (_real_waiting self) (_move_queue self)
    (closures self) (statuses self) (clock self) (ticks self)
    (trace self ++ evs).

(** What the loop of [stop] leaves in the trace: each real positioner is
    stopped, and a failed stop is logged. *)
Definition stop_events (c : collaborators) (reals : list axis) : list event :=
  flat_map (fun pos => ev_real_stop pos ::
                       match real_stop c pos with
                       | Ok _ => []
                       | Err _ => [ev_logger_error "failed to stop positioner"]
                       end) reals.

(** The real positioners on which [stop()] was called, oldest first. *)
Definition stopped_axes (tr : list event) : list axis :=
  omap (fun e => match e with
                 | ev_real_stop pos => Some pos
                 | _ => None
                 end) tr.

(** The status object [sid] is still unresolved. *)
Definition in_flight (self : PseudoPositioner) (sid : nat) : Prop :=
  exists st, statuses self !! sid = Some st /\ st_done st = false.

(** The timeouts handed to the real-axis moves, oldest first. *)
Definition dispatched_timeouts (tr : list event) : list (option Z) :=
  omap (fun e => match e with
                 | ev_real_move _ _ tmo _ => Some tmo
                 | _ => None
                 end) tr.

(** No real-axis move is in flight. *)
Definition idle (self : PseudoPositioner) : Prop :=
  Forall (fun st => st_done st = true) (statuses self).

(** The timeouts that a chain with timeout [tmo], made at reading [m] of
    the clock [clk], hands to its first [k] steps when nothing else
    reads the clock: step [j] takes reading [m + 1 + j]. *)
Definition step_timeouts (clk : nat -> Z) (m : nat) (tmo : option Z) (k : nat)
  : list (option Z) :=
  map (fun j => sub_timeout tmo (clk m) (clk (m + 1 + j)%nat)) (seq 0 k).

(** The state of a sequential group move that has dispatched [k] of the
    pairs [full]: it was started, as call number [cid] of
    [_sequential_move], at reading [m] of the clock [clk] with timeout
    [tmo], from an orchestrator with [n0] earlier status objects, all
    resolved, and trace [tr0]. *)
Definition seq_inv (full : list (axis * Z)) (n0 cid : nat) (clk : nat -> Z)
    (m : nat) (tmo : option Z) (tr0 : list event) (s : PseudoPositioner)
    (k : nat) : Prop :=
  (k <= length full)%nat /\
  (exists tr, trace s = tr0 ++ tr /\ dispatched tr = take k full /\
     dispatched_timeouts tr = step_timeouts clk m tmo k /\
     Forall (fun sub => match tmo, sub with
                        | None, None => True
                        | Some _, Some r => 0 <= r
                        | _, _ => False
                        end) (dispatched_timeouts tr)) /\
  closures s !! cid = Some (mk_closure (seq n0 k) (clk m) tmo) /\
  length (statuses s) = (n0 + k)%nat /\
  clock s = clk /\
  (forall i st, statuses s !! i = Some st -> (i < n0)%nat ->
                st_done st = true) /\
  (forall j st, statuses s !! (n0 + j)%nat = Some st ->
                st_moved_cb st = cb_move_next cid /\
                exists pos, full !! j = Some (st_obj st, pos)) /\
  (forall j st, statuses s !! (n0 + j)%nat = Some st -> (S j < k)%nat ->
                st_done st = true /\ success st = true) /\
  (idle s \/
   (ticks s = (m + 1 + k)%nat /\
    (_move_queue s = drop k full \/ _move_queue s = []))).

(** The cache holds one entry per real positioner, [obj] among them. *)
Definition subscribed (self : PseudoPositioner) (obj : axis) : Prop :=
  length (_real_cur_pos self) = length (_real self) /\
  obj ∈ (_real_cur_pos self).*1.

(** Every pseudo axis knows its own slot. *)
Definition indexed (self : PseudoPositioner) : Prop :=
  forall i p, _pseudo self !! i = Some p -> _idx p = i.

(** ** A sample device: two motors, one pseudo axis *)

(** The pseudo axis follows the first motor; the second one is carried
    along at a fixed offset. *)
Definition sample_forward (p : list Z) : result (list Z) :=
  match p with
  | [x] => Ok [x; x + 10]
  | _ => Err (Foreign "TypeError")
  end.

Definition sample_inverse (r : list (option Z)) : result (list Z) :=
  match r with
  | [Some x; _] => Ok [x]
  | _ => Err (Foreign "TypeError")
  end.

Definition sample_check (real : axis) (pos : Z) : result unit :=
  if (pos <? -100) || (100 <? pos) then Err (Foreign "LimitError") else Ok ().

Definition sample_stop (real : axis) : result unit :=
  if bool_decide (real = "m1") then Err (Foreign "stop failed") else Ok ().

Definition sample_collaborators : collaborators :=
  mk_collaborators sample_forward sample_inverse sample_check sample_stop.

(** Every name is taken for a legal one, no motor has reported yet, and
    the clock stands still. *)
Definition sample_device (concurrent : bool) : PseudoPositioner :=
  match init (fun _ => true) sample_collaborators "Sample" concurrent
          ["m1"; "m2"] [("px", ("px", (-5, 5)))] (fun _ => None) (fun _ => 0)
  with
  | Ok self => self
  | Err _ =>
      mk_PseudoPositioner concurrent [] [] [] [] [] [] [] (fun _ => 0) 0 []
  end.

(** ** A second sample device: two motors, two pseudo axes *)

Definition twin_forward (p : list Z) : result (list Z) :=
  match p with
  | [x; y] => Ok [x + y; x - y]
  | _ => Err (Foreign "TypeError")
  end.

Definition twin_inverse (r : list (option Z)) : result (list Z) :=
  match r with
  | [Some a; Some b] => Ok [(a + b) / 2; (a - b) / 2]
  | _ => Err (Foreign "TypeError")
  end.

Definition twin_collaborators : collaborators :=
  mk_collaborators twin_forward twin_inverse sample_check (fun _ => Ok ()).

(** A wall clock that returns the readings of a list, one per call, and
    the last of them ever after. *)
Definition clock_of (readings : list Z) (n : nat) : Z :=
  nth n readings (default 0 (last readings)).

(** The twin device in sequential mode, reading the wall clock [clk]. *)
Definition timed_device (clk : nat -> Z) : PseudoPositioner :=
  match init (fun _ => true) twin_collaborators "Twin" false
          ["m1"; "m2"] [("px", ("px", (-5, 5))); ("py", ("py", (0, 0)))]
          (fun _ => None) clk
  with
  | Ok self => self
  | Err _ => mk_PseudoPositioner false [] [] [] [] [] [] [] clk 0 []
  end.

Definition twin_device (concurrent : bool) : PseudoPositioner :=
  match init (fun _ => true) twin_collaborators "Twin" concurrent
          ["m1"; "m2"] [("px", ("px", (-5, 5))); ("py", ("py", (0, 0)))]
          (fun _ => None) (fun _ => 0)
  with
  | Ok self => self
  | Err _ =>
      mk_PseudoPositioner concurrent [] [] [] [] [] [] [] (fun _ => 0) 0 []
  end.

(** ** Words of the specification, for comparison with the code *)

(** The candidate [x] lies outside a limit pair that is in force. *)
Definition out_of_range (p : PseudoSingle) (x : Z) : Prop :=
  (limits p).1 < (limits p).2 /\ ~ ((limits p).1 <= x <= (limits p).2).

(** Some pseudo axis rejects its slot of the candidate position. *)
Definition violated (self : PseudoPositioner) (pseudo_pos : list Z) : Prop :=
  exists i p x,
    _pseudo self !! i = Some p /\ pseudo_pos !! i = Some x /\ out_of_range p x.

(** The exception is not the module's own out-of-range error. *)
Definition not_limit_error (e : exn) : Prop :=
  forall n l x h, e <> ValueError_outside_pseudo_limits n l x h.

(** ** More of [pseudopos.py] *)

(** A namedtuple instance holds one item per field of its class. *)
Definition well_formed (v : pyval) : Prop :=
  match v with
  | PyRecord c items => length items = length (_fields c)
  | _ => True
  end.

(** [position_argument_wrapper(type_)(method)]: the wrapped method parses
    its arguments with [to_position_tuple] for the position class [cls]
    picked by [type_] and calls [method(self, pos, **new_kwargs)]. *)
Definition position_argument_wrapper {A} (cls : ntclass)
    (method : pyval -> gmap string pyval -> result A)
    (args : list pyval) (kwargs : gmap string pyval) : result A :=
  match to_position_tuple cls args kwargs with
  | Err e => Err e
  | Ok (pos, new_kwargs) => method pos new_kwargs
  end.

(** [PseudoPositioner.check_single] *)
Definition check_single (c : collaborators) (self : PseudoPositioner)
    (pseudo_single : PseudoSingle) (single_pos : Z) : result unit :=
  let idx := _idx pseudo_single in
  tgt ← target c self;
  if bool_decide (idx < length tgt)%nat
  then check_value c self (<[idx := single_pos]> tgt)
  else Err IndexError.

(** What a subscriber of the parent's readback event is handed: the
    whole pseudo position, or a bare value. *)
Inductive readback_value : Type :=
| whole (pseudo_pos : list Z)
| bare (v : Z).

(** [PseudoSingle._sub_proxy_idx]: the value passed on to the axis's own
    subscribers. *)
Definition _sub_proxy_idx (pseudo : PseudoSingle) (value : readback_value)
  : result Z :=
  match value with
  | whole pseudo_pos =>
      match pseudo_pos !! _idx pseudo with
      | Some v => Ok v
      | None => Err IndexError
      end
  | bare v => Ok v
  end.

(** [PseudoPositioner.forward] and [inverse] as the base class has them. *)
Definition base_collaborators (real_check : axis -> Z -> result unit)
    (stop_real : axis -> result unit) : collaborators :=
  mk_collaborators (fun _ => Err NotImplementedError)
    (fun _ => Err NotImplementedError) real_check stop_real.

(** The pseudo axes before slot [i] accept their slots of [pseudo_pos]. *)
Definition accepted_before (self : PseudoPositioner) (pseudo_pos : list Z)
    (i : nat) : Prop :=
  forall j q y, (j < i)%nat -> _pseudo self !! j = Some q ->
                pseudo_pos !! j = Some y -> ~ out_of_range q y.

(** The completions of the first [n] status objects handed out after the
    [n0]-th, all successful, in the order of dispatch. *)
Definition all_succeed (n0 n : nat) : list input :=
  map (fun j => in_finished (n0 + j) true) (seq 0 n).

(** The trace of real-axis moves without timeout for the pairs [pairs]. *)
Definition moves_of (cb : callback) (tmo : option Z) (pairs : list (axis * Z))
  : list event :=
  map (fun rp => ev_real_move rp.1 rp.2 tmo cb) pairs.

(** ** [utils/epics_pvs.py]: record and field names *)

(** [pv.rsplit('.', 1)] when it finds a dot: the text before and after
    the last dot. *)
Fixpoint rsplit_dot (pv : list ascii) : option (list ascii * list ascii) :=
  match pv with
  | [] => None
  | ch :: rest =>
      match rsplit_dot rest with
      | Some (record, field) => Some (ch :: record, field)
      | None => if bool_decide (ch = "."%char) then Some ([], rest) else None
      end
  end.

Definition split_record_field (pv : list ascii) : list ascii * list ascii :=
  if bool_decide ("."%char ∈ pv) then
    match rsplit_dot pv with
    | Some (record, field) => (record, field)
    | None => (pv, [])
    end
  else (pv, []).

Definition strip_field (pv : list ascii) : list ascii :=
  (split_record_field pv).1.

(** [record_field]; [upper] stands for [str.upper]. *)
Definition record_field (upper : list ascii -> list ascii)
    (record field : list ascii) : list ascii :=
  let record := strip_field record in
  record ++ ["."%char] ++ upper field.

(** [str.upper] on the letters a to z, for concrete runs. *)
Definition ascii_upper (s : list ascii) : list ascii :=
  map (fun ch => let n := nat_of_ascii ch in
                 if bool_decide (97 <= n <= 122)%nat
                 then ascii_of_nat (n - 32) else ch) s.

(** ** [utils/epics_pvs.py]: waveforms and enums *)

(** [delim.join(parts)] *)
Fixpoint join (delim : list Z) (parts : list (list Z)) : list Z :=
  match parts with
  | [] => []
  | [p] => p
  | p :: rest => p ++ delim ++ join delim rest
  end.

(** [value[:value.index('\0')]], and [value] itself without a NUL. *)
Fixpoint cut_at_nul (value : list Z) : list Z :=
  match value with
  | [] => []
  | ch :: rest => if bool_decide (ch = 0) then [] else ch :: cut_at_nul rest
  end.

(** [waveform_to_string] on a sequence of integers, the text as code
    points; [None] is the [ValueError] of [chr] for an integer that is
    no code point. *)
Definition waveform_to_string (value : list Z) (delim : list Z)
  : option (list Z) :=
  if bool_decide (Forall (fun ch => 0 <= ch <= 1114111) value)
  then Some (cut_at_nul (join delim (map (fun ch => [ch]) value)))
  else None.

(** A value compared by [_compare_maybe_enum]: a string or an integer. *)
Inductive enum_value : Type :=
| EStr (s : string)
| EInt (i : Z).

#[global] Instance enum_value_eq_dec : EqDecision enum_value.
Proof. solve_decision. Defined.

(** [enums[i]] on a tuple: negative indices count from the end, and
    [None] is the [IndexError]. *)
Definition tuple_index (enums : list string) (i : Z) : option string :=
  let n := Z.of_nat (length enums) in
  if bool_decide (0 <= i < n) then enums !! Z.to_nat i
  else if bool_decide (- n <= i < 0) then enums !! Z.to_nat (n + i)
  else None.

(** The string an operand stands for once [enums] is not empty. *)
Definition enum_label (enums : list string) (a : enum_value) : option string :=
  match a with
  | EStr s => Some s
  | EInt i => tuple_index enums i
  end.

Definition _compare_maybe_enum (a b : enum_value) (enums : list string)
  : option bool :=
  if bool_decide (enums = []) then Some (bool_decide (a = b))
  else
    a ← enum_label enums a;
    b ← enum_label enums b;
    Some (bool_decide (a = b)).

(** Completions of the status objects after the [n0]-th, each with its
    outcome, in the order given. *)
Definition completions (n0 : nat) (order : list (nat * bool)) : list input :=
  map (fun jo => in_finished (n0 + jo.1) jo.2) order.

(** The state of a concurrent group move over [reals] once the real
    positioners [P] have completed. *)
Definition conc_inv (reals : list axis) (n0 : nat) (tr1 : list event)
    (P : list axis) (s : PseudoPositioner) : Prop :=
  _real_waiting s = filter (fun r => r ∉ P) reals /\
  (forall j r, reals !! j = Some r ->
     exists st, statuses s !! (n0 + j)%nat = Some st /\ st_obj st = r /\
                st_moved_cb st = cb_real_finished /\
                (st_done st = true <-> r ∈ P)) /\
  trace s = tr1 ++ (if bool_decide (filter (fun r => r ∉ P) reals = [])
                    then [ev_super_done_moving true] else []).

(** From its reading number [m] on, the clock never reads less than it
    did then. *)
Definition not_before (clk : nat -> Z) (m : nat) : Prop :=
  forall n, (m <= n)%nat -> clk m <= clk n.

(** What the cache holds for [real] once the constructor has subscribed
    to it: the readback it had to report, if any. *)
Definition reported (cached : axis -> option (option Z)) (real : axis)
  : option Z :=
  match cached real with
  | Some value => value
  | None => None
  end.

(** * Theorems *)

(** ** Position tuples: one record whatever the calling convention *)

Lemma position_kw_lookup (fields : list string) (vs : list pyval)
    (kwargs : gmap string pyval) :
  length vs = length fields ->
  (forall i f v, fields !! i = Some f -> vs !! i = Some v ->
                 kwargs !! f = Some v) ->
  position_kw fields kwargs = Ok vs.
Proof.
  revert vs. induction fields as [|f fields IH]; intros [|v vs] Hlen Hkw;
    simplify_eq/=; [done|].
  rewrite (Hkw 0%nat f v) by done.
  rewrite (IH vs); [done|lia|].
  intros i f' v' Hf Hv. by apply (Hkw (S i)).
Qed.

Lemma no_missing_fields (fields : list string) (kwargs : gmap string pyval) :
  (forall f, f ∈ fields -> is_Some (kwargs !! f)) ->
  filter (fun field => kwargs !! field = None) fields = [].
Proof.
  induction fields as [|f fields IH]; intros Hall; [done|].
  rewrite filter_cons_False.
  - apply IH. intros g Hg. apply Hall. by right.
  - destruct (Hall f) as [v Hv]; [by left|]. by rewrite Hv.
Qed.

Lemma named_lookup (fields : list string) (vs : list pyval)
    (others : gmap string pyval) i f v :
  NoDup fields -> length vs = length fields ->
  fields !! i = Some f -> vs !! i = Some v ->
  (list_to_map (zip fields vs) ∪ others) !! f = Some v.
Proof.
  intros Hnd Hlen Hf Hv. apply lookup_union_Some_l.
  apply elem_of_list_to_map_1.
  - rewrite fst_zip; [done|lia].
  - apply list_elem_of_lookup. exists i.
    rewrite lookup_zip_with, Hf. simpl. by rewrite Hv.
Qed.

Lemma other_kw_named (fields : list string) (vs : list pyval)
    (others : gmap string pyval) :
  length vs = length fields ->
  (forall f, f ∈ fields -> others !! f = None) ->
  filter (fun kv : string * pyval => kv.1 ∉ fields)
    (list_to_map (zip fields vs) ∪ others) = others.
Proof.
  intros Hlen Hothers. apply map_eq. intros k.
  destruct (decide (k ∈ fields)) as [Hin|Hout].
  - rewrite (Hothers k Hin). apply map_lookup_filter_None_2. right.
    intros x _ Hk. by apply Hk.
  - assert ((list_to_map (zip fields vs) ∪ others) !! k = others !! k) as Hk.
    { apply lookup_union_r. apply not_elem_of_list_to_map_1.
      rewrite fst_zip; [done|lia]. }
    destruct (others !! k) as [x|] eqn:Hx.
    + apply map_lookup_filter_Some_2; [by rewrite Hk|done].
    + apply map_lookup_filter_None_2. left. by rewrite Hk.
Qed.

Lemma scalar_not_instance (cls : ntclass) (v : pyval) :
  isinstance_Sequence v = false -> isinstance_cls v cls = false.
Proof. by destruct v. Qed.

(** C5. For a namedtuple class with at least one field, values [vs] that
    are scalars (no sequences), one per field, and options [others] that
    name no field, [to_position_tuple] returns the record [cls( *vs)] and
    exactly [others] in all three calling conventions: the values as
    positional arguments, one sequence or one instance of the class as
    the only positional argument, and the values as keyword arguments
    next to the other options. *)
Theorem to_position_tuple_conventions (cls : ntclass) (vs : list pyval)
    (others : gmap string pyval) :
  _fields cls <> [] ->
  NoDup (_fields cls) ->
  length vs = length (_fields cls) ->
  Forall (fun v => isinstance_Sequence v = false) vs ->
  (forall f, f ∈ _fields cls -> others !! f = None) ->
  to_position_tuple cls vs others = Ok (PyRecord cls vs, others) /\
  to_position_tuple cls [PySeq vs] others = Ok (PyRecord cls vs, others) /\
  to_position_tuple cls [PyRecord cls vs] others
    = Ok (PyRecord cls vs, others) /\
  to_position_tuple cls [] (list_to_map (zip (_fields cls) vs) ∪ others)
    = Ok (PyRecord cls vs, others).
Proof.
  intros Hne Hnd Hlen Hscalar Hothers. unfold to_position_tuple.
  rewrite (bool_decide_eq_false_2 _ Hne). repeat split.
  - destruct vs as [|v vs]; [by destruct (_fields cls)|].
    apply Forall_cons in Hscalar as [Hv _].
    rewrite (scalar_not_instance cls v Hv), Hv. simpl.
    rewrite (bool_decide_eq_true_2 _ Hlen). unfold new_positional.
    by rewrite (bool_decide_eq_true_2 _ Hlen).
  - simpl. unfold new_positional. simpl.
    by rewrite (bool_decide_eq_true_2 _ Hlen).
  - simpl. by rewrite !bool_decide_eq_true_2 by done.
  - destruct (_fields cls) as [|f fields] eqn:Hfields; [done|].
    destruct vs as [|v vs]; [done|].
    rewrite bool_decide_eq_false_2.
    2:{ intros Hempty.
        assert ((list_to_map (zip (f :: fields) (v :: vs)) ∪ others) !! f
                = Some v) as Hf
          by (by apply (named_lookup _ _ _ 0%nat)).
        by rewrite Hempty, lookup_empty in Hf. }
    rewrite no_missing_fields.
    2:{ intros g Hg. apply list_elem_of_lookup in Hg as [i Hi].
        destruct (lookup_lt_is_Some_2 (v :: vs) i) as [w Hw].
        { rewrite Hlen. by eapply lookup_lt_Some. }
        exists w. by eapply named_lookup. }
    rewrite bool_decide_eq_true_2 by done.
    rewrite (position_kw_lookup _ (v :: vs)); [|done|].
    2:{ intros i g w Hg Hw. by eapply named_lookup. }
    simpl. by rewrite (other_kw_named (f :: fields) (v :: vs)).
Qed.

Lemma to_position_tuple_conventions_witness :
  let cls := mk_ntclass "Tuple" ["px"; "py"; "pz"] in
  let vs := [PyNum 1; PyNum 2; PyNum 3] in
  let others : gmap string pyval := {["a" := PyNum 4]} in
  (_fields cls <> [] /\ NoDup (_fields cls) /\
   length vs = length (_fields cls) /\
   Forall (fun v => isinstance_Sequence v = false) vs /\
   (forall f, f ∈ _fields cls -> others !! f = None)) /\
  to_position_tuple cls vs others = Ok (PyRecord cls vs, others) /\
  to_position_tuple cls [PySeq vs] others = Ok (PyRecord cls vs, others) /\
  to_position_tuple cls [PyRecord cls vs] others
    = Ok (PyRecord cls vs, others) /\
  to_position_tuple cls [] (list_to_map (zip (_fields cls) vs) ∪ others)
    = Ok (PyRecord cls vs, others).
Proof.
  intros cls vs others.
  assert (_fields cls <> []) as H1 by done.
  assert (NoDup (_fields cls)) as H2
    by (apply (bool_decide_unpack _); vm_compute; reflexivity).
  assert (length vs = length (_fields cls)) as H3 by reflexivity.
  assert (Forall (fun v => isinstance_Sequence v = false) vs) as H4
    by (repeat constructor).
  assert (forall f, f ∈ _fields cls -> others !! f = None) as H5.
  { intros f Hf. apply lookup_singleton_None.
    intros <-. revert Hf. apply (bool_decide_unpack _). vm_compute.
    reflexivity. }
  split; [by repeat split|].
  exact (to_position_tuple_conventions cls vs others H1 H2 H3 H4 H5).
Defined.

(** ** Frame lemmas: what the moving machinery leaves alone *)

Lemma foldl_preserves {A B C} (f : A -> B -> A) (g : A -> C) (l : list B) a :
  (forall a b, g (f a b) = g a) -> g (foldl f a l) = g a.
Proof.
  intros Hf. revert a. induction l as [|b l IH]; intros a; simpl; [done|].
  by rewrite IH, Hf.
Qed.

Lemma move_next_pseudo cid self : _pseudo (move_next cid self) = _pseudo self.
Proof.
  unfold move_next, _done_moving, real_move, time_time, append_pending.
  repeat case_match; simplify_eq/=; done.
Qed.

Lemma _concurrent_move_pseudo real_pos tmo self :
  _pseudo (_concurrent_move real_pos tmo self) = _pseudo self.
Proof.
  unfold _concurrent_move. by rewrite foldl_preserves.
Qed.

Lemma _setup_move_pseudo c pos tmo self :
  _pseudo (_setup_move c pos tmo self).2 = _pseudo self.
Proof.
  unfold _setup_move. destruct (forward c pos); simpl; [|done].
  destruct (sequential _).
  - unfold _sequential_move, time_time. cbv zeta.
    by rewrite move_next_pseudo.
  - by rewrite _concurrent_move_pseudo.
Qed.

Lemma move_pseudo c pos tmo self :
  _pseudo (move c pos tmo self).2 = _pseudo self.
Proof.
  unfold move. destruct (check_value _ _ _); simpl; [|done].
  by rewrite _setup_move_pseudo.
Qed.

Lemma move_single_pseudo c pseudo pos tmo self :
  _pseudo (move_single c pseudo pos tmo self).2 = _pseudo self.
Proof.
  unfold move_single. destruct (target c self); simpl; [|done].
  case_bool_decide; simpl; [|done]. by rewrite move_pseudo.
Qed.

(** ** The single pseudo axis: commanded target *)

(** C10. [PseudoSingle.move(pos)] on the [i]-th pseudo axis stores [pos]
    as that axis's [_target] before it calls the group move; whatever the
    group move returns or raises, the axis's [target] afterwards is
    [pos], and after [sync()] it is the readback [position] again. *)
Theorem PseudoSingle_move_target_not_rolled_back
    (c : collaborators) (i : nat) (pos : Z) (tmo : option Z)
    (self : PseudoPositioner) (p : PseudoSingle) :
  _pseudo self !! i = Some p ->
  let after := (PseudoSingle_move c i pos tmo self).2 in
  exists p',
    _pseudo (assign_target i (Some pos) self) !! i = Some p' /\
    _pseudo after !! i = Some p' /\
    _target p' = Some pos /\
    PseudoSingle_target c after p' = Ok pos /\
    exists p'',
      _pseudo (PseudoSingle_sync i after) !! i = Some p'' /\
      _target p'' = None /\
      PseudoSingle_target c (PseudoSingle_sync i after) p''
        = PseudoSingle_position c (PseudoSingle_sync i after) p''.
Proof.
  intros Hp after.
  set (p' := mk_PseudoSingle (name p) (limits p) (Some pos) (_idx p)).
  assert (_pseudo (assign_target i (Some pos) self) !! i = Some p') as Hp'.
  { simpl. by rewrite list_lookup_alter_eq, Hp. }
  assert (_pseudo after = _pseudo (assign_target i (Some pos) self)) as Heq.
  { unfold after, PseudoSingle_move. rewrite Hp'.
    by rewrite move_single_pseudo. }
  exists p'. rewrite Heq. repeat split; [done..|].
  exists (mk_PseudoSingle (name p') (limits p') None (_idx p')).
  repeat split. simpl. rewrite list_lookup_alter_eq, Heq. simpl.
  by rewrite list_lookup_alter_eq, Hp.
Qed.

Lemma PseudoSingle_move_target_not_rolled_back_witness :
  let c := sample_collaborators in
  let self := sample_device true in
  _pseudo self !! 0%nat = Some (mk_PseudoSingle "px" (-5, 5) None 0) /\
  (PseudoSingle_move c 0 9 None self).1
    = Err (ValueError_outside_pseudo_limits "px" (-5) 9 5) /\
  let after := (PseudoSingle_move c 0 9 None self).2 in
  exists p',
    _pseudo (assign_target 0 (Some 9) self) !! 0%nat = Some p' /\
    _pseudo after !! 0%nat = Some p' /\
    _target p' = Some 9 /\
    PseudoSingle_target c after p' = Ok 9 /\
    exists p'',
      _pseudo (PseudoSingle_sync 0 after) !! 0%nat = Some p'' /\
      _target p'' = None /\
      PseudoSingle_target c (PseudoSingle_sync 0 after) p''
        = PseudoSingle_position c (PseudoSingle_sync 0 after) p''.
Proof.
  intros c self.
  split; [reflexivity|]. split; [vm_compute; reflexivity|].
  apply (PseudoSingle_move_target_not_rolled_back c 0 9 None self
           (mk_PseudoSingle "px" (-5, 5) None 0)).
  reflexivity.
Defined.

(** ** Single-axis moves: the position handed to the group move *)

Lemma mapM_result_cons {A B} (f : A -> result B) (x : A) (l : list A) :
  mapM f (x :: l)
  = match f x with
    | Err e => Err e
    | Ok y => match mapM f l with Err e => Err e | Ok k => Ok (y :: k) end
    end.
Proof. reflexivity. Qed.

Lemma mapM_result_Ok {A B} (f : A -> result B) (l : list A) (k : list B) :
  mapM f l = Ok k <-> Forall2 (fun x y => f x = Ok y) l k.
Proof.
  revert k. induction l as [|x l IH]; intros k.
  - split; [intros [= <-]; constructor|by inversion 1].
  - rewrite mapM_result_cons. split.
    + destruct (f x) as [y|e] eqn:Hfx; [|done].
      destruct (mapM f l) as [k'|e] eqn:Hl; [|done].
      intros [= <-]. constructor; [done|]. by apply IH.
    + inversion 1 as [|? y ? k' Hy Hk]; simplify_eq.
      apply IH in Hk. by rewrite Hy, Hk.
Qed.

Lemma target_slots c self tgt :
  target c self = Ok tgt ->
  length tgt = length (_pseudo self) /\
  forall j p, _pseudo self !! j = Some p ->
    exists v, tgt !! j = Some v /\ PseudoSingle_target c self p = Ok v.
Proof.
  intros Ht. apply mapM_result_Ok in Ht. split.
  - symmetry. by eapply Forall2_length.
  - intros j p Hj.
    destruct (Forall2_lookup_l _ _ _ _ _ Ht Hj) as (v & Hv & Hpv). eauto.
Qed.




(** ** Validation *)

Lemma check_pseudo_limits_Ok (pairs : list (PseudoSingle * Z)) :
  check_pseudo_limits pairs = Ok () <->
  Forall (fun px => ~ out_of_range px.1 px.2) pairs.
Proof.
  unfold out_of_range. induction pairs as [|[p x] pairs IH]; simpl.
  - split; [constructor|done].
  - rewrite Forall_cons. simpl. destruct (limits p) as [low high]; simpl.
    destruct (Z.gtb_spec high low), (Z.leb_spec low x), (Z.leb_spec x high);
      simpl; rewrite ?IH;
      first [ split; [intros Hall; split; [lia|done]|by intros [_ ?]]
            | split; [done|intros [Hnot _]; exfalso; apply Hnot; lia] ].
Qed.

Lemma check_pseudo_limits_Err (pairs : list (PseudoSingle * Z)) (e : exn) :
  check_pseudo_limits pairs = Err e ->
  exists p x, (p, x) ∈ pairs /\ out_of_range p x /\
    e = ValueError_outside_pseudo_limits (name p) (limits p).1 x (limits p).2.
Proof.
  unfold out_of_range. induction pairs as [|[p x] pairs IH]; simpl; [done|].
  destruct (limits p) as [low high] eqn:Hlim; simpl.
  destruct (Z.gtb_spec high low), (Z.leb_spec low x), (Z.leb_spec x high);
    simpl;
    first [ intros Herr; destruct (IH Herr) as (q & y & Hin & Hout & ->);
            exists q, y; split; [by right|done]
          | intros [= <-]; exists p, x; rewrite Hlim; simpl;
            split; [by left|split; [lia|done]] ].
Qed.

Lemma check_real_values_Err c (pairs : list (axis * Z)) (e : exn) :
  check_real_values c pairs = Err e ->
  exists real x, (real, x) ∈ pairs /\ real_check_value c real x = Err e.
Proof.
  induction pairs as [|[real x] pairs IH]; simpl; [done|].
  unfold mbind, result_bind.
  destruct (real_check_value c real x) as [[]|e'] eqn:Hreal.
  - intros Herr. destruct (IH Herr) as (r & y & Hin & Hry).
    exists r, y. split; [by right|done].
  - intros [= <-]. exists real, x. split; [by left|done].
Qed.

Lemma check_real_values_Ok c (pairs : list (axis * Z)) :
  check_real_values c pairs = Ok () <->
  Forall (fun rx => real_check_value c rx.1 rx.2 = Ok ()) pairs.
Proof.
  induction pairs as [|[real x] pairs IH]; simpl.
  - split; [constructor|done].
  - unfold mbind, result_bind. rewrite Forall_cons. simpl.
    destruct (real_check_value c real x) as [[]|e'].
    + rewrite IH. split; [by intros ?; split|by intros [_ ?]].
    + split; [done|]. by intros [? _].
Qed.

Lemma violated_pairs (self : PseudoPositioner) (pseudo_pos : list Z) :
  violated self pseudo_pos <->
  exists p x, (p, x) ∈ zip (_pseudo self) pseudo_pos /\ out_of_range p x.
Proof.
  unfold violated. split.
  - intros (i & p & x & Hp & Hx & Hout). exists p, x. split; [|done].
    apply list_elem_of_lookup. exists i.
    rewrite lookup_zip_with, Hp. simpl. by rewrite Hx.
  - intros (p & x & Hin & Hout).
    apply list_elem_of_lookup in Hin as [i Hi].
    apply lookup_zip_with_Some in Hi as (p' & x' & [= <- <-] & Hp & Hx).
    by exists i, p, x.
Qed.

Lemma check_value_unfold c self pseudo_pos :
  length pseudo_pos = length (_pseudo self) ->
  check_value c self pseudo_pos
  = match check_pseudo_limits (zip (_pseudo self) pseudo_pos) with
    | Err e => Err e
    | Ok _ =>
        match forward c pseudo_pos with
        | Err e => Err e
        | Ok real_pos => check_real_values c (zip (_real self) real_pos)
        end
    end.
Proof.
  intros Hlen. unfold check_value, coerce_pseudo.
  by rewrite (bool_decide_eq_true_2 _ Hlen).
Qed.

(** C6. For a candidate of the right arity, [check_value] raises the
    out-of-range error exactly when some pseudo axis has limits
    [low < high] and its slot of the candidate lies outside
    [[low, high]] (collaborators raise their own exceptions, not this
    one); an axis with [high <= low] rejects nothing.  When no pseudo
    axis objects, the result is that of [forward] followed by the real
    axes' own [check_value]: the call succeeds exactly when every real
    axis accepts its value, and an exception it raises is the one a real
    axis raised. *)
Theorem check_value_limits
    (c : collaborators) (self : PseudoPositioner) (pseudo_pos : list Z) :
  length pseudo_pos = length (_pseudo self) ->
  (forall e, forward c pseudo_pos = Err e -> not_limit_error e) ->
  (forall real x e, real_check_value c real x = Err e -> not_limit_error e) ->
  ((exists n l x h, check_value c self pseudo_pos
                    = Err (ValueError_outside_pseudo_limits n l x h))
   <-> violated self pseudo_pos) /\
  ((forall p, p ∈ _pseudo self -> (limits p).2 <= (limits p).1) ->
   ~ violated self pseudo_pos) /\
  (~ violated self pseudo_pos ->
   check_value c self pseudo_pos
   = match forward c pseudo_pos with
     | Err e => Err e
     | Ok real_pos => check_real_values c (zip (_real self) real_pos)
     end) /\
  (forall real_pos,
     ~ violated self pseudo_pos -> forward c pseudo_pos = Ok real_pos ->
     (check_value c self pseudo_pos = Ok () <->
      Forall (fun rx => real_check_value c rx.1 rx.2 = Ok ())
        (zip (_real self) real_pos)) /\
     (forall e, check_value c self pseudo_pos = Err e ->
        exists real x, (real, x) ∈ zip (_real self) real_pos /\
                       real_check_value c real x = Err e)).
Proof.
  intros Hlen Hfw Hreal. rewrite (check_value_unfold _ _ _ Hlen).
  assert (~ violated self pseudo_pos ->
          check_pseudo_limits (zip (_pseudo self) pseudo_pos) = Ok ()) as Hok.
  { intros Hnot. apply check_pseudo_limits_Ok. apply Forall_forall.
    intros [p x] Hin Hout. apply Hnot. apply violated_pairs. eauto. }
  repeat split.
  - intros (n & l & x & h & Herr).
    destruct (check_pseudo_limits _) as [[]|e] eqn:Hlim.
    + exfalso. destruct (forward c pseudo_pos) as [real_pos|e] eqn:Hf.
      * apply check_real_values_Err in Herr as (r & y & _ & Hry).
        by apply (Hreal _ _ _ Hry n l x h).
      * simplify_eq. by apply (Hfw _ eq_refl n l x h).
    + apply check_pseudo_limits_Err in Hlim as (p & y & Hin & Hout & _).
      apply violated_pairs. eauto.
  - intros Hv. destruct (check_pseudo_limits _) as [[]|e] eqn:Hlim.
    + exfalso. apply check_pseudo_limits_Ok in Hlim.
      apply violated_pairs in Hv as (p & x & Hin & Hout).
      rewrite Forall_forall in Hlim. by apply (Hlim (p, x)).
    + apply check_pseudo_limits_Err in Hlim as (p & y & _ & _ & ->). eauto.
  - intros Hall (i & p & x & Hp & _ & Hlt & _).
    apply list_elem_of_lookup_2 in Hp. specialize (Hall p Hp). lia.
  - intros Hnot. by rewrite (Hok Hnot).
  - rewrite (Hok H), H0. apply check_real_values_Ok.
  - rewrite (Hok H), H0. apply check_real_values_Ok.
  - rewrite (Hok H), H0. apply check_real_values_Err.
Qed.

Lemma check_value_limits_witness :
  let c := twin_collaborators in
  let self := twin_device true in
  (length [9; 100] = length (_pseudo self) /\
   (forall e, forward c [9; 100] = Err e -> not_limit_error e) /\
   (forall real x e, real_check_value c real x = Err e -> not_limit_error e))
  /\ violated self [9; 100]
  /\ ~ violated self [5; 100]
  /\ check_value c self [9; 100]
     = Err (ValueError_outside_pseudo_limits "px" (-5) 9 5)
  /\ check_value c self [5; 100] = Err (Foreign "LimitError").
Proof.
  intros c self.
  assert (length [9; 100] = length (_pseudo self)) as H1 by reflexivity.
  assert (forall e, forward c [9; 100] = Err e -> not_limit_error e) as H2
    by (intros e; vm_compute; discriminate).
  assert (forall real x e, real_check_value c real x = Err e ->
                           not_limit_error e) as H3.
  { intros real x e. simpl. unfold sample_check.
    destruct (_ || _); [|discriminate]. intros [= <-] n l y h. discriminate. }
  destruct (check_value_limits c self [9; 100] H1 H2 H3) as (Hiff & _).
  assert (violated self [9; 100]) as Hv.
  { apply Hiff. eexists _, _, _, _. vm_compute. reflexivity. }
  assert (~ violated self [5; 100]) as Hnv.
  { intros (i & p & x & Hp & Hx & Hlt & Hout).
    destruct i as [|[|i]]; vm_compute in Hp, Hx; simplify_eq;
      simpl in *; lia. }
  repeat split; try done; vm_compute; reflexivity.
Defined.

(** ** The position cache *)

Lemma dict_set_keys {V} (key : axis) (value : V) (d : list (axis * V)) :
  key ∈ d.*1 -> (dict_set key value d).*1 = d.*1.
Proof.
  induction d as [|[k v] d IH]; csimpl; [by intros ?%elem_of_nil|].
  case_bool_decide as Hk; csimpl; [by subst|].
  intros [?|Hin]%elem_of_cons; [by subst|]. by rewrite IH.
Qed.

Lemma dict_set_length {V} (key : axis) (value : V) (d : list (axis * V)) :
  key ∈ d.*1 -> length (dict_set key value d) = length d.
Proof.
  intros Hin.
  rewrite <-(length_fmap fst (dict_set key value d)), <-(length_fmap fst d).
  by rewrite dict_set_keys.
Qed.

Lemma known_values (l : list (option Z)) :
  None ∉ l -> exists vals, l = Some <$> vals.
Proof.
  induction l as [|[v|] l IH]; intros Hno.
  - by exists [].
  - destruct IH as [vals ->]; [by intros ?; apply Hno; right|].
    by exists (v :: vals).
  - exfalso. apply Hno. by left.
Qed.

Lemma known_values_no_None (vals : list Z) : None ∉ (Some <$> vals : list (option Z)).
Proof. by intros (v & ? & _)%list_elem_of_fmap. Qed.

(** [position] hands whatever the cache holds to [inverse]. *)
Lemma position_unguarded c self values :
  real_position self = Ok values -> position c self = inverse c values.
Proof. unfold position. by intros ->. Qed.

(** [_update_position] refuses a cache with an unknown entry and leaves
    the orchestrator as it was. *)
Lemma _update_position_disconnected c self values :
  real_position self = Ok values -> None ∈ values ->
  _update_position c self = (Err DisconnectedError, self).
Proof.
  unfold _update_position. intros -> Hin. by rewrite bool_decide_eq_true_2.
Qed.

(** C2. With the cache of the sample device holding a value for the
    first motor only, [_update_position] raises [DisconnectedError], but
    the [position] property does not: it passes the half-filled cache to
    [inverse] and returns the pseudo position computed from it. *)
Theorem position_from_partial_cache :
  let c := sample_collaborators in
  let self := run c (sample_device true) [in_readback "m1" (Some 7)] in
  real_position self = Ok [Some 7; None] /\
  (_update_position c self).1 = Err DisconnectedError /\
  position c self = Ok [7] /\
  position c self <> Err DisconnectedError.
Proof. vm_compute. by repeat split. Qed.

Lemma _real_pos_update_step c obj value self :
  subscribed self obj ->
  let after := (_real_pos_update c obj value self).2 in
  _real_cur_pos after = dict_set obj value (_real_cur_pos self) /\
  _real after = _real self /\
  (None ∈ (_real_cur_pos after).*2 ->
   (_real_pos_update c obj value self).1 = Ok () /\
   trace after = trace self) /\
  (forall vals, (_real_cur_pos after).*2 = Some <$> vals ->
     match inverse c (Some <$> vals) with
     | Ok p => trace after = trace self ++ [ev_set_position p]
     | Err _ => trace after = trace self
     end).
Proof.
  intros [Hlen Hin] after. unfold after, _real_pos_update. cbv zeta.
  set (self1 := set_real_cur_pos _ self). unfold _update_position.
  assert (real_position self1
          = Ok (dict_set obj value (_real_cur_pos self)).*2) as Hrp.
  { unfold real_position. simpl. rewrite bool_decide_eq_true_2; [done|].
    by rewrite length_fmap, dict_set_length. }
  rewrite Hrp. case_bool_decide as Hnone.
  - simpl. repeat split; try done.
    intros vals Hvals. exfalso. rewrite Hvals in Hnone.
    by apply known_values_no_None in Hnone.
  - destruct (inverse c _) as [p|e] eqn:Hinv.
    + simpl. repeat split; try done.
      intros vals Hvals. by rewrite <-Hvals, Hinv.
    + destruct e; simpl; (repeat split; try done);
        intros vals Hvals; by rewrite <-Hvals, Hinv.
Qed.

Lemma run_app c self (xs ys : list input) :
  run c self (xs ++ ys) = run c (run c self xs) ys.
Proof. apply foldl_app. Qed.

Lemma run_readbacks_keys c self (ns : list (axis * option Z)) :
  length (_real_cur_pos self) = length (_real self) ->
  Forall (fun n => n.1 ∈ (_real_cur_pos self).*1) ns ->
  (_real_cur_pos (run c self (readbacks ns))).*1 = (_real_cur_pos self).*1 /\
  _real (run c self (readbacks ns)) = _real self.
Proof.
  revert self. induction ns as [|[obj value] ns IH]; intros self Hlen Hall.
  - done.
  - apply Forall_cons in Hall as [Hobj Hall]. simpl in Hobj.
    destruct (_real_pos_update_step c obj value self) as (Hc & Hr & _);
      [by split|].
    assert ((_real_cur_pos (_real_pos_update c obj value self).2).*1
            = (_real_cur_pos self).*1) as Hkeys
      by (by rewrite Hc, dict_set_keys).
    simpl. destruct (IH (_real_pos_update c obj value self).2) as [Hk' Hr'].
    + rewrite Hr, <-Hlen, <-!(length_fmap fst). by rewrite Hkeys.
    + by rewrite Hkeys.
    + split; [by rewrite Hk', Hkeys|by rewrite Hr', Hr].
Qed.

(** C7. In any run of readback notifications from subscribed real axes,
    each notification stores the reported value in the cache.  If the
    cache then still has an unknown entry, the update returns normally
    (the disconnected condition does not escape) and the trace is
    unchanged: nothing is published.  If the cache is then fully known,
    the only event added is the readback-changed event carrying
    [inverse] of the cached real position (nothing is added when
    [inverse] itself raises). *)
Theorem readback_published_only_from_full_cache
    (c : collaborators) (self : PseudoPositioner)
    (ns : list (axis * option Z)) (k : nat) (obj : axis) (value : option Z) :
  length (_real_cur_pos self) = length (_real self) ->
  Forall (fun n => n.1 ∈ (_real_cur_pos self).*1) ns ->
  ns !! k = Some (obj, value) ->
  let before := run c self (readbacks (take k ns)) in
  let after := run c self (readbacks (take (S k) ns)) in
  _real_cur_pos after = dict_set obj value (_real_cur_pos before) /\
  (None ∈ (_real_cur_pos after).*2 ->
   (_real_pos_update c obj value before).1 = Ok () /\
   trace after = trace before) /\
  (forall vals, (_real_cur_pos after).*2 = Some <$> vals ->
     match inverse c (Some <$> vals) with
     | Ok p => trace after = trace before ++ [ev_set_position p]
     | Err _ => trace after = trace before
     end).
Proof.
  intros Hlen Hall Hk before after.
  assert (after = (_real_pos_update c obj value before).2) as ->.
  { unfold after, before, readbacks.
    rewrite (take_S_r _ _ _ Hk), map_app, run_app. done. }
  destruct (run_readbacks_keys c self (take k ns) Hlen) as [Hkeys Hreal].
  { by apply Forall_take. }
  fold before in Hkeys, Hreal.
  destruct (_real_pos_update_step c obj value before) as (H1 & _ & H2 & H3).
  - split.
    + rewrite Hreal, <-Hlen, <-!(length_fmap fst). by rewrite Hkeys.
    + rewrite Hkeys. rewrite Forall_forall in Hall.
      apply (Hall (obj, value)). by eapply list_elem_of_lookup_2.
  - done.
Qed.

Lemma readback_published_only_from_full_cache_witness :
  let c := twin_collaborators in
  let self := twin_device true in
  let ns := [("m1", Some 6); ("m2", Some 2); ("m1", Some 8)] in
  (length (_real_cur_pos self) = length (_real self) /\
   Forall (fun n => n.1 ∈ (_real_cur_pos self).*1) ns /\
   ns !! 1%nat = Some ("m2", Some 2)) /\
  published (trace (run c self (readbacks (take 1 ns)))) = [] /\
  published (trace (run c self (readbacks ns))) = [[4; 2]; [5; 3]] /\
  let before := run c self (readbacks (take 1 ns)) in
  let after := run c self (readbacks (take 2 ns)) in
  _real_cur_pos after = dict_set "m2" (Some 2) (_real_cur_pos before) /\
  (None ∈ (_real_cur_pos after).*2 ->
   (_real_pos_update c "m2" (Some 2) before).1 = Ok () /\
   trace after = trace before) /\
  (forall vals, (_real_cur_pos after).*2 = Some <$> vals ->
     match inverse c (Some <$> vals) with
     | Ok p => trace after = trace before ++ [ev_set_position p]
     | Err _ => trace after = trace before
     end).
Proof.
  intros c self ns.
  assert (length (_real_cur_pos self) = length (_real self)) as H1
    by reflexivity.
  assert (Forall (fun n => n.1 ∈ (_real_cur_pos self).*1) ns) as H2.
  { repeat constructor; apply (bool_decide_unpack _); vm_compute;
      reflexivity. }
  assert (ns !! 1%nat = Some ("m2", Some 2)) as H3 by reflexivity.
  split; [by repeat split|].
  split; [vm_compute; reflexivity|]. split; [vm_compute; reflexivity|].
  exact (readback_published_only_from_full_cache c self ns 1 "m2" (Some 2)
           H1 H2 H3).
Defined.

(** ** Traces of the inputs that dispatch nothing *)

Lemma dispatched_app (a b : list event) :
  dispatched (a ++ b) = dispatched a ++ dispatched b.
Proof. apply omap_app. Qed.

Lemma dispatched_timeouts_app (a b : list event) :
  dispatched_timeouts (a ++ b) = dispatched_timeouts a ++ dispatched_timeouts b.
Proof. apply omap_app. Qed.

Lemma terminal_app (a b : list event) :
  terminal (a ++ b) = terminal a ++ terminal b.
Proof. apply omap_app. Qed.

Lemma emits_nil s : emits [] s = s.
Proof. destruct s. unfold emits. simpl. by rewrite app_nil_r. Qed.

Lemma emits_emits evs evs' s : emits evs' (emits evs s) = emits (evs ++ evs') s.
Proof. unfold emits. simpl. by rewrite app_assoc. Qed.

Lemma emit_emits e s : emit e s = emits [e] s.
Proof. done. Qed.

Lemma stop_reals_emits c (reals : list axis) s :
  foldl (stop_one c) s reals = emits (stop_events c reals) s.
Proof.
  revert s. induction reals as [|pos reals IH]; intros s; simpl.
  - by rewrite emits_nil.
  - rewrite IH. unfold stop_one.
    destruct (real_stop c pos); rewrite !emit_emits, !emits_emits;
      by rewrite <-?app_assoc.
Qed.

Lemma stop_emits c s :
  stop c s
  = emits (stop_events c (_real s) ++ [ev_super_stop]) (set_move_queue [] s).
Proof.
  unfold stop. cbv zeta. rewrite stop_reals_emits, emit_emits.
  by rewrite emits_emits.
Qed.

Lemma stop_events_dispatch_nothing c (reals : list axis) :
  dispatched (stop_events c reals) = [] /\
  dispatched_timeouts (stop_events c reals) = [] /\
  terminal (stop_events c reals) = [].
Proof.
  induction reals as [|pos reals (IH1 & IH2 & IH3)]; [done|].
  change (stop_events c (pos :: reals))
    with (([ev_real_stop pos] ++
           match real_stop c pos with
           | Ok _ => []
           | Err _ => [ev_logger_error "failed to stop positioner"]
           end) ++ stop_events c reals).
  rewrite dispatched_app, dispatched_timeouts_app, terminal_app, IH1, IH2, IH3.
  by destruct (real_stop c pos).
Qed.

Lemma _real_pos_update_emits c obj value s :
  exists tr, (tr = [] \/ exists p, tr = [ev_set_position p]) /\
    (_real_pos_update c obj value s).2
    = emits tr (set_real_cur_pos (dict_set obj value (_real_cur_pos s)) s).
Proof.
  unfold _real_pos_update. cbv zeta.
  set (s1 := set_real_cur_pos _ s). unfold _update_position.
  destruct (real_position s1) as [vals|e].
  - case_bool_decide.
    + exists []. rewrite emits_nil. by split; [left|].
    + destruct (inverse c vals) as [p|e].
      * exists [ev_set_position p]. split; [right; by exists p|done].
      * exists []. rewrite emits_nil. split; [by left|]. by destruct e.
  - exists []. rewrite emits_nil. split; [by left|]. by destruct e.
Qed.

(** Every input but the resolution of a status object leaves the status
    objects, the closures and the clock alone, may empty the queue, and adds to the
    trace neither a real-axis move nor a terminal completion. *)
Lemma step_quiet c s (i : input) :
  (forall sid ok, i <> in_finished sid ok) ->
  exists tr,
    trace (step c s i) = trace s ++ tr /\
    dispatched tr = [] /\ dispatched_timeouts tr = [] /\ terminal tr = [] /\
    statuses (step c s i) = statuses s /\
    closures (step c s i) = closures s /\
    clock (step c s i) = clock s /\ ticks (step c s i) = ticks s /\
    _real_waiting (step c s i) = _real_waiting s /\
    (_move_queue (step c s i) = _move_queue s \/ _move_queue (step c s i) = []).
Proof.
  intros Hi. destruct i as [sid ok|real value|]; cbn [step].
  - by destruct (Hi sid ok).
  - destruct (_real_pos_update_emits c real value s) as (tr & Htr & ->).
    exists tr. simpl.
    destruct Htr as [->|[p ->]]; repeat split; by left.
  - rewrite stop_emits. eexists. simpl. split; [done|].
    destruct (stop_events_dispatch_nothing c (_real s)) as (H1 & H2 & H3).
    rewrite dispatched_app, dispatched_timeouts_app, terminal_app, H1, H2, H3.
    repeat split; by right.
Qed.

Lemma finished_not_in_flight sid ok s :
  ~ in_flight s sid -> finished sid ok s = s.
Proof.
  unfold finished, in_flight. intros Hno.
  destruct (statuses s !! sid) as [st|] eqn:Hst; [|done].
  destruct (st_done st) eqn:Hd; [done|]. exfalso. apply Hno. eauto.
Qed.

Lemma idle_not_in_flight s sid : idle s -> ~ in_flight s sid.
Proof.
  unfold idle. rewrite Forall_lookup. intros Hidle (st & Hst & Hd).
  by rewrite (Hidle _ _ Hst) in Hd.
Qed.

Lemma input_cases (i : input) :
  (exists sid ok, i = in_finished sid ok) \/
  (forall sid ok, i <> in_finished sid ok).
Proof. destruct i; eauto. Qed.

(** With no move in flight, no input makes the orchestrator dispatch. *)
Lemma idle_run c s (inputs : list input) :
  idle s ->
  idle (run c s inputs) /\
  dispatched (trace (run c s inputs)) = dispatched (trace s) /\
  terminal (trace (run c s inputs)) = terminal (trace s).
Proof.
  revert s. induction inputs as [|i inputs IH]; intros s Hidle; [done|].
  simpl. assert (idle (step c s i) /\
                 dispatched (trace (step c s i)) = dispatched (trace s) /\
                 terminal (trace (step c s i)) = terminal (trace s))
    as (Hidle' & Hd & Ht).
  { destruct (input_cases i) as [(sid & ok & ->)|Hno].
    - simpl. rewrite finished_not_in_flight; [done|].
      by apply idle_not_in_flight.
    - destruct (step_quiet c s i Hno) as (tr & Htr & H1 & _ & H3 & Hst & _).
      unfold idle. rewrite Hst, Htr, dispatched_app, terminal_app, H1, H3.
      by rewrite !app_nil_r. }
  destruct (IH _ Hidle') as (? & Hd' & Ht').
  by rewrite Hd', Ht'.
Qed.


(** ** Stop *)

Lemma move_next_empty_queue cid s :
  _move_queue s = [] ->
  _move_queue (move_next cid s) = [] /\
  dispatched (trace (move_next cid s)) = dispatched (trace s).
Proof.
  intros Hq. unfold move_next. rewrite Hq.
  destruct (closures s !! cid) as [cl|]; [|done].
  destruct (last_failed s cl); simpl; rewrite ?dispatched_app; simpl;
    by rewrite ?app_nil_r.
Qed.

Lemma _real_finished_dispatches_nothing obj s :
  _move_queue (_real_finished obj s) = _move_queue s /\
  dispatched (trace (_real_finished obj s)) = dispatched (trace s).
Proof.
  unfold _real_finished. cbv zeta. repeat case_bool_decide; simpl;
    rewrite ?dispatched_app; simpl; by rewrite ?app_nil_r.
Qed.

Lemma empty_queue_step c s (i : input) :
  _move_queue s = [] ->
  _move_queue (step c s i) = [] /\
  dispatched (trace (step c s i)) = dispatched (trace s).
Proof.
  intros Hq. destruct (input_cases i) as [(sid & ok & ->)|Hno].
  - cbn [step]. unfold finished.
    destruct (statuses s !! sid) as [st|]; [|done].
    destruct (st_done st); [done|]. cbv zeta.
    destruct (st_moved_cb st) as [cid|].
    + exact (move_next_empty_queue cid (set_statuses _ s) Hq).
    + destruct (_real_finished_dispatches_nothing (st_obj st)
                  (set_statuses
                     (<[sid:=mk_status (st_obj st) cb_real_finished true ok]>
                        (statuses s)) s)) as [H1 H2].
      by rewrite H1, H2.
  - destruct (step_quiet c s i Hno) as (tr & Htr & H1 & _ & _ & _ & _ & _ & _
                                        & _ & Hqueue).
    rewrite Htr, dispatched_app, H1, app_nil_r.
    split; [|done]. destruct Hqueue as [Hsame|Hnil]; [by rewrite Hsame|done].
Qed.

Lemma empty_queue_run c s (inputs : list input) :
  _move_queue s = [] ->
  dispatched (trace (run c s inputs)) = dispatched (trace s).
Proof.
  revert s. induction inputs as [|i inputs IH]; intros s Hq; [done|].
  destruct (empty_queue_step c s i Hq) as [Hq' Hd].
  simpl. by rewrite (IH _ Hq'), Hd.
Qed.

Lemma stopped_axes_stop_events c (reals : list axis) :
  stopped_axes (stop_events c reals) = reals.
Proof.
  induction reals as [|pos reals IH]; [done|].
  change (stop_events c (pos :: reals))
    with (([ev_real_stop pos] ++
           match real_stop c pos with
           | Ok _ => []
           | Err _ => [ev_logger_error "failed to stop positioner"]
           end) ++ stop_events c reals).
  unfold stopped_axes in *. rewrite !omap_app, IH.
  by destruct (real_stop c pos).
Qed.

(** C8. [stop()] empties the move queue before it stops the first real
    positioner, and the queue stays empty through the loop; it then
    calls [stop()] on every real positioner in turn, logging the ones
    that raise and going on, and ends with the base class's stop; it
    raises nothing itself.  After it, whatever completions and readbacks
    arrive and whatever the clock reads, no further real-axis move is
    dispatched. *)
Theorem stop_discards_queue
    (c : collaborators) (self : PseudoPositioner) (inputs : list input) :
  (forall k, _move_queue (foldl (stop_one c) (set_move_queue [] self)
                            (take k (_real self))) = []) /\
  trace (stop c self)
    = trace self ++ stop_events c (_real self) ++ [ev_super_stop] /\
  stopped_axes (stop_events c (_real self)) = _real self /\
  _move_queue (stop c self) = [] /\
  dispatched (trace (stop c self)) = dispatched (trace self) /\
  dispatched (trace (run c (stop c self) inputs)) = dispatched (trace self).
Proof.
  assert (dispatched (trace (stop c self)) = dispatched (trace self)) as Hd.
  { rewrite stop_emits. simpl. rewrite !dispatched_app.
    destruct (stop_events_dispatch_nothing c (_real self)) as (-> & _).
    by rewrite app_nil_r. }
  repeat split.
  - intros k. by rewrite stop_reals_emits.
  - by rewrite stop_emits.
  - apply stopped_axes_stop_events.
  - by rewrite stop_emits.
  - done.
  - rewrite empty_queue_run; [done|]. by rewrite stop_emits.
Qed.

(** ** Sequential moves *)

Lemma seq_inv_in_flight full n0 cid clk m tmo tr0 s k sid :
  seq_inv full n0 cid clk m tmo tr0 s k -> in_flight s sid ->
  (0 < k)%nat /\ sid = (n0 + (k - 1))%nat /\
  ticks s = (m + 1 + k)%nat /\
  (_move_queue s = drop k full \/ _move_queue s = []).
Proof.
  intros (Hk & Htr & Hcl & Hlen & Hclk & Hold & Hnew & Hdone & Hq)
         (st & Hst & Hd).
  assert (sid < n0 + k)%nat by (apply lookup_lt_Some in Hst; lia).
  assert (~ (sid < n0)%nat)
    by (intros Hlt; by rewrite (Hold _ _ Hst Hlt) in Hd).
  assert (sid = n0 + (sid - n0))%nat as Hsid by lia.
  assert (~ (S (sid - n0) < k)%nat).
  { intros Hlt. rewrite Hsid in Hst.
    destruct (Hdone _ _ Hst Hlt) as [Hd' _]. congruence. }
  split; [lia|]. split; [lia|].
  destruct Hq as [Hall|Hq]; [|done]. exfalso.
  unfold idle in Hall. rewrite Forall_lookup in Hall.
  by rewrite (Hall _ _ Hst) in Hd.
Qed.

Lemma seq_inv_resolved full n0 cid clk m tmo tr0 s k sid st ok :
  seq_inv full n0 cid clk m tmo tr0 s k ->
  statuses s !! sid = Some st -> st_done st = false ->
  let l1 := <[sid := mk_status (st_obj st) (st_moved_cb st) true ok]>
              (statuses s) in
  length l1 = (n0 + k)%nat /\
  (forall i st', l1 !! i = Some st' -> (i < n0)%nat -> st_done st' = true) /\
  (forall j st', l1 !! (n0 + j)%nat = Some st' ->
     st_moved_cb st' = cb_move_next cid /\
     exists pos, full !! j = Some (st_obj st', pos)) /\
  (forall j st', l1 !! (n0 + j)%nat = Some st' -> (S j < k)%nat ->
     st_done st' = true /\ success st' = true) /\
  (forall j st', l1 !! (n0 + j)%nat = Some st' -> (S j < S k)%nat ->
     st_done st' = true /\ (ok = true -> success st' = true)) /\
  Forall (fun st' => st_done st' = true) l1 /\
  l1 !! sid = Some (mk_status (st_obj st) (cb_move_next cid) true ok).
Proof.
  intros Hinv Hst Hd l1.
  destruct (seq_inv_in_flight _ _ _ _ _ _ _ _ _ sid Hinv) as (Hk0 & Hsid & _);
    [by exists st|].
  destruct Hinv as (Hk & Htr & Hcl & Hlen & Hclk & Hold & Hnew & Hdone & Hq).
  assert (sid < length (statuses s))%nat as Hlt by by eapply lookup_lt_Some.
  assert (forall i st', l1 !! i = Some st' -> i <> sid ->
                        statuses s !! i = Some st') as Hne.
  { intros i st' Hi Hne. unfold l1 in Hi.
    by rewrite list_lookup_insert_ne in Hi. }
  assert (forall st', l1 !! sid = Some st' ->
            st' = mk_status (st_obj st) (st_moved_cb st) true ok) as Heq.
  { intros st' Hi. unfold l1 in Hi.
    rewrite list_lookup_insert_eq in Hi by done. congruence. }
  assert (st_moved_cb st = cb_move_next cid) as Hcb.
  { rewrite Hsid in Hst. by destruct (Hnew _ _ Hst). }
  split_and!.
  - unfold l1. by rewrite length_insert.
  - intros i st' Hi Hlt'. apply (Hold i); [|done]. apply Hne; [done|lia].
  - intros j st' Hj. destruct (decide (n0 + j = sid)%nat) as [Hj'|Hj'].
    + rewrite Hj' in Hj. apply Heq in Hj as ->. simpl.
      rewrite <-Hj' in Hst. by destruct (Hnew j st Hst).
    + by destruct (Hnew j st' (Hne _ _ Hj Hj')).
  - intros j st' Hj Hlt'. apply (Hdone j); [|done]. apply Hne; [done|lia].
  - intros j st' Hj Hlt'. destruct (decide (n0 + j = sid)%nat) as [Hj'|Hj'].
    + rewrite Hj' in Hj. apply Heq in Hj as ->. by split.
    + destruct (Hdone j st'); [by apply Hne|lia|]. by split.
  - apply Forall_lookup. intros i st' Hi.
    destruct (decide (i = sid)) as [->|Hi'].
    + by apply Heq in Hi as ->.
    + destruct (decide (i < n0)%nat) as [Hlt'|Hge].
      * apply (Hold i); [by apply Hne|done].
      * assert (i < n0 + k)%nat.
        { apply lookup_lt_Some in Hi. unfold l1 in Hi.
          rewrite length_insert in Hi. lia. }
        replace i with (n0 + (i - n0))%nat in Hi, Hi' by lia.
        apply (Hdone (i - n0)%nat); [by apply Hne|lia].
  - unfold l1. rewrite list_lookup_insert_eq by done. by rewrite Hcb.
Qed.

Lemma last_seq (n0 k : nat) : (0 < k)%nat -> last (seq n0 k) = Some (n0 + (k - 1))%nat.
Proof.
  destruct k as [|k]; [lia|]. intros _. rewrite seq_S, last_snoc.
  f_equal. lia.
Qed.

Lemma step_timeouts_S clk m tmo k :
  step_timeouts clk m tmo (S k)
  = step_timeouts clk m tmo k
    ++ [sub_timeout tmo (clk m) (clk (m + 1 + k)%nat)].
Proof. unfold step_timeouts. by rewrite seq_S, map_app. Qed.

(** What the resolution of the step in flight does to a chain. *)
Lemma seq_inv_finished full n0 cid clk m tmo tr0 s k sid ok :
  seq_inv full n0 cid clk m tmo tr0 s k -> in_flight s sid ->
  let s' := finished sid ok s in
  let sub := sub_timeout tmo (clk m) (clk (m + 1 + k)%nat) in
  match ok, _move_queue s with
  | false, _ =>
      trace s' = trace s ++ [ev_logger_error "Failing due to last motion";
                             ev_super_done_moving false] /\
      idle s' /\ seq_inv full n0 cid clk m tmo tr0 s' k
  | true, [] =>
      trace s' = trace s ++ [ev_super_done_moving true] /\
      idle s' /\ seq_inv full n0 cid clk m tmo tr0 s' k
  | true, (real, pos) :: rest =>
      if exhausted sub
      then trace s' = trace s ++ [ev_logger_error "Motion timeout";
                                  ev_super_done_moving false] /\
           idle s' /\ seq_inv full n0 cid clk m tmo tr0 s' k
      else trace s' = trace s ++ [ev_real_move real pos sub (cb_move_next cid)]
           /\ in_flight s' (n0 + k)%nat
           /\ _move_queue s' = rest
           /\ seq_inv full n0 cid clk m tmo tr0 s' (S k)
  end.
Proof.
  intros Hinv Hfl s' sub.
  destruct (seq_inv_in_flight _ _ _ _ _ _ _ _ _ _ Hinv Hfl)
    as (Hk0 & Hsid & Hticks & Hq).
  destruct Hfl as (st & Hst & Hd).
  destruct (seq_inv_resolved _ _ _ _ _ _ _ _ _ _ _ ok Hinv Hst Hd)
    as (Hlen1 & Hold1 & Hnew1 & Hdone1 & Hdone1' & Hidle1 & Hsid1).
  destruct Hinv as (Hk & (tr & Htr & Hdisp & Hexact & Htmos) & Hcl & Hlen
                    & Hclk & Hold & Hnew & Hdone & _).
  assert (st_moved_cb st = cb_move_next cid) as Hcb.
  { rewrite Hsid in Hst. by destruct (Hnew _ _ Hst). }
  set (l1 := <[sid := _]> (statuses s)) in *.
  set (s1 := set_statuses l1 s).
  assert (s' = move_next cid s1) as Hs'.
  { unfold s', finished. rewrite Hst, Hd. cbv zeta. fold l1. fold s1.
    by rewrite Hcb. }
  set (cl := mk_closure (seq n0 k) (clk m) tmo) in *.
  assert (last_failed s1 cl = negb ok) as Hlf.
  { unfold last_failed, status_success. simpl.
    rewrite (last_seq _ _ Hk0), <-Hsid. by rewrite Hsid1. }
  assert (forall evs s2,
            statuses s2 = l1 -> trace s2 = trace s ++ evs ->
            dispatched evs = [] -> dispatched_timeouts evs = [] ->
            closures s2 = closures s -> clock s2 = clock s ->
            trace s2 = trace s ++ evs /\ idle s2 /\
            seq_inv full n0 cid clk m tmo tr0 s2 k) as Hdead.
  { intros evs s2 E1 E2 E3 E4 E5 E6. split; [done|].
    assert (idle s2) as Hidle2 by (unfold idle; by rewrite E1).
    split; [done|].
    unfold seq_inv. rewrite E1, E5, E6. split_and!; try done.
    + exists (tr ++ evs). rewrite E2, Htr, dispatched_app,
        dispatched_timeouts_app, E3, E4, !app_nil_r, app_assoc. done.
    + by left. }
  rewrite Hs'. unfold move_next.
  change (closures s1) with (closures s). rewrite Hcl, Hlf.
  change (_move_queue s1) with (_move_queue s).
  destruct ok; simpl negb; cbv iota.
  2:{ apply (Hdead [ev_logger_error "Failing due to last motion";
                     ev_super_done_moving false]);
        [done|simpl; by rewrite <-app_assoc|done..]. }
  destruct (_move_queue s) as [|[real pos] rest] eqn:Hqueue.
  { by apply (Hdead [ev_super_done_moving true]). }
  unfold time_time. cbv zeta. cbn [fst snd].
  change (clock (set_move_queue rest s1)) with (clock s).
  change (ticks (set_move_queue rest s1)) with (ticks s).
  rewrite Hclk, Hticks. change (timeout cl) with tmo.
  change (t0 cl) with (clk m). fold sub.
  destruct (exhausted sub) eqn:Hex.
  { apply (Hdead [ev_logger_error "Motion timeout";
                  ev_super_done_moving false]);
      [done|simpl; by rewrite <-app_assoc|done..]. }
  assert (full !! k = Some (real, pos) /\ rest = drop (S k) full)
    as [Hfullk Hrest].
  { destruct Hq as [Hq|Hq]; [|done].
    assert (full !! k = Some (real, pos)) as Hfk.
    { rewrite <-(Nat.add_0_r k), <-lookup_drop, <-Hq. done. }
    split; [done|]. rewrite (drop_S _ _ _ Hfk) in Hq. congruence. }
  unfold real_move, append_pending. cbv zeta. cbn [fst snd].
  set (new := mk_status real (cb_move_next cid) false false).
  split; [by simpl|]. split.
  - exists new. split; [|done]. simpl.
    apply list_lookup_middle. by rewrite Hlen1.
  - split; [done|]. unfold seq_inv. simpl. split_and!.
    + apply lookup_lt_Some in Hfullk. lia.
    + exists (tr ++ [ev_real_move real pos sub (cb_move_next cid)]).
      rewrite Htr, dispatched_app, dispatched_timeouts_app, Hdisp, Hexact.
      split_and!.
      * by rewrite app_assoc.
      * simpl. by rewrite (take_S_r _ _ _ Hfullk).
      * by rewrite step_timeouts_S.
      * apply Forall_app. split; [by rewrite <-Hexact|]. simpl.
        constructor; [|done].
        unfold sub, sub_timeout, exhausted in *.
        destruct tmo; [|done]. by apply Z.ltb_ge.
    + rewrite list_lookup_alter_eq, Hcl. simpl. f_equal. f_equal.
      rewrite cons_seq, seq_S. by rewrite Hlen1.
    + rewrite length_app, Hlen1. simpl. lia.
    + done.
    + intros i st' Hi Hlt. apply (Hold1 i); [|done].
      rewrite lookup_app_l in Hi; [done|lia].
    + intros j st' Hj. destruct (decide (j < k)%nat) as [Hlt|Hge].
      * apply Hnew1. rewrite lookup_app_l in Hj; [done|lia].
      * assert (j = k) as ->.
        { apply lookup_lt_Some in Hj. rewrite length_app, Hlen1 in Hj.
          simpl in Hj. lia. }
        rewrite list_lookup_middle in Hj by (by rewrite Hlen1).
        simplify_eq. simpl. eauto.
    + intros j st' Hj Hlt.
      rewrite lookup_app_l in Hj by lia.
      destruct (Hdone1' j st' Hj) as [? Hs]; [lia|]. split; [done|].
      by apply Hs.
    + right. split; [lia|]. by left.
Qed.

Lemma seq_inv_quiet c full n0 cid clk m tmo tr0 s k (i : input) :
  seq_inv full n0 cid clk m tmo tr0 s k ->
  (forall sid ok, i <> in_finished sid ok) ->
  seq_inv full n0 cid clk m tmo tr0 (step c s i) k.
Proof.
  intros (Hk & (tr & Htr & Hdisp & Hexact & Htmos) & Hcl & Hlen & Hclk
          & Hold & Hnew & Hdone & Hq) Hi.
  destruct (step_quiet c s i Hi)
    as (evs & E1 & E2 & E3 & _ & E4 & E5 & E6 & E7 & _ & E8).
  unfold seq_inv, idle. rewrite E4, E5, E6, E7. split_and!; try done.
  - exists (tr ++ evs).
    rewrite E1, Htr, dispatched_app, dispatched_timeouts_app, E2, E3,
      !app_nil_r, app_assoc. done.
  - destruct Hq as [Hq|[Ht [Hq|Hq]]]; [by left|..]; right; (split; [done|]);
      (destruct E8 as [E8|E8]; [rewrite E8; by eauto|by right]).
Qed.

(** A group move started with no earlier status object unresolved. *)
Lemma seq_inv_start self real_pos tmo :
  idle self ->
  exists k,
    seq_inv (zip (_real self) real_pos) (length (statuses self))
      (length (closures self)) (clock self) (ticks self) tmo (trace self)
      (_sequential_move real_pos tmo self) k.
Proof.
  intros Hidle.
  set (full := zip (_real self) real_pos).
  set (cid := length (closures self)).
  set (clk := clock self). set (m := ticks self).
  set (cl := mk_closure [] (clk m) tmo).
  set (s0 := set_closures (closures self ++ [cl])
               (set_ticks (S m) (set_move_queue full self))).
  change (_sequential_move real_pos tmo self) with (move_next cid s0).
  assert (closures s0 !! cid = Some cl) as Hcl
    by (by apply list_lookup_middle).
  assert (forall evs,
            dispatched evs = [] -> dispatched_timeouts evs = [] ->
            forall s2, statuses s2 = statuses self ->
              trace s2 = trace self ++ evs -> closures s2 = closures s0 ->
              clock s2 = clk ->
              seq_inv full (length (statuses self)) cid clk m tmo
                (trace self) s2 0) as Hdead.
  { intros evs E1 E2 s2 E3 E4 E5 E6. unfold seq_inv, idle.
    rewrite E3, E5, E6. split_and!.
    - lia.
    - exists evs. by rewrite E1, E2.
    - done.
    - lia.
    - done.
    - intros i st Hi _. unfold idle in Hidle. rewrite Forall_lookup in Hidle.
      by eapply Hidle.
    - intros j st Hj. apply lookup_lt_Some in Hj. lia.
    - intros j st _ Hlt. lia.
    - by left. }
  unfold move_next. rewrite Hcl.
  assert (last_failed s0 cl = false) as -> by done.
  change (_move_queue s0) with full.
  destruct full as [|[real pos] rest] eqn:Hfull.
  { exists 0%nat. by apply (Hdead [ev_super_done_moving true]). }
  unfold time_time. cbv zeta. cbn [fst snd].
  change (clock (set_move_queue rest s0)) with clk.
  change (ticks (set_move_queue rest s0)) with (S m).
  change (timeout cl) with tmo. change (t0 cl) with (clk m).
  destruct (exhausted _) eqn:Hex.
  { exists 0%nat.
    apply (Hdead [ev_logger_error "Motion timeout";
                   ev_super_done_moving false]);
      [done|done|done|simpl; by rewrite <-app_assoc|done..]. }
  exists 1%nat. unfold real_move, append_pending. cbv zeta. cbn [fst snd].
  unfold seq_inv. simpl. split_and!.
  - lia.
  - eexists [_]. split_and!; [done|done|..].
    + simpl. unfold step_timeouts. simpl. do 3 f_equal. lia.
    + simpl. constructor; [|done].
      unfold sub_timeout, exhausted in *. simpl in *.
      destruct tmo; [|done]. by apply Z.ltb_ge.
  - rewrite list_lookup_alter_eq. fold cid.
    change (closures self ++ [cl]) with (closures s0). by rewrite Hcl.
  - rewrite length_app. simpl. lia.
  - done.
  - intros i st Hi Hlt. rewrite lookup_app_l in Hi by done.
    unfold idle in Hidle. rewrite Forall_lookup in Hidle. by eapply Hidle.
  - intros j st Hj. assert (j = 0)%nat as ->.
    { apply lookup_lt_Some in Hj. rewrite length_app in Hj. simpl in Hj. lia. }
    rewrite list_lookup_middle in Hj by lia. simplify_eq. simpl. eauto.
  - intros j st _ Hlt. lia.
  - right. split; [lia|]. by left.
Qed.

Lemma in_flight_dec s sid : in_flight s sid \/ ~ in_flight s sid.
Proof.
  unfold in_flight. destruct (statuses s !! sid) as [st|] eqn:Hst.
  - destruct (st_done st) eqn:Hd.
    + right. intros (st' & [= <-] & Hd'). congruence.
    + left. eauto.
  - right. by intros (st' & [=] & _).
Qed.

Lemma seq_inv_step c full n0 cid clk m tmo tr0 s k (i : input) :
  seq_inv full n0 cid clk m tmo tr0 s k ->
  exists k', seq_inv full n0 cid clk m tmo tr0 (step c s i) k'.
Proof.
  intros Hinv. destruct (input_cases i) as [(sid & ok & ->)|Hno].
  - cbn [step]. destruct (in_flight_dec s sid) as [Hfl|Hno].
    + pose proof (seq_inv_finished _ _ _ _ _ _ _ _ _ _ ok Hinv Hfl) as Hstep.
      cbv zeta in Hstep.
      destruct ok; [destruct (_move_queue s) as [|[real pos] rest];
                    [|destruct (exhausted _)]|];
        [exists k|exists k|exists (S k)|exists k]; tauto.
    + exists k. by rewrite finished_not_in_flight.
  - exists k. by apply seq_inv_quiet.
Qed.

Lemma seq_inv_run c full n0 cid clk m tmo tr0 s k (inputs : list input) :
  seq_inv full n0 cid clk m tmo tr0 s k ->
  exists k', seq_inv full n0 cid clk m tmo tr0 (run c s inputs) k'.
Proof.
  revert s k. induction inputs as [|i inputs IH]; intros s k Hinv.
  - by exists k.
  - destruct (seq_inv_step c _ _ _ _ _ _ _ _ _ i Hinv) as [k' Hinv'].
    simpl. by eapply IH.
Qed.

(** What the call of [_sequential_move] itself leaves in the trace. *)
Lemma _sequential_move_trace self real_pos tmo :
  trace (_sequential_move real_pos tmo self)
  = trace self ++
    match zip (_real self) real_pos with
    | [] => [ev_super_done_moving true]
    | (real, pos) :: _ =>
        let sub := sub_timeout tmo (clock self (ticks self))
                     (clock self (S (ticks self))) in
        if exhausted sub
        then [ev_logger_error "Motion timeout"; ev_super_done_moving false]
        else [ev_real_move real pos sub (cb_move_next (length (closures self)))]
    end.
Proof.
  set (full := zip (_real self) real_pos).
  set (cid := length (closures self)).
  set (cl := mk_closure [] (clock self (ticks self)) tmo).
  set (s0 := set_closures (closures self ++ [cl])
               (set_ticks (S (ticks self)) (set_move_queue full self))).
  change (_sequential_move real_pos tmo self) with (move_next cid s0).
  unfold move_next.
  assert (closures s0 !! cid = Some cl) as -> by (by apply list_lookup_middle).
  assert (last_failed s0 cl = false) as -> by done.
  change (_move_queue s0) with full.
  destruct full as [|[real pos] rest]; [done|].
  unfold time_time. cbv zeta. cbn [fst snd]. simpl.
  destruct (exhausted _); simpl; by rewrite <-?app_assoc.
Qed.

(** C3, amended.  A sequential group move that is started while no
    real-axis move handed out earlier is unresolved, and during which no
    other group move is started: the call dispatches the first pair of
    [zip(self._real, real_pos)] (unless there is none, or the timeout
    budget is exhausted from the start).  At any later moment the moves
    dispatched so far are the first [k] pairs, in that order, and all
    but the latest of them have completed with success.  Only the latest
    can be in flight.  If its completion reports failure, the group's
    completion is raised as failure and no further move is ever
    dispatched.  If it reports success, the next pair of the queue is
    dispatched (unless the timeout budget is exhausted), and with the
    queue empty the group's completion is raised as success. *)
Theorem sequential_move_in_order
    (c : collaborators) (self : PseudoPositioner) (real_pos : list Z)
    (tmo : option Z) (inputs : list input) :
  idle self ->
  let full := zip (_real self) real_pos in
  let n0 := length (statuses self) in
  let cid := length (closures self) in
  let start := clock self (ticks self) in
  let started := _sequential_move real_pos tmo self in
  let s := run c started inputs in
  trace started
    = trace self ++
      match full with
      | [] => [ev_super_done_moving true]
      | (real, pos) :: _ =>
          let sub := sub_timeout tmo start (clock self (S (ticks self))) in
          if exhausted sub
          then [ev_logger_error "Motion timeout"; ev_super_done_moving false]
          else [ev_real_move real pos sub (cb_move_next cid)]
      end /\
  exists k tr,
    trace s = trace self ++ tr /\
    dispatched tr = take k full /\
    (forall j, (S j < k)%nat ->
       exists st, statuses s !! (n0 + j)%nat = Some st /\
                  st_done st = true /\ success st = true) /\
    (forall sid, in_flight s sid ->
       (0 < k)%nat /\ sid = (n0 + (k - 1))%nat /\
       (let failed := step c s (in_finished sid false) in
        trace failed
          = trace s ++ [ev_logger_error "Failing due to last motion";
                        ev_super_done_moving false] /\
        forall more,
          dispatched (trace (run c failed more)) = dispatched (trace s)) /\
       (_move_queue s = [] ->
        trace (step c s (in_finished sid true))
          = trace s ++ [ev_super_done_moving true]) /\
       (forall real pos rest,
          _move_queue s = (real, pos) :: rest ->
          let sub := sub_timeout tmo start (clock s (ticks s)) in
          exhausted sub = false ->
          full !! k = Some (real, pos) /\
          trace (step c s (in_finished sid true))
            = trace s ++ [ev_real_move real pos sub (cb_move_next cid)])).
Proof.
  intros Hidle full n0 cid start started s.
  split; [apply _sequential_move_trace|].
  destruct (seq_inv_start self real_pos tmo Hidle) as [k0 Hinv0].
  destruct (seq_inv_run c _ _ _ _ _ _ _ _ _ inputs Hinv0) as [k Hinv].
  fold full n0 cid started s in Hinv.
  pose proof Hinv as (Hk & (tr & Htr & Hdisp & Hexact & Htmos) & Hcl & Hlen
                      & Hclk & Hold & Hnew & Hdone & Hq).
  exists k, tr. split_and!; [done|done|..].
  - intros j Hlt.
    destruct (lookup_lt_is_Some_2 (statuses s) (n0 + j)) as [st Hst]; [lia|].
    exists st. split; [done|]. by apply (Hdone j).
  - intros sid Hfl.
    destruct (seq_inv_in_flight _ _ _ _ _ _ _ _ _ _ Hinv Hfl)
      as (Hk0 & Hsid & Hticks & Hq').
    split_and!; [done|done|..].
    + pose proof (seq_inv_finished _ _ _ _ _ _ _ _ _ _ false Hinv Hfl)
        as (Ht & Hidle' & _).
      cbv zeta. cbn [step]. split; [done|]. intros more.
      destruct (idle_run c _ more Hidle') as (_ & -> & _).
      rewrite Ht, dispatched_app. simpl. by rewrite app_nil_r.
    + intros Hempty.
      pose proof (seq_inv_finished _ _ _ _ _ _ _ _ _ _ true Hinv Hfl) as Hstep.
      cbv zeta in Hstep. rewrite Hempty in Hstep. cbn [step]. tauto.
    + intros real pos rest Hqueue sub Hex.
      pose proof (seq_inv_finished _ _ _ _ _ _ _ _ _ _ true Hinv Hfl) as Hstep.
      cbv zeta in Hstep. rewrite Hqueue in Hstep.
      unfold sub, start in *. rewrite Hclk, Hticks in *.
      rewrite Hex in Hstep. cbn [step].
      split; [|tauto].
      destruct Hq' as [Hq'|Hq']; [|by rewrite Hq' in Hqueue].
      rewrite Hqueue in Hq'.
      rewrite <-(Nat.add_0_r k), <-lookup_drop, <-Hq'. done.
Qed.

(** C4, amended.  A sequential group move with timeout [T] that is
    started while no real-axis move handed out earlier is unresolved,
    and during which no other group move is started; [start] is the clock
    reading taken when it starts.  The first step is dispatched with
    timeout [T - (now - start)] for the reading [now] taken next, and so is
    every later step when the move in flight completes with success at
    reading [now]; if that number is negative, nothing is dispatched
    and the group's completion is raised as failure.  So the timeouts
    handed out are [T] less the time elapsed since the start, step by
    step, and none is negative. *)
Theorem sequential_timeout_budget
    (c : collaborators) (self : PseudoPositioner) (real_pos : list Z)
    (T : Z) (inputs : list input) :
  idle self ->
  let full := zip (_real self) real_pos in
  let cid := length (closures self) in
  let start := clock self (ticks self) in
  let started := _sequential_move real_pos (Some T) self in
  let s := run c started inputs in
  trace started
    = trace self ++
      match full with
      | [] => [ev_super_done_moving true]
      | (real, pos) :: _ =>
          let remaining := T - (clock self (S (ticks self)) - start) in
          if remaining <? 0
          then [ev_logger_error "Motion timeout"; ev_super_done_moving false]
          else [ev_real_move real pos (Some remaining) (cb_move_next cid)]
      end /\
  (exists tr, trace s = trace self ++ tr /\
     dispatched_timeouts tr
     = map (fun j => Some (T - (clock self (ticks self + 1 + j)%nat - start)))
         (seq 0 (length (dispatched tr))) /\
     Forall (fun sub => exists r, sub = Some r /\ 0 <= r)
       (dispatched_timeouts tr)) /\
  (forall sid real pos rest,
     in_flight s sid -> _move_queue s = (real, pos) :: rest ->
     let remaining := T - (clock s (ticks s) - start) in
     trace (step c s (in_finished sid true))
       = trace s ++
         if remaining <? 0
         then [ev_logger_error "Motion timeout"; ev_super_done_moving false]
         else [ev_real_move real pos (Some remaining) (cb_move_next cid)]).
Proof.
  intros Hidle full cid start started s.
  split; [apply (_sequential_move_trace self real_pos (Some T))|].
  destruct (seq_inv_start self real_pos (Some T) Hidle) as [k0 Hinv0].
  destruct (seq_inv_run c _ _ _ _ _ _ _ _ _ inputs Hinv0) as [k Hinv].
  fold full cid started s in Hinv.
  pose proof Hinv as (Hk & (tr & Htr & Hdisp & Hexact & Htmos) & Hcl & Hlen
                      & Hclk & Hold & Hnew & Hdone & Hq).
  split.
  - exists tr. split_and!; [done| |].
    + rewrite Hexact, Hdisp, length_take_le by done. done.
    + eapply Forall_impl; [exact Htmos|]. intros [r|]; [eauto|done].
  - intros sid real pos rest Hfl Hqueue remaining.
    destruct (seq_inv_in_flight _ _ _ _ _ _ _ _ _ _ Hinv Hfl)
      as (_ & _ & Hticks & _).
    pose proof (seq_inv_finished _ _ _ _ _ _ _ _ _ _ true Hinv Hfl) as Hstep.
    cbv zeta in Hstep. rewrite Hqueue in Hstep. cbn [step].
    unfold remaining, start. rewrite Hclk, Hticks.
    unfold sub_timeout, exhausted in Hstep.
    destruct (_ <? 0); tauto.
Qed.

Lemma sequential_move_in_order_witness :
  let c := twin_collaborators in
  let self := twin_device false in
  let real_pos := [8; 4] in
  let inputs := [in_finished 0 true] in
  idle self /\
  dispatched (trace (run c (_sequential_move real_pos None self)
                       [in_finished 0 true; in_finished 1 true]))
    = [("m1", 8); ("m2", 4)] /\
  terminal (trace (run c (_sequential_move real_pos None self)
                     [in_finished 0 true; in_finished 1 true])) = [true] /\
  dispatched (trace (run c (_sequential_move real_pos None self)
                       [in_finished 0 false; in_finished 1 true]))
    = [("m1", 8)] /\
  terminal (trace (run c (_sequential_move real_pos None self)
                     [in_finished 0 false; in_finished 1 true])) = [false] /\
  let full := zip (_real self) real_pos in
  let n0 := length (statuses self) in
  let cid := length (closures self) in
  let start := clock self (ticks self) in
  let started := _sequential_move real_pos None self in
  let s := run c started inputs in
  trace started
    = trace self ++
      match full with
      | [] => [ev_super_done_moving true]
      | (real, pos) :: _ =>
          let sub := sub_timeout None start (clock self (S (ticks self))) in
          if exhausted sub
          then [ev_logger_error "Motion timeout"; ev_super_done_moving false]
          else [ev_real_move real pos sub (cb_move_next cid)]
      end /\
  exists k tr,
    trace s = trace self ++ tr /\
    dispatched tr = take k full /\
    (forall j, (S j < k)%nat ->
       exists st, statuses s !! (n0 + j)%nat = Some st /\
                  st_done st = true /\ success st = true) /\
    (forall sid, in_flight s sid ->
       (0 < k)%nat /\ sid = (n0 + (k - 1))%nat /\
       (let failed := step c s (in_finished sid false) in
        trace failed
          = trace s ++ [ev_logger_error "Failing due to last motion";
                        ev_super_done_moving false] /\
        forall more,
          dispatched (trace (run c failed more)) = dispatched (trace s)) /\
       (_move_queue s = [] ->
        trace (step c s (in_finished sid true))
          = trace s ++ [ev_super_done_moving true]) /\
       (forall real pos rest,
          _move_queue s = (real, pos) :: rest ->
          let sub := sub_timeout None start (clock s (ticks s)) in
          exhausted sub = false ->
          full !! k = Some (real, pos) /\
          trace (step c s (in_finished sid true))
            = trace s ++ [ev_real_move real pos sub (cb_move_next cid)])).
Proof.
  intros c self real_pos inputs.
  assert (idle self) as Hidle by constructor.
  split; [exact Hidle|].
  split; [vm_compute; reflexivity|]. split; [vm_compute; reflexivity|].
  split; [vm_compute; reflexivity|]. split; [vm_compute; reflexivity|].
  exact (sequential_move_in_order c self real_pos None inputs Hidle).
Defined.

(** C3, as stated, fails for a group move that is started while a move
    of an earlier group move is unresolved.  The sequential twin device
    is sent to real position (4, 2) and then, with the first motor still
    moving, to (1, 7).  When the first motor reports that its earlier
    move succeeded, the callback of the earlier group move pops the
    queue of the later one: the second motor is sent to 7 while the
    later group move's own step, status object 1, is unresolved.  If
    that step then fails and the second motor succeeds, the group's
    completion is raised twice, as failure and then as success. *)
Lemma sequential_move_in_order_counterexample :
  let c := twin_collaborators in
  let first := (_setup_move c [3; 1] None (twin_device false)).2 in
  let full := zip (_real first) [1; 7] in
  let n0 := length (statuses first) in
  let started := (_setup_move c [4; -3] None first).2 in
  let s := run c started [in_finished 0 true] in
  started = _sequential_move [1; 7] None first /\
  dispatched (trace first) = [("m1", 4)] /\
  in_flight first 0 /\
  trace s = trace first ++ [ev_real_move "m1" 1 None (cb_move_next 1);
                            ev_real_move "m2" 7 None (cb_move_next 0)] /\
  in_flight s 1 /\
  terminal (trace (run c s [in_finished 1 false; in_finished 2 true]))
    = [false; true] /\
  ~ (exists k tr,
       trace s = trace first ++ tr /\
       dispatched tr = take k full /\
       (forall j, (S j < k)%nat ->
          exists st, statuses s !! (n0 + j)%nat = Some st /\
                     st_done st = true /\ success st = true)).
Proof.
  intros c first full n0 started s.
  assert (trace s = trace first ++ [ev_real_move "m1" 1 None (cb_move_next 1);
                                    ev_real_move "m2" 7 None (cb_move_next 0)])
    as Htrace by (vm_compute; reflexivity).
  split; [vm_compute; reflexivity|].
  split; [vm_compute; reflexivity|].
  split; [eexists; split; vm_compute; reflexivity|].
  split; [exact Htrace|].
  split; [eexists; split; vm_compute; reflexivity|].
  split; [vm_compute; reflexivity|].
  intros (k & tr & Htr & Hd & Hdone).
  rewrite Htrace in Htr. apply app_inv_head in Htr. subst tr.
  destruct k as [|[|k]]; [discriminate Hd..|].
  destruct (Hdone 0%nat) as (st & Hst & Hdn & _); [lia|].
  vm_compute in Hst. injection Hst as <-. discriminate Hdn.
Qed.

Lemma sequential_timeout_budget_witness :
  let c := twin_collaborators in
  let self := timed_device (clock_of [0; 2; 10]) in
  let real_pos := [8; 4] in
  let inputs := @nil input in
  idle self /\
  dispatched_timeouts
    (trace (run c (_sequential_move real_pos (Some 30) self)
              [in_finished 0 true])) = [Some 28; Some 20] /\
  trace (run c (_sequential_move real_pos (Some 30) (timed_device (clock_of [0; 0; 31])))
           [in_finished 0 true])
    = [ev_real_move "m1" 8 (Some 30) (cb_move_next 0);
       ev_logger_error "Motion timeout"; ev_super_done_moving false] /\
  let full := zip (_real self) real_pos in
  let cid := length (closures self) in
  let start := clock self (ticks self) in
  let started := _sequential_move real_pos (Some 30) self in
  let s := run c started inputs in
  trace started
    = trace self ++
      match full with
      | [] => [ev_super_done_moving true]
      | (real, pos) :: _ =>
          let remaining := 30 - (clock self (S (ticks self)) - start) in
          if remaining <? 0
          then [ev_logger_error "Motion timeout"; ev_super_done_moving false]
          else [ev_real_move real pos (Some remaining) (cb_move_next cid)]
      end /\
  (exists tr, trace s = trace self ++ tr /\
     dispatched_timeouts tr
     = map (fun j => Some (30 - (clock self (ticks self + 1 + j)%nat - start)))
         (seq 0 (length (dispatched tr))) /\
     Forall (fun sub => exists r, sub = Some r /\ 0 <= r)
       (dispatched_timeouts tr)) /\
  (forall sid real pos rest,
     in_flight s sid -> _move_queue s = (real, pos) :: rest ->
     let remaining := 30 - (clock s (ticks s) - start) in
     trace (step c s (in_finished sid true))
       = trace s ++
         if remaining <? 0
         then [ev_logger_error "Motion timeout"; ev_super_done_moving false]
         else [ev_real_move real pos (Some remaining) (cb_move_next cid)]).
Proof.
  intros c self real_pos inputs.
  assert (idle self) as Hidle by constructor.
  split; [exact Hidle|].
  split; [vm_compute; reflexivity|]. split; [vm_compute; reflexivity|].
  exact (sequential_timeout_budget c self real_pos 30 inputs Hidle).
Defined.

(** C4, as stated, fails for a group move that is started while a move
    of an earlier group move is unresolved.  The clock reads 0, 0, 50,
    50 and 60.  A first group move with timeout 100 starts at 0; a
    second one with timeout 5 starts at 50 and leaves its step for the
    second motor in the queue.  When the first motor reports at 60 that
    its earlier move succeeded, that step is dispatched by the callback
    of the first group move, with the timeout 100 - (60 - 0) = 40,
    although the budget of its own group move, 5 - (60 - 50), is
    exhausted. *)
Lemma sequential_timeout_budget_counterexample :
  let c := twin_collaborators in
  let self := timed_device (clock_of [0; 0; 50; 50; 60]) in
  let first := (_setup_move c [3; 1] (Some 100) self).2 in
  let start := clock first (ticks first) in
  let s := (_setup_move c [4; -3] (Some 5) first).2 in
  s = _sequential_move [1; 7] (Some 5) first /\
  start = 50 /\ clock s (ticks s) = 60 /\
  in_flight s 0 /\ _move_queue s = [("m2", 7)] /\
  trace (step c s (in_finished 0 true))
    = trace s ++ [ev_real_move "m2" 7 (Some 40) (cb_move_next 0)] /\
  ~ (forall sid real pos rest,
       in_flight s sid -> _move_queue s = (real, pos) :: rest ->
       let remaining := 5 - (clock s (ticks s) - start) in
       trace (step c s (in_finished sid true))
         = trace s ++
           if remaining <? 0
           then [ev_logger_error "Motion timeout"; ev_super_done_moving false]
           else [ev_real_move real pos (Some remaining)
                   (cb_move_next (length (closures first)))]).
Proof.
  intros c self first start s.
  assert (in_flight s 0) as Hfl by (eexists; split; vm_compute; reflexivity).
  split; [vm_compute; reflexivity|].
  split; [vm_compute; reflexivity|].
  split; [vm_compute; reflexivity|].
  split; [exact Hfl|].
  split; [vm_compute; reflexivity|].
  split; [vm_compute; reflexivity|].
  intros Hclaim.
  specialize (Hclaim 0%nat "m2" 7 [] Hfl eq_refl).
  vm_compute in Hclaim. discriminate Hclaim.
Qed.

(** ** Concurrent moves *)

(** C1. A concurrent group move of the two-motor device: both moves are
    dispatched and both motors are waited for; the group's completion is
    raised when the second of the two completions arrives, in either
    order, and not before.  It is raised as success even when one motor,
    or both, reported failure: [_real_finished] never looks at the
    outcome. *)
Theorem concurrent_failure_reported_as_success :
  let c := twin_collaborators in
  let started := (_setup_move c [3; 1] None (twin_device true)).2 in
  dispatched (trace started) = [("m1", 4); ("m2", 2)] /\
  _real_waiting started = ["m1"; "m2"] /\
  terminal (trace (run c started [in_finished 0 false])) = [] /\
  terminal (trace (run c started [in_finished 1 true])) = [] /\
  terminal (trace (run c started [in_finished 0 false; in_finished 1 true]))
    = [true] /\
  terminal (trace (run c started [in_finished 1 true; in_finished 0 false]))
    = [true] /\
  terminal (trace (run c started [in_finished 0 false; in_finished 1 false]))
    = [true].
Proof. vm_compute. by repeat split. Qed.

(** ** Position tuples: what a successful parse means, and the errors *)

Lemma position_kw_Ok (fields : list string) (kwargs : gmap string pyval)
    (vs : list pyval) :
  position_kw fields kwargs = Ok vs ->
  length vs = length fields /\
  forall i f, fields !! i = Some f -> vs !! i = kwargs !! f.
Proof.
  revert vs. induction fields as [|f fields IH]; intros vs; simpl.
  - intros [= <-]. split; [done|]. by intros i f [=].
  - destruct (kwargs !! f) as [v|] eqn:Hf; [|done].
    unfold mbind, result_bind.
    destruct (position_kw fields kwargs) as [vs'|e]; [|done].
    intros [= <-]. destruct (IH vs' eq_refl) as [Hlen Hvs].
    split; [simpl; lia|]. intros [|i] g; simpl.
    + by intros [= <-].
    + apply Hvs.
Qed.

Lemma missing_fields_nil (fields : list string) (kwargs : gmap string pyval) :
  filter (fun field => kwargs !! field = None) fields = [] ->
  forall f, f ∈ fields -> is_Some (kwargs !! f).
Proof.
  intros Hnil f Hf.
  destruct (kwargs !! f) as [v|] eqn:Hv; [eauto|].
  assert (f ∈ filter (fun field => kwargs !! field = None) fields) as Hin
    by (by apply list_elem_of_filter).
  rewrite Hnil in Hin. by apply elem_of_nil in Hin.
Qed.

(** A successful parse used one of the three conventions: the result is
    an instance of [cls] with one item per field, and it is either the
    keyword form (no positional argument, each field taken from the
    keyword of its name, the remaining keywords returned), or a single
    sequence argument whose items are the record's, or exactly one
    positional scalar per field; in the positional forms all keywords are
    returned untouched. *)
Theorem to_position_tuple_sound (cls : ntclass) (args : list pyval)
    (kwargs : gmap string pyval) (pos : pyval) (rest : gmap string pyval) :
  Forall well_formed args ->
  to_position_tuple cls args kwargs = Ok (pos, rest) ->
  exists items,
    pos = PyRecord cls items /\
    length items = length (_fields cls) /\ _fields cls <> [] /\
    ((args = [] /\
      (forall i f, _fields cls !! i = Some f -> items !! i = kwargs !! f) /\
      (forall k, rest !! k
                 = if decide (k ∈ _fields cls) then None else kwargs !! k)) \/
     (exists arg, args = [arg] /\ isinstance_Sequence arg = true /\
                  items_of arg = items /\ rest = kwargs) \/
     (args = items /\ rest = kwargs /\
      exists arg tail, args = arg :: tail /\
                       isinstance_Sequence arg = false)).
Proof.
  intros Hwf. unfold to_position_tuple.
  case_bool_decide as Hfields; [done|].
  destruct args as [|arg0 tail].
  - case_bool_decide as Hempty; [done|].
    case_bool_decide as Hmissing; [|done].
    unfold mbind, result_bind.
    destruct (position_kw _ _) as [vs|e] eqn:Hkw; [|done].
    intros [= <- <-]. apply position_kw_Ok in Hkw as [Hlen Hvs].
    exists vs. split_and!; [done..|]. left. split_and!; [done..|].
    intros k. case_decide as Hk.
    + apply map_lookup_filter_None_2. right. intros x _ Hnot. by apply Hnot.
    + destruct (kwargs !! k) as [x|] eqn:Hx.
      * by apply map_lookup_filter_Some_2.
      * apply map_lookup_filter_None_2. by left.
  - apply Forall_cons in Hwf as [Hwf0 _].
    destruct (isinstance_cls arg0 cls) eqn:Hinst.
    + simpl. case_bool_decide as Hmore; [done|].
      intros [= <- <-]. destruct arg0 as [| | |c items]; try done.
      simpl in Hinst. apply bool_decide_eq_true in Hinst as ->.
      exists items. split_and!; [done..|]. right. left.
      exists (PyRecord cls items). split_and!; try done.
      destruct tail; [done|]. simpl in Hmore. lia.
    + destruct (isinstance_Sequence arg0) eqn:Hseq; simpl.
      * case_bool_decide as Hmore; [done|].
        unfold new_positional. case_bool_decide as Hlen; [|done].
        intros [= <- <-]. exists (items_of arg0).
        split_and!; [done..|]. right. left. exists arg0.
        split_and!; try done. destruct tail; [done|]. simpl in Hmore. lia.
      * case_bool_decide as Hlen; [|done].
        unfold new_positional. simpl. rewrite (bool_decide_eq_true_2 _ Hlen).
        intros [= <- <-]. exists (arg0 :: tail).
        split_and!; [done..|]. right. right. split_and!; eauto.
Qed.

(** The errors of the parser, with what they report: no argument at all;
    a wrong number of positional scalars (the number given and the number
    of fields); a sequence followed by further positional arguments; a
    sequence of the wrong length (the number of fields and the length);
    keywords that leave fields out (exactly the fields left out, in
    declaration order). *)
Theorem to_position_tuple_rejects (cls : ntclass) (args : list pyval)
    (kwargs : gmap string pyval) :
  _fields cls <> [] ->
  (args = [] -> kwargs = ∅ ->
   to_position_tuple cls args kwargs = Err ValueError_usage) /\
  (forall arg tail, args = arg :: tail -> isinstance_Sequence arg = false ->
     length args <> length (_fields cls) ->
     to_position_tuple cls args kwargs
     = Err (ValueError_wrong_number_of_arguments (length args)
              (length (_fields cls)))) /\
  (forall arg tail, args = arg :: tail -> isinstance_Sequence arg = true ->
     tail <> [] ->
     to_position_tuple cls args kwargs
     = Err ValueError_more_than_one_positional) /\
  (forall items, args = [PySeq items] ->
     length items <> length (_fields cls) ->
     to_position_tuple cls args kwargs
     = Err (TypeError_new (length (_fields cls)) (length items))) /\
  (args = [] -> kwargs <> ∅ ->
   forall f0, f0 ∈ _fields cls -> kwargs !! f0 = None ->
   exists missing,
     to_position_tuple cls args kwargs
     = Err (ValueError_missing_keywords missing) /\
     missing `sublist_of` _fields cls /\
     forall f, f ∈ missing <-> f ∈ _fields cls /\ kwargs !! f = None).
Proof.
  intros Hfields. unfold to_position_tuple.
  rewrite (bool_decide_eq_false_2 _ Hfields). split_and!.
  - intros -> ->. by rewrite bool_decide_eq_true_2.
  - intros arg tail -> Hseq Hlen.
    rewrite (scalar_not_instance _ _ Hseq), Hseq. simpl.
    by rewrite bool_decide_eq_false_2.
  - intros arg tail -> Hseq Htail.
    rewrite Hseq, orb_true_r. rewrite bool_decide_eq_true_2; [done|].
    destruct tail; [done|]. simpl. lia.
  - intros items -> Hlen. simpl. unfold new_positional. simpl.
    by rewrite bool_decide_eq_false_2.
  - intros -> Hne f0 Hf0 Hmiss.
    rewrite (bool_decide_eq_false_2 _ Hne).
    set (missing := filter (fun field => kwargs !! field = None) (_fields cls)).
    assert (forall f, f ∈ missing <-> f ∈ _fields cls /\ kwargs !! f = None)
      as Hin.
    { intros f. unfold missing. rewrite list_elem_of_filter. tauto. }
    exists missing. rewrite bool_decide_eq_false_2.
    + split_and!; [done| |done]. apply sublist_filter.
    + intros Hnil. assert (f0 ∈ missing) as Hf by (by apply Hin).
      rewrite Hnil in Hf. by apply elem_of_nil in Hf.
Qed.

Lemma to_position_tuple_record (cls : ntclass) (args : list pyval)
    (kwargs : gmap string pyval) (pos : pyval) (rest : gmap string pyval) :
  Forall well_formed args ->
  to_position_tuple cls args kwargs = Ok (pos, rest) ->
  exists items, pos = PyRecord cls items /\
                length items = length (_fields cls) /\ _fields cls <> [].
Proof.
  intros Hwf. unfold to_position_tuple.
  case_bool_decide as Hfields; [done|].
  destruct args as [|arg0 tail].
  - case_bool_decide; [done|]. case_bool_decide; [|done].
    unfold mbind, result_bind.
    destruct (position_kw _ _) as [vs|e] eqn:Hkw; [|done].
    intros [= <- _]. apply position_kw_Ok in Hkw as [Hlen _]. eauto.
  - apply Forall_cons in Hwf as [Hwf0 _].
    destruct (isinstance_cls arg0 cls) eqn:Hinst.
    + simpl. case_bool_decide; [done|]. intros [= <- _].
      destruct arg0 as [| | |c items]; try done.
      simpl in Hinst. apply bool_decide_eq_true in Hinst as ->. eauto.
    + destruct (isinstance_Sequence arg0); simpl.
      * case_bool_decide; [done|]. unfold new_positional.
        case_bool_decide as Hlen; [|done]. intros [= <- _]. eauto.
      * case_bool_decide as Hlen; [|done]. unfold new_positional. simpl.
        rewrite (bool_decide_eq_true_2 _ Hlen). intros [= <- _]. eauto.
Qed.

(** Wrapping a wrapped method parses once: what the outer wrapper hands
    on is accepted unchanged by the inner one, errors included. *)
Theorem position_argument_wrapper_nested {A} (cls : ntclass)
    (method : pyval -> gmap string pyval -> result A)
    (args : list pyval) (kwargs : gmap string pyval) :
  Forall well_formed args ->
  position_argument_wrapper cls
    (fun pos kw => position_argument_wrapper cls method [pos] kw) args kwargs
  = position_argument_wrapper cls method args kwargs.
Proof.
  intros Hwf. unfold position_argument_wrapper at 1 3.
  destruct (to_position_tuple cls args kwargs) as [[pos rest]|e] eqn:Hparse;
    [|done].
  destruct (to_position_tuple_record _ _ _ _ _ Hwf Hparse)
    as (items & -> & Hlen & Hfields).
  unfold position_argument_wrapper, to_position_tuple.
  rewrite (bool_decide_eq_false_2 _ Hfields). simpl.
  by rewrite !bool_decide_eq_true_2 by done.
Qed.

(** ** Validation: which axis the error names *)

Lemma check_pseudo_limits_first (pseudos : list PseudoSingle) (pos : list Z)
    (e : exn) :
  check_pseudo_limits (zip pseudos pos) = Err e ->
  exists i p x,
    pseudos !! i = Some p /\ pos !! i = Some x /\ out_of_range p x /\
    e = ValueError_outside_pseudo_limits (name p) (limits p).1 x (limits p).2 /\
    forall j q y, (j < i)%nat -> pseudos !! j = Some q -> pos !! j = Some y ->
                  ~ out_of_range q y.
Proof.
  revert pos. induction pseudos as [|p pseudos IH]; intros [|x pos]; simpl;
    try done.
  unfold out_of_range in *.
  destruct (limits p) as [low high] eqn:Hlim; simpl.
  destruct ((high >? low) && negb ((low <=? x) && (x <=? high))) eqn:Hbad.
  - intros [= <-]. exists 0%nat, p, x. rewrite Hlim. simpl.
    split_and!; [done|done| | |done|intros; lia];
      destruct (Z.gtb_spec high low), (Z.leb_spec low x), (Z.leb_spec x high);
      simpl in Hbad; try done; lia.
  - intros Herr.
    destruct (IH _ Herr) as (i & q & y & Hq & Hy & Hout & -> & Hfirst).
    exists (S i), q, y. split_and!; [done|done|tauto|tauto|done|].
    intros [|j] q' y' Hlt Hq' Hy'.
    + simpl in *. simplify_eq. rewrite Hlim. simpl.
      destruct (Z.gtb_spec high low), (Z.leb_spec low y'),
        (Z.leb_spec y' high); simpl in Hbad; try done; lia.
    + apply (Hfirst j); [lia|done..].
Qed.

(** The out-of-range error of [check_value] names the first pseudo axis,
    in declaration order, whose slot of the candidate lies outside its
    limits, and carries that axis's limits and the offending value;
    every axis before it accepted its slot. *)
Theorem check_value_names_first_offender
    (c : collaborators) (self : PseudoPositioner) (pseudo_pos : list Z) :
  length pseudo_pos = length (_pseudo self) ->
  violated self pseudo_pos ->
  exists i p x,
    _pseudo self !! i = Some p /\ pseudo_pos !! i = Some x /\
    out_of_range p x /\ accepted_before self pseudo_pos i /\
    check_value c self pseudo_pos
    = Err (ValueError_outside_pseudo_limits (name p) (limits p).1 x
             (limits p).2).
Proof.
  intros Hlen Hv. rewrite (check_value_unfold _ _ _ Hlen).
  destruct (check_pseudo_limits _) as [[]|e] eqn:Hlim.
  - exfalso. apply check_pseudo_limits_Ok in Hlim.
    apply violated_pairs in Hv as (p & x & Hin & Hout).
    rewrite Forall_forall in Hlim. by apply (Hlim (p, x)).
  - apply check_pseudo_limits_first in Hlim
      as (i & p & x & Hp & Hx & Hout & -> & Hfirst).
    exists i, p, x. split_and!; try done.
Qed.

(** ** Construction *)

Lemma dict_set_absent {V} (key : axis) (value : V) (d : list (axis * V)) :
  key ∉ d.*1 -> dict_set key value d = d ++ [(key, value)].
Proof.
  induction d as [|[k v] d IH]; csimpl; [done|].
  intros Hnot. rewrite bool_decide_eq_false_2.
  - rewrite IH; [done|]. intros Hin. apply Hnot. by right.
  - intros ->. apply Hnot. by left.
Qed.

Lemma dict_set_middle {V} (key : axis) (old value : V)
    (d1 d2 : list (axis * V)) :
  key ∉ d1.*1 ->
  dict_set key value (d1 ++ (key, old) :: d2) = d1 ++ (key, value) :: d2.
Proof.
  induction d1 as [|[k v] d1 IH]; csimpl; intros Hnot.
  - by rewrite bool_decide_eq_true_2.
  - rewrite bool_decide_eq_false_2.
    + rewrite IH; [done|]. intros Hin. apply Hnot. by right.
    + intros ->. apply Hnot. by left.
Qed.

Lemma fresh_cache_from (d : list (axis * option Z)) (real : list axis) :
  NoDup real -> (forall r, r ∈ real -> r ∉ d.*1) ->
  foldl (fun d r => dict_set r None d) d real
  = d ++ map (fun r => (r, None)) real.
Proof.
  revert d. induction real as [|r real IH]; intros d Hnd Hfresh; simpl.
  - by rewrite app_nil_r.
  - apply NoDup_cons in Hnd as [Hr Hnd].
    rewrite dict_set_absent by (apply Hfresh; by left).
    rewrite IH; [by rewrite <-app_assoc|done|].
    intros r' Hr'. rewrite fmap_app. simpl.
    intros [Hin|Hin%list_elem_of_singleton]%elem_of_app.
    + apply (Hfresh r'); [by right|done].
    + by subst.
Qed.

Lemma assign_idx_lookup (pseudo : list PseudoSingle) i p :
  assign_idx pseudo !! i = Some p <->
  exists q, pseudo !! i = Some q /\
            p = mk_PseudoSingle (name q) (limits q) (_target q) i.
Proof.
  unfold assign_idx. rewrite list_lookup_imap.
  destruct (pseudo !! i) as [q|]; simpl.
  - split; [intros [= <-]; eauto|by intros (q' & [= <-] & ->)].
  - split; [done|by intros (q' & [=] & _)].
Qed.

(** The second loop of [namedtuple] accepts only names that are new. *)
Lemma check_field_names_Ok (seen field_names : list string) :
  check_field_names seen field_names = Ok () ->
  NoDup field_names /\ forall f, f ∈ field_names -> f ∉ seen.
Proof.
  revert seen. induction field_names as [|f rest IH]; intros seen; simpl.
  - intros _. split; [constructor|]. by intros f ?%elem_of_nil.
  - destruct (starts_with_underscore f); [done|]. simpl.
    case_bool_decide as Hseen; [done|]. intros Hrest.
    destruct (IH _ Hrest) as [Hnd Hfresh]. split.
    + constructor; [|done]. intros Hin. apply (Hfresh f Hin). by left.
    + intros g [->|Hg]%elem_of_cons; [done|].
      intros Hin. apply (Hfresh g Hg). by right.
Qed.

Lemma namedtuple_Ok legal typename (field_names : list string) cls :
  namedtuple legal typename field_names = Ok cls ->
  NoDup field_names /\ cls = mk_ntclass typename field_names.
Proof.
  unfold namedtuple. destruct (filter _ _); [|done].
  destruct (check_field_names [] field_names) as [[]|e] eqn:Hc; [|done].
  intros [= <-]. split; [|done]. by destruct (check_field_names_Ok _ _ Hc).
Qed.

Lemma set_real_cur_pos_same self :
  set_real_cur_pos (_real_cur_pos self) self = self.
Proof. by destruct self. Qed.

(** The loop of subscriptions in closed form: the cache ends up holding
    what each real positioner had to report, and only the last call of
    [_real_pos_update] can find the cache complete. *)
Lemma subscribe_all_closed c cached (rest : list axis) :
  forall (before : list axis) (self : PseudoPositioner),
    rest <> [] -> NoDup (before ++ rest) -> _real self = before ++ rest ->
    _real_cur_pos self
    = map (fun r => (r, reported cached r)) before
      ++ map (fun r => (r, None)) rest ->
    let values := map (reported cached) (before ++ rest) in
    let final :=
      set_real_cur_pos (map (fun r => (r, reported cached r)) (before ++ rest))
        self in
    subscribe_all c cached rest self
    = if bool_decide (None ∈ values) then Ok final
      else match inverse c values with
           | Ok p => Ok (emits [ev_set_position p] final)
           | Err DisconnectedError => Ok final
           | Err e => Err e
           end.
Proof.
  induction rest as [|r rest IH]; intros before self Hne Hnd Hreal Hcache;
    [done|].
  assert (r ∉ before) as Hr.
  { apply NoDup_app in Hnd as (_ & Hdis & _). intros Hin.
    apply (Hdis r Hin). by left. }
  assert (r ∉ (map (fun r => (r, reported cached r)) before).*1) as Hr'.
  { rewrite <-list_fmap_compose.
    by replace (fst ∘ (fun r => (r, reported cached r))) with (@id axis);
      [rewrite list_fmap_id|]. }
  assert (forall v, reported cached r = v ->
            dict_set r v (_real_cur_pos self)
            = map (fun r => (r, reported cached r)) (before ++ [r])
              ++ map (fun r => (r, None)) rest) as Hset.
  { intros v Hv. rewrite Hcache. simpl. rewrite dict_set_middle by done.
    rewrite map_app. simpl. rewrite Hv. by rewrite <-app_assoc. }
  assert ((before ++ [r]) ++ rest = before ++ r :: rest) as Happ
    by (by rewrite <-app_assoc).
  cbv zeta. destruct rest as [|r2 rest].
  - (* the last subscription *)
    simpl subscribe_all. unfold subscribe.
    destruct (cached r) as [v|] eqn:Hcached.
    + unfold _real_pos_update, _update_position, real_position. cbv zeta.
      cbn [_real_cur_pos _real set_real_cur_pos].
      rewrite (Hset v) by (unfold reported; by rewrite Hcached).
      simpl. rewrite app_nil_r.
      rewrite bool_decide_eq_true_2
        by (by rewrite length_fmap, length_map, Hreal).
      rewrite <-list_fmap_compose.
      replace (snd ∘ (fun r => (r, reported cached r))) with (reported cached)
        by done.
      case_bool_decide as Hnone.
      * by rewrite (bool_decide_eq_true_2 _ Hnone).
      * rewrite (bool_decide_eq_false_2 _ Hnone).
        change (reported cached <$> before ++ [r])
          with (map (reported cached) (before ++ [r])).
        destruct (inverse c _) as [p|e]; [done|]. by destruct e.
    + rewrite bool_decide_eq_true_2.
      * csimpl. f_equal. rewrite <-(set_real_cur_pos_same self) at 1.
        f_equal. rewrite Hcache, map_app. simpl. do 3 f_equal.
        unfold reported. by rewrite Hcached.
      * apply list_elem_of_fmap. exists r. split.
        -- unfold reported. by rewrite Hcached.
        -- apply elem_of_app. right. by left.
  - (* more subscriptions follow: the cache still has an unknown entry *)
    set (cache1 := map (fun r => (r, reported cached r)) (before ++ [r])
                   ++ map (fun r => (r, None)) (r2 :: rest)).
    assert (subscribe c cached r self = Ok (set_real_cur_pos cache1 self))
      as Hsub.
    { unfold subscribe. destruct (cached r) as [v|] eqn:Hcached.
      - unfold _real_pos_update, _update_position, real_position. cbv zeta.
        cbn [_real_cur_pos _real set_real_cur_pos].
        rewrite (Hset v) by (unfold reported; by rewrite Hcached).
        fold cache1.
        rewrite bool_decide_eq_true_2.
        2:{ unfold cache1.
            rewrite length_fmap, length_app, !length_map, Hreal, !length_app.
            simpl. lia. }
        rewrite bool_decide_eq_true_2; [done|].
        unfold cache1. rewrite fmap_app. apply elem_of_app. right.
        csimpl. by left.
      - f_equal. rewrite <-(set_real_cur_pos_same self) at 1. f_equal.
        unfold cache1.
        rewrite <-(Hset None) by (unfold reported; by rewrite Hcached).
        rewrite Hcache. simpl. by rewrite dict_set_middle. }
    change (subscribe_all c cached (r :: r2 :: rest) self)
      with (subscribe c cached r self ≫= subscribe_all c cached (r2 :: rest)).
    rewrite Hsub.
    change (subscribe_all c cached (r2 :: rest) (set_real_cur_pos cache1 self)
            = if bool_decide
                   (None ∈ map (reported cached) (before ++ r :: r2 :: rest))
              then Ok (set_real_cur_pos
                         (map (fun r => (r, reported cached r))
                            (before ++ r :: r2 :: rest))
                         (set_real_cur_pos cache1 self))
              else match inverse c
                           (map (reported cached) (before ++ r :: r2 :: rest))
                   with
                   | Ok p =>
                       Ok (emits [ev_set_position p]
                             (set_real_cur_pos
                                (map (fun r => (r, reported cached r))
                                   (before ++ r :: r2 :: rest))
                                (set_real_cur_pos cache1 self)))
                   | Err DisconnectedError =>
                       Ok (set_real_cur_pos
                             (map (fun r => (r, reported cached r))
                                (before ++ r :: r2 :: rest))
                             (set_real_cur_pos cache1 self))
                   | Err e => Err e
                   end).
    specialize (IH (before ++ [r]) (set_real_cur_pos cache1 self)).
    cbv zeta in IH. rewrite Happ in IH. by apply IH.
Qed.

(** [__init__] raises its own [ValueError] when no pseudo axis or no
    real positioner was found, and passes on the [ValueError] of
    [namedtuple] when the attribute names of the real positioners, or
    else those of the pseudo axes, are refused; so it never succeeds
    when a real positioner or a pseudo axis appears twice.  When it
    succeeds, every pseudo axis knows its slot and has no commanded
    target, and nothing is queued, awaited or in flight.  The cache then
    holds one entry per real positioner, in declaration order: what that
    positioner had to report when it was subscribed to, and unknown if
    it had nothing.  A readback was published during construction only
    if every real positioner reported a known value, and then once,
    with [inverse] of these values; with some entry still unknown the
    trace is empty and [_update_position] reports [DisconnectedError].
    With accepted names and some real positioner that has nothing known
    to report, construction succeeds. *)
Theorem init_establishes (legal : string -> bool) (c : collaborators)
    (cls_name : string) (concurrent : bool) (real : list axis)
    (pseudo : list (string * (string * (Z * Z))))
    (cached : axis -> option (option Z)) (clk : nat -> Z) :
  let made := init legal c cls_name concurrent real pseudo cached clk in
  let real_tuple := namedtuple legal (cls_name +:+ "RealPos") real in
  let pseudo_tuple := namedtuple legal (cls_name +:+ "PseudoPos") pseudo.*1 in
  let values := map (reported cached) real in
  (pseudo = [] \/ real = [] -> made = Err ValueError_must_have_positioners) /\
  (pseudo <> [] -> real <> [] ->
   (forall e, real_tuple = Err e -> made = Err e) /\
   (forall e, is_ok real_tuple = true -> pseudo_tuple = Err e ->
              made = Err e) /\
   (is_ok real_tuple = true -> is_ok pseudo_tuple = true ->
    None ∈ values -> is_ok made = true)) /\
  (~ NoDup real \/ ~ NoDup pseudo.*1 -> is_ok made = false) /\
  (forall self, made = Ok self ->
     indexed self /\ idle self /\
     _real self = real /\ _concurrent self = concurrent /\
     _move_queue self = [] /\ _real_waiting self = [] /\
     closures self = [] /\
     length (_pseudo self) = length pseudo /\
     (forall i p, _pseudo self !! i = Some p ->
        _target p = None /\
        exists attr, pseudo !! i = Some (attr, (name p, limits p))) /\
     _real_cur_pos self = map (fun r => (r, reported cached r)) real /\
     (forall r, r ∈ real -> subscribed self r) /\
     (trace self = [] \/
      exists p, trace self = [ev_set_position p] /\
                inverse c values = Ok p /\ None ∉ values) /\
     (None ∈ values ->
      trace self = [] /\
      _update_position c self = (Err DisconnectedError, self))).
Proof.
  intros made real_tuple pseudo_tuple values.
  assert (pseudo <> [] -> real <> [] ->
          made = (_ ← real_tuple; _ ← pseudo_tuple;
                  subscribe_all c cached real {|
                    _concurrent := concurrent; _real := real;
                    _pseudo := assign_idx
                      (map (fun p => mk_PseudoSingle p.2.1 p.2.2 None 0%nat)
                         pseudo);
                    _real_cur_pos := fresh_cache real;
                    _real_waiting := []; _move_queue := []; closures := [];
                    statuses := []; clock := clk; ticks := 0; trace := []
                  |})) as Hmade.
  { intros Hp Hr. unfold made, init.
    by rewrite (bool_decide_eq_false_2 _ Hp), (bool_decide_eq_false_2 _ Hr). }
  set (self0 := mk_PseudoPositioner _ _ _ _ _ _ _ _ _ _ _) in Hmade.
  assert (NoDup real -> real <> [] ->
          subscribe_all c cached real self0
          = let final :=
              set_real_cur_pos (map (fun r => (r, reported cached r)) real)
                self0 in
            if bool_decide (None ∈ values) then Ok final
            else match inverse c values with
                 | Ok p => Ok (emits [ev_set_position p] final)
                 | Err DisconnectedError => Ok final
                 | Err e => Err e
                 end) as Hloop.
  { intros Hnd Hr.
    apply (subscribe_all_closed c cached real [] self0 Hr Hnd eq_refl).
    unfold self0, fresh_cache. cbn [_real_cur_pos].
    rewrite fresh_cache_from; [done|done|].
    intros r _. apply not_elem_of_nil. }
  assert (made = Err ValueError_must_have_positioners \/
          pseudo <> [] /\ real <> []) as Hcases.
  { unfold made, init. destruct pseudo; [by left|].
    destruct real; [by left|]. by right. }
  split_and!.
  - unfold made, init. intros [-> | ->]; [done|]. by rewrite orb_true_r.
  - intros Hp Hr. rewrite (Hmade Hp Hr). split_and!.
    + by intros e ->.
    + intros e Hok ->. by destruct real_tuple.
    + intros Hok1 Hok2 Hnone.
      destruct real_tuple as [cls1|] eqn:H1; [|done].
      destruct pseudo_tuple as [cls2|] eqn:H2; [|done]. csimpl.
      apply namedtuple_Ok in H1 as [Hnd _].
      rewrite (Hloop Hnd Hr). cbv zeta.
      by rewrite (bool_decide_eq_true_2 _ Hnone).
  - intros Hdup. destruct Hcases as [->|[Hp Hr]]; [done|].
    rewrite (Hmade Hp Hr).
    destruct real_tuple as [cls1|] eqn:H1; [|done].
    destruct pseudo_tuple as [cls2|] eqn:H2; [|done]. exfalso.
    apply namedtuple_Ok in H1 as [Hnd1 _].
    apply namedtuple_Ok in H2 as [Hnd2 _]. tauto.
  - intros self Hself.
    destruct Hcases as [Herr|[Hp Hr]]; [congruence|].
    rewrite (Hmade Hp Hr) in Hself.
    destruct real_tuple as [cls1|] eqn:H1; [|done].
    destruct pseudo_tuple as [cls2|] eqn:H2; [|done]. csimpl in Hself.
    apply namedtuple_Ok in H1 as [Hnd _].
    rewrite (Hloop Hnd Hr) in Hself. cbv zeta in Hself.
    set (final := set_real_cur_pos _ self0) in Hself.
    assert (exists tr, self = emits tr final /\
              (tr = [] \/ exists p, tr = [ev_set_position p] /\
                                    inverse c values = Ok p /\
                                    None ∉ values) /\
              (None ∈ values -> tr = [])) as (tr & -> & Htr & Hnone).
    { case_bool_decide as Hin.
      - exists []. rewrite emits_nil. injection Hself as <-.
        split_and!; [done|by left|done].
      - destruct (inverse c values) as [p|e] eqn:Hinv.
        + exists [ev_set_position p]. injection Hself as <-.
          split_and!; [done|right; by exists p|done].
        + exists []. rewrite emits_nil.
          destruct e; try done. injection Hself as <-.
          split_and!; [done|by left|done]. }
    assert (real_position (emits tr final) = Ok values) as Hrp.
    { unfold real_position. cbn [_real_cur_pos _real emits final
                                   set_real_cur_pos self0].
      rewrite bool_decide_eq_true_2 by (by rewrite length_fmap, length_map).
      f_equal. rewrite <-list_fmap_compose. done. }
    split_and!; cbn [_real _concurrent _move_queue _real_waiting closures
                      _pseudo _real_cur_pos statuses emits final
                      set_real_cur_pos self0]; try done.
    + intros i p Hi. apply assign_idx_lookup in Hi as (q & _ & ->). done.
    + constructor.
    + unfold assign_idx. by rewrite length_imap, length_map.
    + intros i p Hi. apply assign_idx_lookup in Hi as (q & Hq & ->). simpl.
      rewrite list_lookup_fmap in Hq.
      destruct (pseudo !! i) as [[attr [n l]]|]; simplify_eq/=. eauto.
    + intros r Hin. unfold subscribed.
      cbn [_real _real_cur_pos emits final set_real_cur_pos self0].
      rewrite length_map. split; [done|].
      rewrite <-list_fmap_compose.
      by replace (fst ∘ (fun r => (r, reported cached r))) with (@id axis);
        [rewrite list_fmap_id|].
    + intros Hin. rewrite (Hnone Hin). split; [done|].
      rewrite emits_nil. rewrite (Hnone Hin), emits_nil in Hrp.
      by apply (_update_position_disconnected c final values).
Qed.

(** ** Checking one axis *)

(** [check_single] validates the group's target record with the one
    slot replaced.  A value outside the limits of its own axis is
    rejected with the error naming that axis, provided the targets of
    the axes before it are within their limits; and what [check_single]
    rejects, [move_single] rejects with the same error without
    dispatching anything. *)
Theorem check_single_agrees
    (c : collaborators) (self : PseudoPositioner) (i : nat) (p : PseudoSingle)
    (pos : Z) (tmo : option Z) (tgt : list Z) :
  indexed self ->
  _pseudo self !! i = Some p ->
  target c self = Ok tgt ->
  check_single c self p pos = check_value c self (<[i := pos]> tgt) /\
  (out_of_range p pos -> accepted_before self tgt i ->
   check_single c self p pos
   = Err (ValueError_outside_pseudo_limits (name p) (limits p).1 pos
            (limits p).2)) /\
  (forall e, check_single c self p pos = Err e ->
     (move_single c p pos tmo self).1 = Err e /\
     dispatched (trace (move_single c p pos tmo self).2)
     = dispatched (trace self)).
Proof.
  intros Hidx Hp Ht. destruct (target_slots _ _ _ Ht) as [Hlen Hslots].
  assert (i < length tgt)%nat as Hi.
  { rewrite Hlen. by eapply lookup_lt_Some. }
  assert (check_single c self p pos = check_value c self (<[i := pos]> tgt))
    as Heq.
  { unfold check_single. rewrite Ht, (Hidx i p Hp). simpl.
    by rewrite bool_decide_eq_true_2. }
  split_and!; [done| |].
  - intros Hout Hbefore. rewrite Heq.
    rewrite check_value_unfold by (by rewrite length_insert).
    destruct (check_pseudo_limits _) as [[]|e] eqn:Hlim.
    { exfalso. apply check_pseudo_limits_Ok in Hlim.
      rewrite Forall_forall in Hlim. apply (Hlim (p, pos)); [|done].
      apply list_elem_of_lookup. exists i.
      rewrite lookup_zip_with, Hp. simpl.
      by rewrite list_lookup_insert_eq. }
    apply check_pseudo_limits_first in Hlim
      as (i' & p' & x' & Hp' & Hx' & Hout' & -> & Hbefore').
    assert (i' = i) as ->.
    { destruct (Nat.lt_trichotomy i' i) as [Hlt|[->|Hgt]]; [|done|].
      - exfalso. rewrite list_lookup_insert_ne in Hx' by lia.
        by apply (Hbefore i' p' x').
      - exfalso. apply (Hbefore' i p pos); [done|done| |done].
        by rewrite list_lookup_insert_eq. }
    rewrite list_lookup_insert_eq in Hx' by done. by simplify_eq.
  - intros e He. rewrite Heq in He.
    unfold move_single. rewrite Ht, (Hidx i p Hp).
    rewrite bool_decide_eq_true_2 by done.
    unfold move. cbv zeta.
    change (check_value c (emit (ev_move (<[i:=pos]> tgt)) self))
      with (check_value c self).
    rewrite He. simpl. rewrite dispatched_app. simpl. by rewrite app_nil_r.
Qed.

(** ** What a pseudo axis re-broadcasts *)

(** When a readback notification makes the orchestrator publish a pseudo
    position, the value an axis passes on to its own subscribers is its
    own slot of that position, which is also what its [position]
    property returns at that moment; a bare value is passed on as it
    is. *)
Theorem proxy_rebroadcasts_own_slot
    (c : collaborators) (obj : axis) (value : option Z)
    (self : PseudoPositioner) (pseudo_pos : list Z) (pseudo : PseudoSingle) :
  subscribed self obj ->
  let after := (_real_pos_update c obj value self).2 in
  trace after = trace self ++ [ev_set_position pseudo_pos] ->
  position c after = Ok pseudo_pos /\
  _sub_proxy_idx pseudo (whole pseudo_pos)
  = PseudoSingle_position c after pseudo /\
  (forall v, _sub_proxy_idx pseudo (bare v) = Ok v).
Proof.
  intros Hsub after Htrace.
  destruct (_real_pos_update_step c obj value self Hsub)
    as (Hcache & Hreal & Hnone & Hfull).
  fold after in Hcache, Hreal, Hnone, Hfull.
  assert (position c after = Ok pseudo_pos) as Hpos.
  { destruct (decide (None ∈ (_real_cur_pos after).*2)) as [Hin|Hnot].
    - destruct (Hnone Hin) as [_ Hsame]. rewrite Hsame in Htrace.
      apply (f_equal length) in Htrace. rewrite length_app in Htrace.
      simpl in Htrace. lia.
    - destruct (known_values _ Hnot) as [vals Hvals].
      specialize (Hfull vals Hvals).
      unfold position, real_position. rewrite Hreal, Hcache.
      destruct Hsub as [Hlen Hkey].
      rewrite bool_decide_eq_true_2
        by (by rewrite length_fmap, dict_set_length).
      simpl. rewrite <-Hcache, Hvals.
      destruct (inverse c (Some <$> vals)) as [p|e].
      + rewrite Hfull in Htrace. apply app_inv_head in Htrace. congruence.
      + rewrite Hfull in Htrace. apply (f_equal length) in Htrace.
        rewrite length_app in Htrace. simpl in Htrace. lia. }
  split_and!; [done| |done].
  unfold PseudoSingle_position. by rewrite Hpos.
Qed.

(** ** The base class *)

(** With [forward] and [inverse] as the base class leaves them, nothing
    is ever computed: [position] and every accepted [check_value] raise
    [NotImplementedError], [_setup_move] raises it before any real axis
    is moved, and a readback notification publishes nothing: with an
    unknown entry left it returns normally, with a full cache the
    [NotImplementedError] escapes. *)
Theorem base_class_is_abstract
    (real_check : axis -> Z -> result unit) (stop_real : axis -> result unit)
    (self : PseudoPositioner) :
  let c := base_collaborators real_check stop_real in
  (forall vals, real_position self = Ok vals ->
     position c self = Err NotImplementedError) /\
  (forall pos, length pos = length (_pseudo self) -> ~ violated self pos ->
     check_value c self pos = Err NotImplementedError) /\
  (forall pos tmo,
     (_setup_move c pos tmo self).1 = Err NotImplementedError /\
     trace (_setup_move c pos tmo self).2 = trace self) /\
  (forall obj value, subscribed self obj ->
     let r := _real_pos_update c obj value self in
     trace r.2 = trace self /\
     (None ∈ (_real_cur_pos r.2).*2 -> r.1 = Ok ()) /\
     (None ∉ (_real_cur_pos r.2).*2 -> r.1 = Err NotImplementedError)).
Proof.
  intros c. split_and!.
  - intros vals Hvals. unfold position. by rewrite Hvals.
  - intros pos Hlen Hnot.
    rewrite (check_value_unfold _ _ _ Hlen).
    assert (check_pseudo_limits (zip (_pseudo self) pos) = Ok ()) as ->; [|done].
    apply check_pseudo_limits_Ok, Forall_forall.
    intros [p x] Hin Hout. apply Hnot, violated_pairs. eauto.
  - intros pos tmo. by unfold _setup_move.
  - intros obj value Hsub r.
    destruct (_real_pos_update_step c obj value self Hsub)
      as (Hcache & Hreal & Hnone & Hfull).
    fold r in Hcache, Hreal, Hnone, Hfull.
    assert (trace r.2 = trace self) as Htrace.
    { destruct (decide (None ∈ (_real_cur_pos r.2).*2)) as [Hin|Hnot].
      - by destruct (Hnone Hin).
      - destruct (known_values _ Hnot) as [vals Hvals].
        by specialize (Hfull vals Hvals). }
    split_and!; [done| |].
    + intros Hin. by destruct (Hnone Hin).
    + intros Hnot. unfold r, _real_pos_update, _update_position. cbv zeta.
      unfold real_position. cbn [_real _real_cur_pos set_real_cur_pos].
      destruct Hsub as [Hlen Hkey].
      rewrite bool_decide_eq_true_2
        by (by rewrite length_fmap, dict_set_length).
      rewrite Hcache in Hnot. by rewrite bool_decide_eq_false_2.
Qed.

(** ** Sequential moves run to completion *)

Lemma dispatched_moves_of cb tmo (pairs : list (axis * Z)) :
  dispatched (moves_of cb tmo pairs) = pairs.
Proof.
  induction pairs as [|[r p] l IH]; [done|].
  unfold dispatched, moves_of in *. csimpl. by rewrite IH.
Qed.

Lemma terminal_moves_of cb tmo (pairs : list (axis * Z)) :
  terminal (moves_of cb tmo pairs) = [].
Proof.
  induction pairs as [|[r p] l IH]; [done|].
  unfold terminal, moves_of in *. csimpl. by rewrite IH.
Qed.

(** The state right after the call of [_sequential_move]. *)
Lemma _sequential_move_state self real_pos tmo :
  let started := _sequential_move real_pos tmo self in
  match zip (_real self) real_pos with
  | [] => statuses started = statuses self
  | (real, pos) :: rest =>
      exhausted (sub_timeout tmo (clock self (ticks self))
                   (clock self (S (ticks self)))) = false ->
      _move_queue started = rest /\
      in_flight started (length (statuses self))
  end.
Proof.
  set (full := zip (_real self) real_pos).
  set (cid := length (closures self)).
  set (cl := mk_closure [] (clock self (ticks self)) tmo).
  set (s0 := set_closures (closures self ++ [cl])
               (set_ticks (S (ticks self)) (set_move_queue full self))).
  change (_sequential_move real_pos tmo self) with (move_next cid s0).
  cbv zeta. unfold move_next.
  assert (closures s0 !! cid = Some cl) as -> by (by apply list_lookup_middle).
  assert (last_failed s0 cl = false) as -> by done.
  change (_move_queue s0) with full.
  destruct full as [|[real pos] rest]; [done|].
  unfold time_time. cbv zeta. cbn [fst snd]. simpl. intros ->.
  split; [done|]. eexists. split; [by apply list_lookup_middle|done].
Qed.

Lemma sequential_chain_completes c full n0 cid clk m0 tr0 (m : nat) :
  forall k s,
    seq_inv full n0 cid clk m0 None tr0 s k ->
    (k + m = length full)%nat -> (0 < k)%nat ->
    in_flight s (n0 + (k - 1))%nat ->
    _move_queue s = drop k full ->
    trace s = tr0 ++ moves_of (cb_move_next cid) None (take k full) ->
    let s' := run c s (map (fun j => in_finished (n0 + j) true)
                         (seq (k - 1) (S m))) in
    trace s' = tr0 ++ moves_of (cb_move_next cid) None full
                   ++ [ev_super_done_moving true] /\
    idle s'.
Proof.
  induction m as [|m IH]; intros k s Hinv Hkm Hk Hfl Hq Htr;
    pose proof (seq_inv_finished _ _ _ _ _ _ _ _ _ _ true Hinv Hfl) as Hstep;
    cbv zeta in Hstep.
  - assert (drop k full = []) as Hnil by (apply drop_ge; lia).
    rewrite Hq, Hnil in Hstep. destruct Hstep as (Ht & Hidle & Hinv').
    simpl. split; [|done].
    rewrite Ht, Htr, take_ge by lia. by rewrite <-app_assoc.
  - destruct (lookup_lt_is_Some_2 full k) as [[real pos] Hfk]; [lia|].
    rewrite Hq, (drop_S _ _ _ Hfk) in Hstep. simpl in Hstep.
    destruct Hstep as (Ht & Hfl' & Hq' & Hinv').
    change (seq (k - 1) (S (S m))) with ((k - 1)%nat :: seq (S (k - 1)) (S m)).
    cbn [map run foldl step]. fold (run c).
    replace (S (k - 1)) with (S k - 1)%nat by lia.
    apply (IH (S k) (finished (n0 + (k - 1)) true s)); try done; try lia.
    + by replace (S k - 1)%nat with k by lia.
    + rewrite Ht, Htr, (take_S_r _ _ _ Hfk). unfold moves_of.
      by rewrite map_app, <-app_assoc.
Qed.

(** A sequential group move without timeout, started while no real-axis
    move handed out earlier is unresolved and not overtaken by another
    group move, whose real-axis moves all complete with success:
    it dispatches every pair of [zip(self._real, real_pos)], in order
    and one at a time, and then raises the group's completion once, as
    success. *)
Theorem sequential_move_completes
    (c : collaborators) (self : PseudoPositioner) (real_pos : list Z) :
  idle self ->
  let full := zip (_real self) real_pos in
  let cid := length (closures self) in
  let s := run c (_sequential_move real_pos None self)
             (all_succeed (length (statuses self)) (length full)) in
  trace s = trace self ++ moves_of (cb_move_next cid) None full
                       ++ [ev_super_done_moving true] /\
  dispatched (trace s) = dispatched (trace self) ++ full /\
  terminal (trace s) = terminal (trace self) ++ [true] /\
  idle s.
Proof.
  intros Hidle full cid s.
  assert (trace s = trace self ++ moves_of (cb_move_next cid) None full
                               ++ [ev_super_done_moving true] /\ idle s)
    as [Htrace Hidle'].
  { unfold s. destruct (seq_inv_start self real_pos None Hidle) as [k Hinv].
    fold full cid in Hinv.
    pose proof (_sequential_move_trace self real_pos None) as Ht0.
    pose proof (_sequential_move_state self real_pos None) as Hst0.
    fold full cid in Ht0, Hst0. cbv zeta in Ht0, Hst0.
    destruct full as [|[real pos] rest] eqn:Hfull.
    - simpl. split; [done|]. unfold idle. by rewrite Hst0.
    - simpl in Ht0. destruct Hst0 as [Hq0 Hfl0]; [done|].
      assert (k = 1)%nat as ->.
      { pose proof Hinv as (Hk & (tr & Htr & Hdisp & _) & _).
        rewrite Ht0 in Htr. apply app_inv_head in Htr. subst tr.
        simpl in Hdisp, Hk. destruct k as [|[|k]]; [done|done|].
        destruct rest; simpl in *; [lia|done]. }
      unfold all_succeed. cbn [length].
      replace 0%nat with (1 - 1)%nat at 1 by done.
      apply (sequential_chain_completes c _ _ _ _ _ _ (length rest) 1
               _ Hinv); try done.
      + simpl. lia.
      + by rewrite Nat.add_0_r. }
  split_and!; [done| | |done].
  - rewrite Htrace, !dispatched_app, dispatched_moves_of. simpl.
    by rewrite app_nil_r.
  - rewrite Htrace, !terminal_app, terminal_moves_of. done.
Qed.

(** ** Concurrent moves: every order of arrival *)

Lemma concurrent_dispatch tmo (pairs : list (axis * Z)) s :
  let s' := foldl (fun self rv =>
                     (real_move rv.1 rv.2 tmo cb_real_finished self).2)
              s pairs in
  statuses s' = statuses s ++
                map (fun rv => mk_status rv.1 cb_real_finished false false)
                  pairs /\
  trace s' = trace s ++ moves_of cb_real_finished tmo pairs /\
  _real_waiting s' = _real_waiting s.
Proof.
  revert s. induction pairs as [|[r p] pairs IH]; intros s; cbn [foldl].
  - simpl. by rewrite !app_nil_r.
  - set (s1 := (real_move _ _ _ _ s).2). cbv zeta.
    destruct (IH s1) as (H1 & H2 & H3).
    rewrite H1, H2, H3. unfold s1. simpl. by rewrite <-!app_assoc.
Qed.

Lemma filter_all {A} (P : A -> Prop) `{!forall x, Decision (P x)} (l : list A) :
  (forall x, x ∈ l -> P x) -> filter P l = l.
Proof.
  induction l as [|x l IH]; intros Hall; [done|].
  rewrite filter_cons_True by (apply Hall; by left).
  rewrite IH; [done|]. intros y Hy. apply Hall. by right.
Qed.

Lemma filter_none {A} (P : A -> Prop) `{!forall x, Decision (P x)} (l : list A) :
  (forall x, x ∈ l -> ~ P x) -> filter P l = [].
Proof.
  induction l as [|x l IH]; intros Hall; [done|].
  rewrite filter_cons_False by (apply Hall; by left).
  apply IH. intros y Hy. apply Hall. by right.
Qed.

Lemma remove_first_filter (x : axis) (l : list axis) :
  NoDup l -> remove_first x l = filter (fun y => y <> x) l.
Proof.
  induction l as [|y l IH]; intros Hnd; [done|].
  apply NoDup_cons in Hnd as [Hy Hnd]. simpl. case_bool_decide as Hyx.
  - subst. rewrite filter_cons_False by (by intros ?).
    symmetry. apply filter_all. intros z Hz ->. done.
  - rewrite filter_cons_True by done. by rewrite IH.
Qed.

Lemma filter_not_in_cons (r : axis) (P reals : list axis) :
  filter (fun y => y <> r) (filter (fun y => y ∉ P) reals)
  = filter (fun y => y ∉ r :: P) reals.
Proof.
  rewrite list_filter_filter. apply list_filter_iff. intros y.
  rewrite not_elem_of_cons. tauto.
Qed.

Lemma conc_inv_finished (reals : list axis) n0 tr1 P s j r ok :
  NoDup reals -> conc_inv reals n0 tr1 P s ->
  reals !! j = Some r -> r ∉ P ->
  conc_inv reals n0 tr1 (r :: P) (finished (n0 + j) ok s).
Proof.
  intros Hnd (Hw & Hst & Htr) Hj Hr.
  destruct (Hst j r Hj) as (st & Hlook & Hobj & Hcb & Hdone).
  assert (st_done st = false) as Hd.
  { destruct (st_done st); [|done]. exfalso. by apply Hr, Hdone. }
  unfold finished. rewrite Hlook, Hd, Hcb, Hobj. cbv zeta.
  set (l1 := <[(n0 + j)%nat := _]> (statuses s)).
  assert (r ∈ filter (fun y => y ∉ P) reals) as Hin.
  { apply list_elem_of_filter. split; [done|]. by eapply list_elem_of_lookup_2. }
  assert (filter (fun y => y ∉ P) reals <> []) as Hne.
  { intros Hnil. rewrite Hnil in Hin. by apply elem_of_nil in Hin. }
  unfold _real_finished. cbv zeta. cbn [_real_waiting set_statuses].
  rewrite Hw, (bool_decide_eq_true_2 _ Hin).
  cbn [_real_waiting set_real_waiting].
  rewrite remove_first_filter by (by apply NoDup_filter).
  rewrite filter_not_in_cons.
  assert (forall j' r', reals !! j' = Some r' ->
            exists st', l1 !! (n0 + j')%nat = Some st' /\ st_obj st' = r' /\
                        st_moved_cb st' = cb_real_finished /\
                        (st_done st' = true <-> r' ∈ r :: P)) as Hst'.
  { intros j' r' Hj'. destruct (decide (j' = j)) as [->|Hne'].
    - simplify_eq. eexists. unfold l1. split.
      + apply list_lookup_insert_eq. by eapply lookup_lt_Some.
      + simpl. split_and!; [done|done|]. split; [by left|done].
    - destruct (Hst j' r' Hj') as (st' & Hlook' & Hobj' & Hcb' & Hdone').
      exists st'. unfold l1. rewrite list_lookup_insert_ne by lia.
      split_and!; [done..|]. rewrite Hdone', elem_of_cons.
      assert (r' <> r).
      { intros ->. apply Hne'. by eapply NoDup_lookup. }
      tauto. }
  rewrite (bool_decide_eq_false_2 _ Hne) in Htr. rewrite app_nil_r in Htr.
  case_bool_decide as Hempty; unfold conc_inv; simpl.
  - rewrite Hempty. split_and!; [done|done|by rewrite Htr].
  - split_and!; [done|done|].
    by rewrite (bool_decide_eq_false_2 _ Hempty), app_nil_r.
Qed.

Lemma conc_run c (reals : list axis) n0 tr1 :
  NoDup reals ->
  forall (order : list (nat * bool)) P s,
    conc_inv reals n0 tr1 P s -> NoDup P -> P ⊆ reals ->
    NoDup order.*1 ->
    (forall j, j ∈ order.*1 -> exists r, reals !! j = Some r /\ r ∉ P) ->
    exists P', conc_inv reals n0 tr1 P' (run c s (completions n0 order)) /\
               NoDup P' /\ P' ⊆ reals /\
               length P' = (length P + length order)%nat.
Proof.
  intros Hnd. induction order as [|[j ok] order IH];
    intros P s Hinv HP Hsub Hord Hall.
  - exists P. simpl. split_and!; [done..|lia].
  - csimpl in *. apply NoDup_cons in Hord as [Hj Hord].
    destruct (Hall j) as (r & Hr & HrP); [by left|].
    destruct (IH (r :: P) (finished (n0 + j) ok s)) as (P' & H1 & H2 & H3 & H4).
    + by apply conc_inv_finished.
    + by constructor.
    + intros x [->|Hx]%elem_of_cons; [by eapply list_elem_of_lookup_2|].
      by apply Hsub.
    + done.
    + intros j' Hj'. destruct (Hall j') as (r' & Hr' & HrP'); [by right|].
      exists r'. split; [done|]. intros [->|Hin]%elem_of_cons; [|done].
      apply Hj. by rewrite (NoDup_lookup _ _ _ _ Hnd Hr Hr').
    + exists P'. split_and!; [done..|]. simpl in H4. lia.
Qed.

(** A concurrent group move hands every real positioner its move before
    any completion is processed.  The group's completion is then raised
    exactly once, by the completion that arrives last, whatever the
    order of arrival; it is raised as success whatever the individual
    outcomes were. *)
Theorem concurrent_move_completion
    (c : collaborators) (self : PseudoPositioner) (real_pos : list Z)
    (tmo : option Z) (order : list (nat * bool)) :
  NoDup (_real self) -> _real self <> [] ->
  (length (_real self) <= length real_pos)%nat ->
  NoDup order.*1 ->
  Forall (fun j => (j < length (_real self))%nat) order.*1 ->
  let started := _concurrent_move real_pos tmo (set_real_waiting [] self) in
  let s := run c started (completions (length (statuses self)) order) in
  trace started
  = trace self ++ moves_of cb_real_finished tmo (zip (_real self) real_pos) /\
  (zip (_real self) real_pos).*1 = _real self /\
  _real_waiting started = _real self /\
  trace s = trace started ++
            if bool_decide (length order = length (_real self))
            then [ev_super_done_moving true] else [].
Proof.
  intros Hnd Hne Hlen Hord Hall started s.
  set (reals := _real self) in *. set (n0 := length (statuses self)) in *.
  assert ((zip reals real_pos).*1 = reals) as Hfst by (by apply fst_zip).
  destruct (concurrent_dispatch tmo (zip reals real_pos)
              (set_real_waiting ([] ++ reals) self)) as (Hst & Htr & Hw).
  cbv zeta in Hst, Htr, Hw.
  change (foldl _ _ _) with started in Hst, Htr, Hw.
  cbn [statuses trace _real_waiting set_real_waiting app] in Hst, Htr, Hw.
  assert (conc_inv reals n0 (trace started) [] started) as Hinv.
  { unfold conc_inv. split_and!.
    - rewrite Hw. symmetry. apply filter_all. intros x _. apply not_elem_of_nil.
    - intros j r Hj. rewrite Hst, lookup_app_r by (fold n0; lia).
      fold n0. replace (n0 + j - n0)%nat with j by lia.
      rewrite list_lookup_fmap.
      assert (zip reals real_pos !! j = Some (r, default 0 (real_pos !! j)))
        as ->.
      { rewrite lookup_zip_with, Hj. simpl.
        destruct (lookup_lt_is_Some_2 real_pos j) as [x ->]; [|done].
        apply lookup_lt_Some in Hj. lia. }
      simpl. eexists. split; [done|]. simpl. split_and!; [done|done|].
      split; [done|]. by intros ?%elem_of_nil.
    - rewrite bool_decide_eq_false_2; [by rewrite app_nil_r|].
      rewrite filter_all by (intros x _; apply not_elem_of_nil). done. }
  destruct (conc_run c reals n0 (trace started) Hnd order [] started Hinv)
    as (P' & (_ & _ & Htr') & HP' & Hsub & HlenP).
  { constructor. }
  { intros x Hx. by apply elem_of_nil in Hx. }
  { done. }
  { intros j Hj. rewrite Forall_forall in Hall.
    destruct (lookup_lt_is_Some_2 reals j) as [r Hr]; [by apply Hall|].
    exists r. split; [done|]. apply not_elem_of_nil. }
  fold s in Htr'. split_and!; [done..|]. rewrite Htr'. f_equal.
  simpl in HlenP. rewrite <-HlenP.
  case_bool_decide as Hfull.
  - rewrite bool_decide_eq_true_2; [done|].
    assert (P' ⊆+ reals) as Hsm by (by apply NoDup_submseteq).
    apply submseteq_length in Hsm as Hle.
    destruct (decide (length P' = length reals)) as [|Hneq]; [done|].
    exfalso. assert (reals ⊆+ P') as Hsm'.
    { apply NoDup_submseteq; [done|]. intros x Hx.
      destruct (decide (x ∈ P')) as [|Hnot]; [done|]. exfalso.
      assert (x ∈ filter (fun r => r ∉ P') reals) as Hin
        by (by apply list_elem_of_filter).
      rewrite Hfull in Hin. by apply elem_of_nil in Hin. }
    apply submseteq_length in Hsm'. lia.
  - rewrite bool_decide_eq_false_2; [done|]. intros Heq. apply Hfull.
    assert (P' ≡ₚ reals) as Hperm.
    { apply submseteq_length_Permutation; [by apply NoDup_submseteq|lia]. }
    apply filter_none. intros x Hx Hnot. apply Hnot. by rewrite Hperm.
Qed.

(** ** Record and field names *)

Lemma rsplit_dot_None (pv : list ascii) :
  rsplit_dot pv = None <-> "."%char ∉ pv.
Proof.
  induction pv as [|ch pv IH]; simpl.
  - split; [intros _; apply not_elem_of_nil|done].
  - destruct (rsplit_dot pv) as [[r f]|].
    + split; [done|]. intros Hnot. exfalso.
      assert ("."%char ∉ pv) as Hpv by (intros ?; apply Hnot; by right).
      by apply IH in Hpv.
    + case_bool_decide as Hch.
      * split; [done|]. intros Hnot. exfalso. apply Hnot. subst. by left.
      * split; [|done]. intros _ [Heq|Hin]%elem_of_cons; [done|].
        by apply (proj1 IH).
Qed.

Lemma rsplit_dot_Some (pv record field : list ascii) :
  rsplit_dot pv = Some (record, field) ->
  pv = record ++ "."%char :: field /\ "."%char ∉ field.
Proof.
  revert record. induction pv as [|ch pv IH]; intros record; simpl; [done|].
  destruct (rsplit_dot pv) as [[r f]|] eqn:Hpv.
  - intros [= <- <-]. destruct (IH r eq_refl) as [-> Hf]. done.
  - case_bool_decide as Hch; [|done]. intros [= <- <-]. subst.
    split; [done|]. by apply rsplit_dot_None.
Qed.

Lemma rsplit_dot_join (record field : list ascii) :
  "."%char ∉ field ->
  rsplit_dot (record ++ "."%char :: field) = Some (record, field).
Proof.
  intros Hf. induction record as [|ch record IH]; simpl.
  - apply rsplit_dot_None in Hf. by rewrite Hf.
  - by rewrite IH.
Qed.

Lemma split_record_field_join (record field : list ascii) :
  ("."%char) ∉ field ->
  split_record_field (record ++ "."%char :: field) = (record, field).
Proof.
  intros Hf. unfold split_record_field. rewrite bool_decide_eq_true_2.
  - by rewrite rsplit_dot_join.
  - apply elem_of_app. right. by left.
Qed.

(** [split_record_field] cuts at the last dot: the field it returns has
    no dot, and record, dot and field put together give the name back; a
    name without a dot is all record.  It undoes the joining of a record
    with a dot-free field. *)
Theorem split_record_field_round_trip (pv record field : list ascii) :
  ((("."%char) ∉ (split_record_field pv).2) /\
   (((("."%char) ∈ pv) /\
     pv = (split_record_field pv).1 ++ "."%char :: (split_record_field pv).2)
    \/ ((("."%char) ∉ pv) /\ split_record_field pv = (pv, [])))) /\
  (("."%char) ∉ field ->
   split_record_field (record ++ "."%char :: field) = (record, field)).
Proof.
  split.
  - unfold split_record_field. case_bool_decide as Hdot.
    + destruct (rsplit_dot pv) as [[r f]|] eqn:Hpv.
      * apply rsplit_dot_Some in Hpv as [-> Hf]. simpl. split; [done|].
        left. done.
      * apply rsplit_dot_None in Hpv. done.
    + simpl. split; [apply not_elem_of_nil|]. by right.
  - intros Hf. unfold split_record_field.
    rewrite bool_decide_eq_true_2.
    + by rewrite rsplit_dot_join.
    + apply elem_of_app. right. by left.
Qed.

(** [record_field] replaces the field of a name: splitting its result
    gives the record part of the name it was given and the upper-cased
    field, and applying it again with another field leaves only the
    second field. *)
Theorem record_field_replaces_field
    (upper : list ascii -> list ascii) (record field field' : list ascii) :
  (forall s, "."%char ∉ s -> "."%char ∉ upper s) ->
  "."%char ∉ field ->
  split_record_field (record_field upper record field)
  = (strip_field record, upper field) /\
  strip_field (record_field upper record field) = strip_field record /\
  record_field upper (record_field upper record field) field'
  = record_field upper record field'.
Proof.
  intros Hupper Hfield.
  assert (split_record_field (record_field upper record field)
          = (strip_field record, upper field)) as Hsplit.
  { unfold record_field. cbv zeta. simpl.
    apply split_record_field_join. by apply Hupper. }
  split_and!; [done| |].
  - unfold strip_field at 1. by rewrite Hsplit.
  - unfold record_field at 1. cbv zeta. unfold strip_field at 1.
    by rewrite Hsplit.
Qed.

(** ** Waveforms *)

Lemma cut_at_nul_no_nul (value : list Z) : 0 ∉ cut_at_nul value.
Proof.
  induction value as [|ch value IH]; simpl; [apply not_elem_of_nil|].
  case_bool_decide as Hch; [apply not_elem_of_nil|].
  intros [Heq|Hin]%elem_of_cons; [by subst|done].
Qed.

Lemma cut_at_nul_prefix (value : list Z) : cut_at_nul value `prefix_of` value.
Proof.
  induction value as [|ch value IH]; simpl; [done|].
  case_bool_decide; [apply prefix_nil|]. by apply prefix_cons.
Qed.

Lemma cut_at_nul_id (value : list Z) : 0 ∉ value -> cut_at_nul value = value.
Proof.
  induction value as [|ch value IH]; intros Hno; simpl; [done|].
  rewrite bool_decide_eq_false_2.
  - rewrite IH; [done|]. intros ?. apply Hno. by right.
  - intros ->. apply Hno. by left.
Qed.

Lemma cut_at_nul_stops (value : list Z) :
  0 ∈ value -> value !! length (cut_at_nul value) = Some 0.
Proof.
  induction value as [|ch value IH]; simpl; [by intros ?%elem_of_nil|].
  case_bool_decide as Hch; [by subst|].
  intros [Heq|Hin]%elem_of_cons; [by subst|]. simpl. by apply IH.
Qed.

Lemma join_empty_delim (value : list Z) :
  join [] (map (fun ch => [ch]) value) = value.
Proof.
  induction value as [|ch [|ch' value] IH]; [done|done|].
  simpl in *. by rewrite IH.
Qed.

(** [waveform_to_string] fails exactly when an integer is no code point.
    Its result never contains a NUL: it is the joined text up to the
    first NUL (the character after the result is that NUL), and the
    whole text when there is none; with the default empty delimiter the
    text is the waveform itself. *)
Theorem waveform_to_string_cuts_at_nul (value delim : list Z) :
  let text := join delim (map (fun ch => [ch]) value) in
  (waveform_to_string value delim = None <->
   exists ch, ch ∈ value /\ ~ (0 <= ch <= 1114111)) /\
  (forall out, waveform_to_string value delim = Some out ->
     (0 ∉ out) /\ (out `prefix_of` text) /\
     (0 ∉ text -> out = text) /\
     (0 ∈ text -> text !! length out = Some 0)) /\
  (delim = [] -> text = value).
Proof.
  intros text. unfold waveform_to_string. fold text. split_and!.
  - case_bool_decide as Hvalid.
    + split; [done|]. intros (ch & Hin & Hbad).
      rewrite Forall_forall in Hvalid. exfalso. apply Hbad. by apply Hvalid.
    + split; [|done]. intros _. apply not_Forall_Exists in Hvalid; [|apply _].
      apply Exists_exists in Hvalid as (ch & Hin & Hbad). eauto.
  - intros out. case_bool_decide; [|done]. intros [= <-]. split_and!.
    + apply cut_at_nul_no_nul.
    + apply cut_at_nul_prefix.
    + apply cut_at_nul_id.
    + apply cut_at_nul_stops.
  - intros ->. apply join_empty_delim.
Qed.

(** ** Enum comparison *)

(** [_compare_maybe_enum] does not depend on the order of its operands.
    Without enum strings it is plain equality, so an integer never
    equals a string.  With enum strings an index, counted from the front
    or from the end, equals the string it stands for, two indices are
    equal when they stand for the same string, and an index out of range
    is an error. *)
Theorem _compare_maybe_enum_spec (a b : enum_value) (enums : list string) :
  _compare_maybe_enum a b enums = _compare_maybe_enum b a enums /\
  _compare_maybe_enum a b [] = Some (bool_decide (a = b)) /\
  (forall i s, enums !! i = Some s ->
     _compare_maybe_enum (EInt (Z.of_nat i)) (EStr s) enums = Some true /\
     _compare_maybe_enum (EInt (Z.of_nat i - Z.of_nat (length enums)))
       (EStr s) enums = Some true /\
     _compare_maybe_enum (EInt (Z.of_nat i))
       (EInt (Z.of_nat i - Z.of_nat (length enums))) enums = Some true) /\
  (forall i, enums <> [] ->
     ~ (- Z.of_nat (length enums) <= i < Z.of_nat (length enums)) ->
     _compare_maybe_enum (EInt i) b enums = None).
Proof.
  assert (forall i s, enums !! i = Some s ->
            tuple_index enums (Z.of_nat i) = Some s /\
            tuple_index enums (Z.of_nat i - Z.of_nat (length enums)) = Some s)
    as Hindex.
  { intros i s Hi. pose proof (lookup_lt_Some _ _ _ Hi) as Hlt.
    unfold tuple_index. cbv zeta. split.
    - rewrite bool_decide_eq_true_2 by lia. by rewrite Nat2Z.id.
    - rewrite bool_decide_eq_false_2 by lia.
      rewrite bool_decide_eq_true_2 by lia.
      replace (Z.of_nat (length enums) +
               (Z.of_nat i - Z.of_nat (length enums))) with (Z.of_nat i)
        by lia.
      by rewrite Nat2Z.id. }
  split_and!.
  - unfold _compare_maybe_enum. case_bool_decide.
    + f_equal. apply bool_decide_ext. split; by intros ->.
    + destruct (enum_label enums a) as [sa|], (enum_label enums b) as [sb|];
        simpl; try done.
      f_equal. apply bool_decide_ext. split; by intros ->.
  - done.
  - intros i s Hi. destruct (Hindex i s Hi) as [H1 H2].
    assert (enums <> []) as Hne by (intros ->; done).
    unfold _compare_maybe_enum. rewrite (bool_decide_eq_false_2 _ Hne).
    simpl. rewrite H1, H2. simpl. by rewrite bool_decide_eq_true_2.
  - intros i Hne Hout. unfold _compare_maybe_enum.
    rewrite (bool_decide_eq_false_2 _ Hne). simpl. unfold tuple_index.
    cbv zeta. rewrite !bool_decide_eq_false_2 by lia. done.
Qed.

(** ** Startup of the position cache *)

Lemma dict_set_other {V} (key r : axis) (value v : V) (d : list (axis * V)) :
  (r, v) ∈ d -> r <> key -> (r, v) ∈ dict_set key value d.
Proof.
  induction d as [|[k w] d IH]; simpl; [by intros ?%elem_of_nil|].
  intros [Heq|Hin]%elem_of_cons Hne.
  - simplify_eq. rewrite bool_decide_eq_false_2 by done. by left.
  - case_bool_decide; right; [done|]. by apply IH.
Qed.

(** As long as one real positioner has not reported, its cache entry
    stays unknown and no readback notification of the others publishes
    anything. *)
Theorem nothing_published_before_all_report
    (c : collaborators) (self : PseudoPositioner)
    (ns : list (axis * option Z)) (r : axis) :
  length (_real_cur_pos self) = length (_real self) ->
  Forall (fun n => n.1 ∈ (_real_cur_pos self).*1) ns ->
  (r, None) ∈ _real_cur_pos self ->
  r ∉ ns.*1 ->
  trace (run c self (readbacks ns)) = trace self /\
  (r, None) ∈ _real_cur_pos (run c self (readbacks ns)).
Proof.
  revert self. induction ns as [|[obj value] ns IH];
    intros self Hlen Hall Hr Hnot; [done|].
  apply Forall_cons in Hall as [Hobj Hall]. simpl in Hobj.
  assert (r <> obj) as Hne by (intros ->; apply Hnot; by left).
  destruct (_real_pos_update_step c obj value self) as (Hc & Hreal & Hnone & _);
    [by split|].
  set (s1 := (_real_pos_update c obj value self).2) in *.
  assert ((r, None) ∈ _real_cur_pos s1) as Hr1.
  { rewrite Hc. by apply dict_set_other. }
  assert (trace s1 = trace self) as Ht1.
  { apply Hnone. apply list_elem_of_fmap. by exists (r, None). }
  assert ((_real_cur_pos s1).*1 = (_real_cur_pos self).*1) as Hkeys
    by (by rewrite Hc, dict_set_keys).
  destruct (IH s1) as [Ht Hr'].
  - rewrite Hreal, <-Hlen, <-!(length_fmap fst). by rewrite Hkeys.
  - by rewrite Hkeys.
  - done.
  - intros Hin. apply Hnot. by right.
  - change (run c self (readbacks ((obj, value) :: ns)))
      with (run c s1 (readbacks ns)).
    split; [by rewrite Ht|done].
Qed.

Lemma nothing_published_before_all_report_witness :
  let c := twin_collaborators in
  let self := twin_device true in
  let ns := [("m1", Some 6); ("m1", Some 7)] in
  (length (_real_cur_pos self) = length (_real self) /\
   Forall (fun n => n.1 ∈ (_real_cur_pos self).*1) ns /\
   ("m2", None) ∈ _real_cur_pos self /\ "m2" ∉ ns.*1) /\
  trace (run c self (readbacks ns)) = trace self /\
  ("m2", None) ∈ _real_cur_pos (run c self (readbacks ns)).
Proof.
  intros c self ns.
  assert (length (_real_cur_pos self) = length (_real self)) as H1
    by reflexivity.
  assert (Forall (fun n => n.1 ∈ (_real_cur_pos self).*1) ns) as H2.
  { repeat constructor; apply (bool_decide_unpack _); vm_compute;
      reflexivity. }
  assert (("m2", None) ∈ _real_cur_pos self) as H3.
  { apply (bool_decide_unpack _). vm_compute. reflexivity. }
  assert ("m2" ∉ ns.*1) as H4.
  { apply (bool_decide_unpack _). vm_compute. reflexivity. }
  split; [by repeat split|].
  exact (nothing_published_before_all_report c self ns "m2" H1 H2 H3 H4).
Defined.

(** ** Witnesses *)

Lemma to_position_tuple_sound_witness :
  let cls := mk_ntclass "Tuple" ["px"; "py"; "pz"] in
  let args := [PySeq [PyNum 1; PyNum 2; PyNum 3]] in
  let kwargs : gmap string pyval := {["a" := PyNum 4]} in
  let pos := PyRecord cls [PyNum 1; PyNum 2; PyNum 3] in
  (Forall well_formed args /\
   to_position_tuple cls args kwargs = Ok (pos, kwargs)) /\
  exists items,
    pos = PyRecord cls items /\
    length items = length (_fields cls) /\ _fields cls <> [] /\
    ((args = [] /\
      (forall i f, _fields cls !! i = Some f -> items !! i = kwargs !! f) /\
      (forall k, kwargs !! k
                 = if decide (k ∈ _fields cls) then None else kwargs !! k)) \/
     (exists arg, args = [arg] /\ isinstance_Sequence arg = true /\
                  items_of arg = items /\ kwargs = kwargs) \/
     (args = items /\ kwargs = kwargs /\
      exists arg tail, args = arg :: tail /\
                       isinstance_Sequence arg = false)).
Proof.
  intros cls args kwargs pos.
  assert (Forall well_formed args) as H1 by (repeat constructor).
  assert (to_position_tuple cls args kwargs = Ok (pos, kwargs)) as H2
    by reflexivity.
  split; [by split|].
  exact (to_position_tuple_sound cls args kwargs pos kwargs H1 H2).
Defined.

Lemma to_position_tuple_rejects_witness :
  let cls := mk_ntclass "Tuple" ["px"; "py"; "pz"] in
  _fields cls <> [] /\
  to_position_tuple cls [] ∅ = Err ValueError_usage /\
  to_position_tuple cls [PyNum 1; PyNum 2] ∅
  = Err (ValueError_wrong_number_of_arguments 2 3) /\
  to_position_tuple cls [PySeq [PyNum 1]; PyNum 2] ∅
  = Err ValueError_more_than_one_positional /\
  to_position_tuple cls [PySeq [PyNum 1]] ∅ = Err (TypeError_new 3 1).
Proof.
  intros cls. assert (_fields cls <> []) as H1 by done.
  split; [done|].
  destruct (to_position_tuple_rejects cls [] ∅ H1) as (Ha & _).
  destruct (to_position_tuple_rejects cls [PyNum 1; PyNum 2] ∅ H1)
    as (_ & Hb & _).
  destruct (to_position_tuple_rejects cls [PySeq [PyNum 1]; PyNum 2] ∅ H1)
    as (_ & _ & Hc & _).
  destruct (to_position_tuple_rejects cls [PySeq [PyNum 1]] ∅ H1)
    as (_ & _ & _ & Hd & _).
  split; [exact (Ha eq_refl eq_refl)|].
  split; [exact (Hb _ _ eq_refl eq_refl ltac:(simpl; lia))|].
  split; [exact (Hc _ _ eq_refl eq_refl ltac:(done))|].
  exact (Hd _ eq_refl ltac:(simpl; lia)).
Defined.

Lemma position_argument_wrapper_nested_witness :
  let cls := mk_ntclass "Tuple" ["px"; "py"] in
  let method := fun (pos : pyval) (kw : gmap string pyval) => Ok pos in
  let args := [PyNum 1; PyNum 2] in
  Forall well_formed args /\
  position_argument_wrapper cls
    (fun pos kw => position_argument_wrapper cls method [pos] kw) args ∅
  = position_argument_wrapper cls method args ∅.
Proof.
  intros cls method args.
  assert (Forall well_formed args) as H1 by (repeat constructor).
  split; [done|].
  exact (position_argument_wrapper_nested cls method args ∅ H1).
Defined.

Lemma check_value_names_first_offender_witness :
  let c := twin_collaborators in
  let self := twin_device true in
  (length [9; 100] = length (_pseudo self) /\ violated self [9; 100]) /\
  exists i p x,
    _pseudo self !! i = Some p /\ [9; 100] !! i = Some x /\
    out_of_range p x /\ accepted_before self [9; 100] i /\
    check_value c self [9; 100]
    = Err (ValueError_outside_pseudo_limits (name p) (limits p).1 x
             (limits p).2).
Proof.
  intros c self.
  assert (length [9; 100] = length (_pseudo self)) as H1 by reflexivity.
  assert (violated self [9; 100]) as H2.
  { exists 0%nat, (mk_PseudoSingle "px" (-5, 5) None 0), 9.
    split; [reflexivity|]. split; [reflexivity|].
    unfold out_of_range. simpl. lia. }
  split; [by split|].
  exact (check_value_names_first_offender c self [9; 100] H1 H2).
Defined.

Lemma init_establishes_witness :
  let legal := fun _ : string => true in
  let c := twin_collaborators in
  let real := ["m1"; "m2"] in
  let pseudo := [("px", ("px", (-5, 5))); ("py", ("py", (0, 0)))] in
  let cached := fun r : axis =>
    if bool_decide (r = "m1") then Some (Some 6) else None in
  let clk := fun _ : nat => 0 in
  let made := init legal c "Twin" true real pseudo cached clk in
  let real_tuple := namedtuple legal ("Twin" +:+ "RealPos") real in
  let pseudo_tuple := namedtuple legal ("Twin" +:+ "PseudoPos") pseudo.*1 in
  let values := map (reported cached) real in
  (pseudo <> [] /\ real <> [] /\ is_ok real_tuple = true /\
   is_ok pseudo_tuple = true /\ None ∈ values /\ ~ NoDup ["m1"; "m1"]) /\
  init legal c "Twin" true [] pseudo cached clk
  = Err ValueError_must_have_positioners /\
  init legal c "Twin" true ["m1"; "m1"] pseudo cached clk
  = Err (ValueError_namedtuple "m1") /\
  is_ok (init legal c "Twin" true ["m1"; "m1"] pseudo cached clk) = false /\
  (exists self,
     init legal c "Twin" true real pseudo (fun _ => Some (Some 6)) clk
     = Ok self /\ trace self = [ev_set_position [6; 0]]) /\
  is_ok made = true /\
  exists self,
    made = Ok self /\
    indexed self /\ idle self /\
    _real self = real /\ _concurrent self = true /\
    _move_queue self = [] /\ _real_waiting self = [] /\
    closures self = [] /\
    length (_pseudo self) = length pseudo /\
    (forall i p, _pseudo self !! i = Some p ->
       _target p = None /\
       exists attr, pseudo !! i = Some (attr, (name p, limits p))) /\
    _real_cur_pos self = map (fun r => (r, reported cached r)) real /\
    (forall r, r ∈ real -> subscribed self r) /\
    (trace self = [] \/
     exists p, trace self = [ev_set_position p] /\
               inverse c values = Ok p /\ None ∉ values) /\
    (None ∈ values ->
     trace self = [] /\
     _update_position c self = (Err DisconnectedError, self)).
Proof.
  intros legal c real pseudo cached clk made real_tuple pseudo_tuple values.
  assert (pseudo <> []) as H1 by done.
  assert (real <> []) as H2 by done.
  assert (is_ok real_tuple = true) as H3 by (vm_compute; reflexivity).
  assert (is_ok pseudo_tuple = true) as H4 by (vm_compute; reflexivity).
  assert (None ∈ values) as H5
    by (apply (bool_decide_unpack _); vm_compute; reflexivity).
  assert (~ NoDup ["m1"; "m1"]) as H6.
  { intros Hnd. apply NoDup_cons in Hnd as [Hnot _]. apply Hnot. by left. }
  split; [by repeat split|].
  split.
  { destruct (init_establishes legal c "Twin" true [] pseudo cached clk)
      as (Hempty & _).
    apply Hempty. by right. }
  split.
  { destruct (init_establishes legal c "Twin" true ["m1"; "m1"] pseudo cached
                clk) as (_ & Hnames & _).
    destruct Hnames as (Hreal & _); [done|done|]. apply Hreal.
    vm_compute. reflexivity. }
  split.
  { destruct (init_establishes legal c "Twin" true ["m1"; "m1"] pseudo cached
                clk) as (_ & _ & Hdup & _).
    apply Hdup. by left. }
  split; [eexists; split; vm_compute; reflexivity|].
  destruct (init_establishes legal c "Twin" true real pseudo cached clk)
    as (_ & Hnames & _ & Hok).
  destruct (Hnames H1 H2) as (_ & _ & Hsucc).
  split; [exact (Hsucc H3 H4 H5)|].
  eexists. split; [vm_compute; reflexivity|].
  apply Hok. vm_compute. reflexivity.
Defined.

Lemma check_single_agrees_witness :
  let c := twin_collaborators in
  let self := run c (twin_device true)
                [in_readback "m1" (Some 6); in_readback "m2" (Some 2)] in
  let p := mk_PseudoSingle "px" (-5, 5) None 0 in
  (indexed self /\ _pseudo self !! 0%nat = Some p /\
   target c self = Ok [4; 2]) /\
  check_single c self p 9 = check_value c self (<[0%nat := 9]> [4; 2]) /\
  (out_of_range p 9 -> accepted_before self [4; 2] 0 ->
   check_single c self p 9
   = Err (ValueError_outside_pseudo_limits (name p) (limits p).1 9
            (limits p).2)) /\
  (forall e, check_single c self p 9 = Err e ->
     (move_single c p 9 None self).1 = Err e /\
     dispatched (trace (move_single c p 9 None self).2)
     = dispatched (trace self)).
Proof.
  intros c self p.
  assert (indexed self) as H1.
  { intros [|[|i]] q; vm_compute; intros [= <-]; reflexivity. }
  assert (_pseudo self !! 0%nat = Some p) as H2 by reflexivity.
  assert (target c self = Ok [4; 2]) as H3 by reflexivity.
  split; [by repeat split|].
  exact (check_single_agrees c self 0 p 9 None [4; 2] H1 H2 H3).
Defined.

Lemma proxy_rebroadcasts_own_slot_witness :
  let c := twin_collaborators in
  let self := run c (twin_device true) [in_readback "m1" (Some 6)] in
  let pseudo := mk_PseudoSingle "py" (0, 0) None 1 in
  let after := (_real_pos_update c "m2" (Some 2) self).2 in
  (subscribed self "m2" /\
   trace after = trace self ++ [ev_set_position [4; 2]]) /\
  _sub_proxy_idx pseudo (whole [4; 2]) = Ok 2 /\
  position c after = Ok [4; 2] /\
  _sub_proxy_idx pseudo (whole [4; 2])
  = PseudoSingle_position c after pseudo /\
  (forall v, _sub_proxy_idx pseudo (bare v) = Ok v).
Proof.
  intros c self pseudo after.
  assert (subscribed self "m2") as H1.
  { split; [reflexivity|]. apply (bool_decide_unpack _). vm_compute.
    reflexivity. }
  assert (trace after = trace self ++ [ev_set_position [4; 2]]) as H2
    by reflexivity.
  split; [by split|]. split; [reflexivity|].
  exact (proxy_rebroadcasts_own_slot c "m2" (Some 2) self [4; 2] pseudo H1 H2).
Defined.

Lemma base_class_is_abstract_witness :
  let self := twin_device true in
  let c := base_collaborators sample_check (fun _ => Ok ()) in
  subscribed self "m1" /\
  position c self = Err NotImplementedError /\
  check_value c self [1; 2] = Err NotImplementedError /\
  (_setup_move c [1; 2] None self).1 = Err NotImplementedError /\
  (_real_pos_update c "m1" (Some 1) self).1 = Ok ().
Proof.
  intros self c.
  assert (subscribed self "m1") as H1.
  { split; [reflexivity|]. apply (bool_decide_unpack _). vm_compute.
    reflexivity. }
  destruct (base_class_is_abstract sample_check (fun _ => Ok ()) self)
    as (Ha & Hb & Hc & Hd).
  split; [done|]. split; [by eapply Ha|]. split.
  - apply Hb; [reflexivity|].
    intros (i & p & x & Hp & Hx & Hlt & Hout).
    destruct i as [|[|i]]; vm_compute in Hp, Hx; simplify_eq;
      simpl in *; lia.
  - split; [apply Hc|].
    apply (Hd "m1" (Some 1) H1). apply (bool_decide_unpack _). vm_compute.
    reflexivity.
Defined.

Lemma sequential_move_completes_witness :
  let c := twin_collaborators in
  let self := twin_device false in
  let full := zip (_real self) [8; 4] in
  let s := run c (_sequential_move [8; 4] None self)
             (all_succeed (length (statuses self)) (length full)) in
  idle self /\
  trace s = trace self ++ moves_of (cb_move_next 0) None full
                       ++ [ev_super_done_moving true] /\
  dispatched (trace s) = dispatched (trace self) ++ full /\
  terminal (trace s) = terminal (trace self) ++ [true] /\
  idle s.
Proof.
  intros c self full s.
  assert (idle self) as H1 by constructor.
  split; [done|]. exact (sequential_move_completes c self [8; 4] H1).
Defined.

Lemma concurrent_move_completion_witness :
  let c := twin_collaborators in
  let self := twin_device true in
  let order := [(1%nat, true); (0%nat, false)] in
  (NoDup (_real self) /\ _real self <> [] /\
   (length (_real self) <= length [4; 2])%nat /\
   NoDup order.*1 /\
   Forall (fun j => (j < length (_real self))%nat) order.*1) /\
  let started := _concurrent_move [4; 2] None (set_real_waiting [] self) in
  let s := run c started (completions (length (statuses self)) order) in
  trace started
  = trace self ++ moves_of cb_real_finished None (zip (_real self) [4; 2]) /\
  (zip (_real self) [4; 2]).*1 = _real self /\
  _real_waiting started = _real self /\
  trace s = trace started ++
            if bool_decide (length order = length (_real self))
            then [ev_super_done_moving true] else [].
Proof.
  intros c self order.
  assert (NoDup (_real self)) as H1
    by (apply (bool_decide_unpack _); vm_compute; reflexivity).
  assert (_real self <> []) as H2 by done.
  assert (length (_real self) <= length [4; 2])%nat as H3
    by (vm_compute; lia).
  assert (NoDup order.*1) as H4
    by (apply (bool_decide_unpack _); vm_compute; reflexivity).
  assert (Forall (fun j => (j < length (_real self))%nat) order.*1) as H5
    by (repeat constructor).
  split; [by repeat split|].
  exact (concurrent_move_completion c self [4; 2] None order H1 H2 H3 H4 H5).
Defined.

(** ** Witnesses for the utilities *)

Lemma ascii_upper_keeps_dots (s : list ascii) :
  ("."%char) ∉ s -> ("."%char) ∉ ascii_upper s.
Proof.
  intros Hno (ch & Heq & Hin)%list_elem_of_fmap. apply Hno.
  cbv zeta in Heq. case_bool_decide as Hrange; [|by subst].
  exfalso. apply (f_equal nat_of_ascii) in Heq.
  rewrite nat_ascii_embedding in Heq by lia.
  change (nat_of_ascii ".") with 46%nat in Heq. lia.
Qed.

Lemma split_record_field_round_trip_witness :
  let pv := ["X"; "F"; ":"; "m"; "1"; "."; "V"; "A"; "L"]%char in
  let record := ["X"; "F"; ":"; "m"; "1"]%char in
  let field := ["V"; "A"; "L"]%char in
  (("."%char) ∉ field) /\
  split_record_field pv = (record, field) /\
  split_record_field ["a"; "."; "b"; "."; "c"]%char
  = (["a"; "."; "b"]%char, ["c"]%char) /\
  split_record_field record = (record, []) /\
  split_record_field (record ++ "."%char :: field) = (record, field).
Proof.
  intros pv record field.
  assert (("."%char) ∉ field) as H1
    by (apply (bool_decide_unpack _); vm_compute; reflexivity).
  split; [done|]. split; [reflexivity|]. split; [reflexivity|].
  split; [reflexivity|].
  exact (proj2 (split_record_field_round_trip pv record field) H1).
Defined.

Lemma record_field_replaces_field_witness :
  let record := ["m"; "1"; "."; "R"; "B"; "V"]%char in
  let field := ["v"; "a"; "l"]%char in
  let field' := ["d"; "m"; "o"; "v"]%char in
  ((forall s, ("."%char) ∉ s -> ("."%char) ∉ ascii_upper s) /\
   ("."%char) ∉ field) /\
  record_field ascii_upper record field = ["m"; "1"; "."; "V"; "A"; "L"]%char /\
  split_record_field (record_field ascii_upper record field)
  = (strip_field record, ascii_upper field) /\
  strip_field (record_field ascii_upper record field) = strip_field record /\
  record_field ascii_upper (record_field ascii_upper record field) field'
  = record_field ascii_upper record field'.
Proof.
  intros record field field'.
  assert (("."%char) ∉ field) as H1
    by (apply (bool_decide_unpack _); vm_compute; reflexivity).
  split; [split; [exact ascii_upper_keeps_dots|exact H1]|].
  split; [reflexivity|].
  exact (record_field_replaces_field ascii_upper record field field'
           ascii_upper_keeps_dots H1).
Defined.

Lemma waveform_to_string_cuts_at_nul_witness :
  waveform_to_string [72; 105; 0; 33; 0] [] = Some [72; 105] /\
  waveform_to_string [72; 105] [45] = Some [72; 45; 105] /\
  waveform_to_string [72; -1] [] = None /\
  (forall out, waveform_to_string [72; 105; 0; 33; 0] [] = Some out ->
     (0 ∉ out) /\ (out `prefix_of` [72; 105; 0; 33; 0]) /\
     [72; 105; 0; 33; 0] !! length out = Some 0).
Proof.
  split; [reflexivity|]. split; [reflexivity|]. split; [reflexivity|].
  intros out Hout.
  destruct (waveform_to_string_cuts_at_nul [72; 105; 0; 33; 0] [])
    as (_ & Hcut & _).
  destruct (Hcut out Hout) as (Ha & Hb & _ & Hd).
  split; [exact Ha|]. split; [exact Hb|]. apply Hd.
  apply (bool_decide_unpack _). vm_compute. reflexivity.
Defined.

Lemma _compare_maybe_enum_spec_witness :
  let enums := ["Off"; "On"]%string in
  enums !! 1%nat = Some "On"%string /\
  _compare_maybe_enum (EInt 1) (EStr "On") enums = Some true /\
  _compare_maybe_enum (EInt (-1)) (EStr "On") enums = Some true /\
  _compare_maybe_enum (EStr "On") (EInt 1) enums = Some true /\
  _compare_maybe_enum (EInt 1) (EStr "On") [] = Some false /\
  _compare_maybe_enum (EInt 2) (EStr "On") enums = None.
Proof.
  intros enums.
  assert (enums !! 1%nat = Some "On"%string) as H1 by reflexivity.
  destruct (_compare_maybe_enum_spec (EInt 1) (EStr "On") enums)
    as (Hsym & Hplain & Hindex & _).
  destruct (_compare_maybe_enum_spec (EInt 1) (EStr "On") [])
    as (_ & Hplain' & _).
  destruct (_compare_maybe_enum_spec (EInt 2) (EStr "On") enums)
    as (_ & _ & _ & Hout).
  destruct (Hindex 1%nat "On"%string H1) as (Ha & Hb & _).
  split; [exact H1|]. split; [exact Ha|]. split; [exact Hb|].
  split; [rewrite <-Hsym; exact Ha|]. split; [exact Hplain'|].
  apply Hout; [done|]. simpl. lia.
Defined.

(** ** Stopping a sequential move *)

(** In a group move that overlaps no other, the step in flight is the
    latest entry of its closure's [pending_status]. *)
Lemma in_flight_is_latest full n0 cid clk m tmo tr0 s k sid :
  seq_inv full n0 cid clk m tmo tr0 s k -> in_flight s sid ->
  exists st cl,
    statuses s !! sid = Some st /\ st_done st = false /\
    st_moved_cb st = cb_move_next cid /\
    closures s !! cid = Some cl /\ last (pending_status cl) = Some sid.
Proof.
  intros Hinv Hfl.
  destruct (seq_inv_in_flight _ _ _ _ _ _ _ _ _ _ Hinv Hfl)
    as (Hk0 & Hsid & _).
  destruct Hfl as (st & Hst & Hd).
  destruct Hinv as (_ & _ & Hcl & _ & _ & _ & Hnew & _).
  exists st, (mk_closure (seq n0 k) (clk m) tmo). split_and!; [done..| |done|].
  - rewrite Hsid in Hst. by destruct (Hnew _ _ Hst).
  - simpl. by rewrite last_seq, Hsid.
Qed.

(** A step of a sequential chain that is unresolved and is the latest
    its chain has dispatched still decides the outcome after [stop()]:
    when its completion arrives, nothing further is dispatched, then or
    later, and the group's completion is raised as success if that move
    succeeded (the discarded steps are simply skipped) and as failure
    if it failed. *)
Theorem stop_then_completion_resolves_group
    (c : collaborators) (s : PseudoPositioner) (sid cid : nat)
    (st : status) (cl : closure) :
  statuses s !! sid = Some st -> st_done st = false ->
  st_moved_cb st = cb_move_next cid ->
  closures s !! cid = Some cl -> last (pending_status cl) = Some sid ->
  let stopped := stop c s in
  in_flight stopped sid /\
  trace (step c stopped (in_finished sid true))
  = trace stopped ++ [ev_super_done_moving true] /\
  trace (step c stopped (in_finished sid false))
  = trace stopped ++ [ev_logger_error "Failing due to last motion";
                      ev_super_done_moving false] /\
  forall ok more,
    dispatched (trace (run c (step c stopped (in_finished sid ok)) more))
    = dispatched (trace s).
Proof.
  intros Hst Hd Hcb Hcl Hlast stopped.
  assert (statuses stopped = statuses s /\ closures stopped = closures s /\
          _move_queue stopped = [] /\
          dispatched (trace stopped) = dispatched (trace s))
    as (Hsts & Hcls & Hq & Hdisp).
  { unfold stopped. rewrite stop_emits. simpl. split_and!; [done..|].
    rewrite !dispatched_app.
    destruct (stop_events_dispatch_nothing c (_real s)) as (-> & _).
    by rewrite app_nil_r. }
  assert (forall ok,
            step c stopped (in_finished sid ok)
            = move_next cid
                (set_statuses
                   (<[sid := mk_status (st_obj st) (cb_move_next cid) true ok]>
                      (statuses s)) stopped)) as Hstep.
  { intros ok. cbn [step]. unfold finished. rewrite Hsts, Hst, Hd.
    cbv zeta. by rewrite Hcb. }
  assert (forall ok,
            trace (step c stopped (in_finished sid ok))
            = trace stopped ++
              (if ok then [ev_super_done_moving true]
               else [ev_logger_error "Failing due to last motion";
                     ev_super_done_moving false]) /\
            _move_queue (step c stopped (in_finished sid ok)) = [])
    as Hres.
  { intros ok. rewrite Hstep. unfold move_next.
    cbn [closures set_statuses]. rewrite Hcls, Hcl.
    assert (last_failed (set_statuses
                           (<[sid := mk_status (st_obj st) (cb_move_next cid)
                                       true ok]> (statuses s)) stopped) cl
            = negb ok) as ->.
    { unfold last_failed, status_success. rewrite Hlast.
      cbn [statuses set_statuses].
      rewrite list_lookup_insert_eq by by eapply lookup_lt_Some. done. }
    cbn [_move_queue set_statuses]. rewrite Hq.
    destruct ok; simpl; [done|]. by rewrite <-app_assoc. }
  split_and!.
  - exists st. by rewrite Hsts.
  - by destruct (Hres true).
  - by destruct (Hres false).
  - intros ok more. destruct (Hres ok) as [Ht Hq'].
    rewrite (empty_queue_run c _ more Hq'), Ht, dispatched_app, Hdisp.
    destruct ok; simpl; by rewrite app_nil_r.
Qed.

(** ** The timeout budget under a clock that does not run backwards *)

(** In a sequential group move with timeout [T], started while no
    real-axis move handed out earlier is unresolved and not overtaken by
    another group move: as long as the clock never reads less than it
    did at the start, every real-axis move is handed a timeout between 0
    and [T], so no step is given more than the group's whole budget. *)
Theorem sequential_timeouts_within_budget
    (c : collaborators) (self : PseudoPositioner) (real_pos : list Z)
    (T : Z) (inputs : list input) :
  idle self ->
  not_before (clock self) (ticks self) ->
  let s := run c (_sequential_move real_pos (Some T) self) inputs in
  exists tr, trace s = trace self ++ tr /\
    Forall (fun sub => exists r, sub = Some r /\ 0 <= r <= T)
      (dispatched_timeouts tr).
Proof.
  intros Hidle Hnb s.
  destruct (seq_inv_start self real_pos (Some T) Hidle) as [k0 Hinv0].
  destruct (seq_inv_run c _ _ _ _ _ _ _ _ _ inputs Hinv0)
    as (k & Hk & (tr & Htr & Hdisp & Hexact & Htmos) & _).
  exists tr. split; [done|].
  apply Forall_lookup. intros i sub Hi.
  pose proof (Forall_lookup_1 _ _ _ _ Htmos Hi) as Hpos.
  rewrite Hexact in Hi. unfold step_timeouts in Hi.
  rewrite list_lookup_fmap in Hi.
  destruct (seq 0 k !! i) as [j|] eqn:Hj; [|done].
  injection Hi as <-. unfold sub_timeout in *.
  eexists. split; [done|]. split; [done|].
  specialize (Hnb (ticks self + 1 + j)%nat). lia.
Qed.

Lemma stop_then_completion_resolves_group_witness :
  let c := twin_collaborators in
  let s := _sequential_move [8; 4] None (twin_device false) in
  let st := mk_status "m1" (cb_move_next 0) false false in
  let cl := mk_closure [0%nat] 0 None in
  (statuses s !! 0%nat = Some st /\ st_done st = false /\
   st_moved_cb st = cb_move_next 0 /\
   closures s !! 0%nat = Some cl /\ last (pending_status cl) = Some 0%nat) /\
  _move_queue s = [("m2", 4)] /\
  let stopped := stop c s in
  in_flight stopped 0 /\
  trace (step c stopped (in_finished 0 true))
  = trace stopped ++ [ev_super_done_moving true] /\
  trace (step c stopped (in_finished 0 false))
  = trace stopped ++ [ev_logger_error "Failing due to last motion";
                      ev_super_done_moving false] /\
  forall ok more,
    dispatched (trace (run c (step c stopped (in_finished 0 ok)) more))
    = dispatched (trace s).
Proof.
  intros c s st cl.
  assert (statuses s !! 0%nat = Some st) as H1 by reflexivity.
  assert (st_done st = false) as H2 by reflexivity.
  assert (st_moved_cb st = cb_move_next 0) as H3 by reflexivity.
  assert (closures s !! 0%nat = Some cl) as H4 by reflexivity.
  assert (last (pending_status cl) = Some 0%nat) as H5 by reflexivity.
  split; [by repeat split|]. split; [reflexivity|].
  exact (stop_then_completion_resolves_group c s 0 0 st cl H1 H2 H3 H4 H5).
Defined.

Lemma sequential_timeouts_within_budget_witness :
  let c := twin_collaborators in
  let self := timed_device (clock_of [0; 2; 10]) in
  let inputs := [in_finished 0 true] in
  (idle self /\ not_before (clock self) (ticks self)) /\
  dispatched_timeouts
    (trace (run c (_sequential_move [8; 4] (Some 30) self) inputs))
  = [Some 28; Some 20] /\
  let s := run c (_sequential_move [8; 4] (Some 30) self) inputs in
  exists tr, trace s = trace self ++ tr /\
    Forall (fun sub => exists r, sub = Some r /\ 0 <= r <= 30)
      (dispatched_timeouts tr).
Proof.
  intros c self inputs.
  assert (idle self) as H1 by constructor.
  assert (not_before (clock self) (ticks self)) as H2.
  { intros n _. destruct n as [|[|[|n]]]; [vm_compute; discriminate..|].
    change (0 <= nth n [] 10). destruct n; simpl; lia. }
  split; [by split|]. split; [vm_compute; reflexivity|].
  exact (sequential_timeouts_within_budget c self [8; 4] 30 inputs H1 H2).
Defined.
